(** * masker: the overlay runtime (web/runtime.js)

    A shallow embedding of the browser script that paints rectangular masks
    over an image: the payload decoders ([b64ToUtf8], [parseMasksB64],
    [aioeParseInternalFromDom]), the DOM scaffolding ([ensureWrapper],
    [makeCanvas]), the renderer ([draw]) and the bootstrap ([initOne],
    [init]).

    The script's own functions are translated statement by statement.  The
    platform functions it calls (atob, escape, decodeURIComponent,
    JSON.parse, parseInt, the numeric coercions, the DOM tree operations) are
    written out after ECMA-262 and the HTML and DOM standards, to the extent
    the script uses them.  The last lines of the script, which run
    [init] at once or on DOMContentLoaded and once more on a zero-delay
    timer, are [main]; the callbacks they and [draw] leave to the event
    loop are run by [fire] and [run_frame]. *)

From Stdlib Require Import ZArith NArith List String Ascii Bool Lia Floats.
Import ListNotations.

Set Implicit Arguments.
Set Warnings "-register-all".

(* ================================================================== *)
(** * 1. JavaScript values                                             *)
(* ================================================================== *)

(** ** 1.1 Strings

    A JavaScript string is a sequence of 16-bit code units.  [atob] returns
    a "binary string" (every unit below 256), [decodeURIComponent] may
    return units above 255, so a string is a list of numbers rather than a
    list of bytes.  Program literals are ASCII and are written with
    [lit]. *)

Definition jsstring := list N.

Definition lit (s : string) : jsstring :=
  map N_of_ascii (list_ascii_of_string s).

Fixpoint jsstring_eqb (a b : jsstring) : bool :=
  match a, b with
  | [], [] => true
  | x :: a', y :: b' => N.eqb x y && jsstring_eqb a' b'
  | _, _ => false
  end.

(** [s || d] on strings: the empty string is the only falsy string. *)
Definition or_str (s d : jsstring) : jsstring :=
  match s with
  | [] => d
  | _ :: _ => s
  end.

(** WhiteSpace and LineTerminator code units (ECMA-262 12.2, 12.3), the set
    stripped by [String.prototype.trim], [parseInt] and the numeric
    coercion of strings. *)
Definition is_js_space (c : N) : bool :=
  (N.leb 9 c && N.leb c 13) || N.eqb c 32 || N.eqb c 160 || N.eqb c 5760
  || (N.leb 8192 c && N.leb c 8202) || N.eqb c 8232 || N.eqb c 8233
  || N.eqb c 8239 || N.eqb c 8287 || N.eqb c 12288 || N.eqb c 65279.

Fixpoint trimStart (s : jsstring) : jsstring :=
  match s with
  | c :: s' => if is_js_space c then trimStart s' else s
  | [] => []
  end.

Definition trim (s : jsstring) : jsstring :=
  rev (trimStart (rev (trimStart s))).

(** ** 1.2 Numbers

    A JavaScript Number is an IEEE 754 binary64 value: the primitive
    [float] of the prover. *)

Definition number := float.

(** Exact conversion of an integer to the nearest Number. *)
Definition Z2F (z : Z) : number :=
  SF2Prim (binary_normalize prec emax z 0 false).

(** The mantissa of the Number of a whole number below 2^53: the binary
    digits of the whole number, moved up to fill the 53 digits of a
    mantissa. *)
Definition aligned (m : positive) : positive :=
  match (Zpos (digits2_pos m) - 53)%Z with
  | Zneg k => Pos.iter xO m k
  | _ => m
  end.

(** ToBoolean on a Number: [+0], [-0] and [NaN] are falsy. *)
Definition truthy_num (x : number) : bool :=
  negb (PrimFloat.eqb x 0 || is_nan x).

(** [x || d] on Numbers. *)
Definition or_num (x d : number) : number :=
  if truthy_num x then x else d.

(** [Number.isFinite] on a Number. *)
Definition Number_isFinite (x : number) : bool := is_finite x.

(** ToInt32 (ECMA-262 7.1.6), the coercion behind [x | 0]: truncate,
    reduce modulo 2^32, read as a signed 32-bit integer. *)
Definition truncate (x : number) : Z :=
  match Prim2SF x with
  | S754_finite s m e =>
      let a := if (0 <=? e)%Z then (Zpos m * 2 ^ e)%Z
               else (Zpos m / 2 ^ (- e))%Z in
      if s then (- a)%Z else a
  | _ => 0%Z
  end.

Definition wrap32 (z : Z) : Z :=
  let r := (z mod 4294967296)%Z in
  if (2147483648 <=? r)%Z then (r - 4294967296)%Z else r.

Definition ToInt32 (x : number) : Z := wrap32 (truncate x).

(** [Math.round] (ECMA-262 21.3.2.28): the nearest integral Number, ties
    towards +infinity; an integral, infinite or NaN argument is returned as
    it is, and the sign of a zero result follows the argument. *)
Definition Math_round (x : number) : number :=
  match Prim2SF x with
  | S754_finite s m e =>
      if (0 <=? e)%Z then x
      else
        let k := (- e)%Z in
        if s then
          let q := ((2 ^ k - 2 * Zpos m) / 2 ^ (k + 1))%Z in
          if (q =? 0)%Z then neg_zero else Z2F q
        else
          let q := ((2 * Zpos m + 2 ^ k) / 2 ^ (k + 1))%Z in
          if (q =? 0)%Z then zero else Z2F q
  | _ => x
  end.

(** [Math.max] of two Numbers (ECMA-262 21.3.2.24): NaN is contagious and
    [+0] counts as larger than [-0]. *)
Definition Math_max (a b : number) : number :=
  if is_nan a || is_nan b then nan
  else if PrimFloat.ltb a b then b
  else if PrimFloat.ltb b a then a
  else if get_sign a then b else a.

(** ** 1.3 Completions

    A call either returns normally or throws; [try { a } catch { b }] is
    [try_catch a b]. *)

Inductive exn : Type :=
| TypeError
| SyntaxError
| URIError
| InvalidCharacterError   (* DOMException of atob *)
| HierarchyError          (* DOMException of a tree mutation *)
| RangeError.             (* the engine's call stack is exhausted *)

Inductive completion (A : Type) : Type :=
| Normal (a : A)
| Abrupt (e : exn).

Arguments Normal {A} a.
Arguments Abrupt {A} e.

Definition bindC {A B : Type} (c : completion A) (k : A -> completion B)
  : completion B :=
  match c with
  | Normal a => k a
  | Abrupt e => Abrupt e
  end.

Definition try_catch {A : Type} (body handler : completion A) : completion A :=
  match body with
  | Normal a => Normal a
  | Abrupt _ => handler
  end.

Notation "'let*' x ':=' c 'in' k" := (bindC c (fun x => k))
  (at level 10, x name, c at level 100, k at level 200).

(** ** 1.4 Decimal and integer literals *)

Definition is_digit (c : N) : bool := N.leb 48 c && N.leb c 57.

Fixpoint span_digits (s : jsstring) : list N * jsstring :=
  match s with
  | c :: s' =>
      if is_digit c then let (ds, r) := span_digits s' in (c :: ds, r)
      else ([], s)
  | [] => ([], [])
  end.

Definition digits_value (ds : list N) : Z :=
  fold_left (fun acc d => (10 * acc + (Z.of_N d - 48))%Z) ds 0%Z.

(** The Number nearest to [(-1)^neg * ds * 10^e], ties to even.  The two
    early exits only avoid building astronomically large powers: above
    [10^310] every value overflows to infinity, below [10^-330] every value
    rounds to zero. *)
Definition decimal (neg : bool) (ds : list N) (e : Z) : number :=
  let m := digits_value ds in
  SF2Prim
    match m with
    | Zpos p =>
        if (310 <? e)%Z then S754_infinity neg
        else if (Z.of_nat (List.length ds) + e <? -330)%Z then S754_zero neg
        else if (0 <=? e)%Z then
          match (m * 10 ^ e)%Z with
          | Zpos q => binary_round prec emax neg q 0
          | _ => S754_nan
          end
        else
          let '(q, e', l) :=
            SFdiv_core_binary prec emax m 0 (10 ^ (- e)) 0 in
          binary_round_aux prec emax neg q e' l
    | _ => S754_zero neg
    end.

(** An optional exponent part [e|E] [+|-]? digits+, then the end of the
    text. *)
Definition exponent_part (s : jsstring) : option Z :=
  match s with
  | [] => Some 0%Z
  | c :: s1 =>
      if N.eqb c 101 || N.eqb c 69 then
        let '(neg, s2) :=
          match s1 with
          | 45%N :: r => (true, r)
          | 43%N :: r => (false, r)
          | _ => (false, s1)
          end in
        match span_digits s2 with
        | ((_ :: _) as ds, []) =>
            Some (if neg then (- digits_value ds)%Z else digits_value ds)
        | _ => None
        end
      else None
  end.

(** StrUnsignedDecimalLiteral without the [Infinity] alternative. *)
Definition unsigned_decimal (neg : bool) (s : jsstring) : number :=
  let (ip, r1) := span_digits s in
  let '(dot, fp, r2) :=
    match r1 with
    | 46%N :: r => let (fp, r') := span_digits r in (true, fp, r')
    | _ => (false, [], r1)
    end in
  match ip, fp with
  | [], [] => nan
  | _, _ =>
      match exponent_part r2 with
      | Some e => decimal neg (ip ++ fp) (e - Z.of_nat (List.length fp))
      | None => nan
      end
  end.

Definition radix_digit (radix : N) (c : N) : option N :=
  let d :=
    if is_digit c then Some (c - 48)%N
    else if N.leb 97 c && N.leb c 102 then Some (c - 87)%N
    else if N.leb 65 c && N.leb c 70 then Some (c - 55)%N
    else None in
  match d with
  | Some v => if N.ltb v radix then Some v else None
  | None => None
  end.

Fixpoint radix_value (radix : N) (acc : N) (s : jsstring) : option N :=
  match s with
  | [] => Some acc
  | c :: s' =>
      match radix_digit radix c with
      | Some v => radix_value radix (acc * radix + v)%N s'
      | None => None
      end
  end.

Definition non_decimal (radix : N) (s : jsstring) : number :=
  match s with
  | [] => nan
  | _ :: _ =>
      match radix_value radix 0 s with
      | Some v => Z2F (Z.of_N v)
      | None => nan
      end
  end.

(** StringToNumber (ECMA-262 7.1.4.1.1). *)
Definition StringToNumber (s : jsstring) : number :=
  match trim s with
  | [] => zero
  | 48%N :: c :: r =>
      if N.eqb c 120 || N.eqb c 88 then non_decimal 16 r
      else if N.eqb c 111 || N.eqb c 79 then non_decimal 8 r
      else if N.eqb c 98 || N.eqb c 66 then non_decimal 2 r
      else unsigned_decimal false (48%N :: c :: r)
  | t =>
      let '(neg, u) :=
        match t with
        | 45%N :: r => (true, r)
        | 43%N :: r => (false, r)
        | _ => (false, t)
        end in
      if jsstring_eqb u (lit "Infinity")
      then (if neg then neg_infinity else infinity)
      else unsigned_decimal neg u
  end.

(** [parseInt(s, 10)] (ECMA-262 19.2.5): leading white space, a sign, the
    longest run of decimal digits; NaN when there is none. *)
Definition parseInt10 (s : jsstring) : number :=
  let t := trimStart s in
  let '(neg, u) :=
    match t with
    | 45%N :: r => (true, r)
    | 43%N :: r => (false, r)
    | _ => (false, t)
    end in
  match fst (span_digits u) with
  | [] => nan
  | ds =>
      let z := digits_value ds in
      if (z =? 0)%Z then (if neg then neg_zero else zero)
      else Z2F (if neg then (- z)%Z else z)
  end.

(** ** 1.5 Values

    The values the script handles are those [JSON.parse] builds, together
    with [undefined] (the result of reading a missing property). *)

Inductive value : Type :=
| VUndefined
| VNull
| VBool (b : bool)
| VNum (n : number)
| VStr (s : jsstring)
| VArr (items : list value)
| VObj (props : list (jsstring * value)).

Fixpoint own_prop (k : jsstring) (props : list (jsstring * value))
  : option value :=
  match props with
  | [] => None
  | (k', v) :: rest => if jsstring_eqb k k' then Some v else own_prop k rest
  end.

(** CreateDataProperty: a repeated key keeps its place and takes the new
    value. *)
Fixpoint set_prop (k : jsstring) (v : value) (props : list (jsstring * value))
  : list (jsstring * value) :=
  match props with
  | [] => [(k, v)]
  | (k', v') :: rest =>
      if jsstring_eqb k k' then (k, v) :: rest
      else (k', v') :: set_prop k v rest
  end.

(** [o.k] for the property names the script reads ([v], [masks], [active],
    [x], [y], [w], [h]).  None of them exists on a built-in prototype, so
    only a plain object can hold them; reading from [null] or [undefined]
    throws. *)
Definition get_member (o : value) (k : string) : completion value :=
  match o with
  | VUndefined | VNull => Abrupt TypeError
  | VObj props =>
      match own_prop (lit k) props with
      | Some v => Normal v
      | None => Normal VUndefined
      end
  | _ => Normal VUndefined
  end.

Definition Array_isArray (v : value) : bool :=
  match v with
  | VArr _ => true
  | _ => false
  end.

(** ToBoolean on the values tested with [!obj] and [!masks]. *)
Definition truthy (v : value) : bool :=
  match v with
  | VUndefined | VNull => false
  | VBool b => b
  | VNum n => truthy_num n
  | VStr s => match s with [] => false | _ => true end
  | VArr _ | VObj _ => true
  end.

(** [typeof v === "object"]. *)
Definition typeof_object (v : value) : bool :=
  match v with
  | VNull | VArr _ | VObj _ => true
  | _ => false
  end.

(** The number of nested calls of [Array.prototype.join] the engine can
    still make when a conversion starts.  The language does not fix it: it
    depends on the engine, on its settings and on the frames already on the
    stack.  It is sealed, so that nothing below depends on its value. *)
Definition stack_limit : nat.
Proof. exact 4096. Qed.

(** ToString of a value, when it throws.  An object throws a TypeError
    when OrdinaryToPrimitive finds no callable conversion (ECMA-262
    7.1.1.1): a parsed object that carries an own [toString] property hides
    [Object.prototype.toString] behind a value that is not callable, and
    [valueOf] returns the object itself.  An array converts through [join],
    which converts its elements from left to right, other than [null] and
    [undefined]; an element that is an array is converted by a nested call
    of [join], and the engine throws a RangeError when [d], the number of
    nested calls it can still make, is used up.  The first element that
    fails decides. *)
Fixpoint ToString_failure (d : nat) (v : value) {struct v} : option exn :=
  match v with
  | VObj props =>
      match own_prop (lit "toString") props with
      | Some _ => Some TypeError
      | None => None
      end
  | VArr items =>
      (fix join (l : list value) : option exn :=
         match l with
         | [] => None
         | item :: rest =>
             match
               match item with
               | VArr _ =>
                   match d with
                   | O => Some RangeError
                   | S d' => ToString_failure d' item
                   end
               | _ => ToString_failure d item
               end
             with
             | Some e => Some e
             | None => join rest
             end
         end) items
  | _ => None
  end.

(** The Number read from the text of a value whose conversion does not
    throw: ["[object Object]"] for a plain object, the comma-joined
    elements for an array.  The joined text of two or more elements
    contains a comma and is no numeric literal; the text of one element is
    that element's own text, and a Number printed and read back is the same
    Number (a zero prints without its sign). *)
Fixpoint primitive_number (v : value) : number :=
  match v with
  | VUndefined => nan
  | VNull => zero
  | VBool b => if b then one else zero
  | VNum n => n
  | VStr s => StringToNumber s
  | VObj _ => nan
  | VArr items =>
      match items with
      | [] => zero
      | [item] =>
          match item with
          | VUndefined | VNull => zero
          | VBool _ => nan
          | VNum n => if is_zero n then zero else n
          | VStr s => StringToNumber s
          | VArr _ => primitive_number item
          | VObj _ => nan
          end
      | _ :: _ :: _ => nan
      end
  end.

(** ToNumber (ECMA-262 7.1.4).  An object or an array converts through
    ToPrimitive, which throws what ToString throws. *)
Definition ToNumber (v : value) : completion number :=
  match ToString_failure stack_limit v with
  | Some e => Abrupt e
  | None => Normal (primitive_number v)
  end.

(* ================================================================== *)
(** * 2. JSON.parse                                                    *)
(* ================================================================== *)

(** ECMA-262 25.5.1 with the grammar of ECMA-404.  The text is cut into
    tokens by a scanner that reads one code unit at a time, and the tokens
    are assembled by a parser that keeps the open arrays and objects on a
    stack; both are structurally recursive on their input, so [JSON_parse]
    is total. *)

Inductive token : Type :=
| TLBrace | TRBrace | TLBracket | TRBracket | TColon | TComma
| TScalar (v : value)
| TString (s : jsstring).

Inductive lstate : Type :=
| LStart
| LStr (acc : jsstring)
| LEsc (acc : jsstring)
| LUni (acc : jsstring) (more : nat) (v : N)
| LNum (acc : jsstring)
| LWord (acc : jsstring).

(** A JSON number: an optional minus sign, an integer part without a
    superfluous leading zero, an optional fraction of at least one digit,
    an optional exponent. *)
Definition json_number (s : jsstring) : option number :=
  let '(neg, u) :=
    match s with
    | 45%N :: r => (true, r)
    | _ => (false, s)
    end in
  let (ip, r1) := span_digits u in
  let int_ok :=
    match ip with
    | [] => false
    | [_] => true
    | d :: _ => negb (N.eqb d 48)
    end in
  let frac :=
    match r1 with
    | 46%N :: r =>
        match span_digits r with
        | ([], _) => None
        | (fp, r') => Some (fp, r')
        end
    | _ => Some ([], r1)
    end in
  match int_ok, frac with
  | true, Some (fp, r2) =>
      match exponent_part r2 with
      | Some e => Some (decimal neg (ip ++ fp) (e - Z.of_nat (List.length fp)))
      | None => None
      end
  | _, _ => None
  end.

Definition json_word (s : jsstring) : option value :=
  if jsstring_eqb s (lit "true") then Some (VBool true)
  else if jsstring_eqb s (lit "false") then Some (VBool false)
  else if jsstring_eqb s (lit "null") then Some VNull
  else None.

Definition json_escape (c : N) : option N :=
  if N.eqb c 34 then Some 34%N          (* quotation mark *)
  else if N.eqb c 92 then Some 92%N     (* reverse solidus *)
  else if N.eqb c 47 then Some 47%N     (* solidus *)
  else if N.eqb c 98 then Some 8%N      (* b: backspace *)
  else if N.eqb c 102 then Some 12%N    (* f: form feed *)
  else if N.eqb c 110 then Some 10%N    (* n: line feed *)
  else if N.eqb c 114 then Some 13%N    (* r: carriage return *)
  else if N.eqb c 116 then Some 9%N     (* t: tab *)
  else None.

Definition is_json_space (c : N) : bool :=
  N.eqb c 32 || N.eqb c 9 || N.eqb c 10 || N.eqb c 13.

Definition is_number_char (c : N) : bool :=
  is_digit c || N.eqb c 45 || N.eqb c 43 || N.eqb c 46
  || N.eqb c 101 || N.eqb c 69.

Definition is_lower (c : N) : bool := N.leb 97 c && N.leb c 122.

(** The token a pending number or word gives when it ends. *)
Definition lex_close (st : lstate) : completion (list token) :=
  match st with
  | LStart => Normal []
  | LNum acc =>
      match json_number (rev acc) with
      | Some n => Normal [TScalar (VNum n)]
      | None => Abrupt SyntaxError
      end
  | LWord acc =>
      match json_word (rev acc) with
      | Some v => Normal [TScalar v]
      | None => Abrupt SyntaxError
      end
  | _ => Abrupt SyntaxError
  end.

(** One code unit read between tokens. *)
Definition lex_start (c : N) : completion (lstate * list token) :=
  if is_json_space c then Normal (LStart, [])
  else if N.eqb c 123 then Normal (LStart, [TLBrace])
  else if N.eqb c 125 then Normal (LStart, [TRBrace])
  else if N.eqb c 91 then Normal (LStart, [TLBracket])
  else if N.eqb c 93 then Normal (LStart, [TRBracket])
  else if N.eqb c 58 then Normal (LStart, [TColon])
  else if N.eqb c 44 then Normal (LStart, [TComma])
  else if N.eqb c 34 then Normal (LStr [], [])
  else if N.eqb c 45 || is_digit c then Normal (LNum [c], [])
  else if is_lower c then Normal (LWord [c], [])
  else Abrupt SyntaxError.

Definition lex_step (st : lstate) (c : N) : completion (lstate * list token) :=
  match st with
  | LStart => lex_start c
  | LStr acc =>
      if N.eqb c 34 then Normal (LStart, [TString (rev acc)])
      else if N.eqb c 92 then Normal (LEsc acc, [])
      else if N.ltb c 32 then Abrupt SyntaxError
      else Normal (LStr (c :: acc), [])
  | LEsc acc =>
      match json_escape c with
      | Some u => Normal (LStr (u :: acc), [])
      | None =>
          if N.eqb c 117 then Normal (LUni acc 3 0%N, [])
          else Abrupt SyntaxError
      end
  | LUni acc more v =>
      match radix_digit 16 c with
      | Some d =>
          let v' := (v * 16 + d)%N in
          match more with
          | O => Normal (LStr (v' :: acc), [])
          | S more' => Normal (LUni acc more' v', [])
          end
      | None => Abrupt SyntaxError
      end
  | LNum acc =>
      if is_number_char c then Normal (LNum (c :: acc), [])
      else
        let* closed := lex_close st in
        let* next := lex_start c in
        Normal (fst next, closed ++ snd next)
  | LWord acc =>
      if is_lower c then Normal (LWord (c :: acc), [])
      else
        let* closed := lex_close st in
        let* next := lex_start c in
        Normal (fst next, closed ++ snd next)
  end.

Fixpoint lex (st : lstate) (s : jsstring) : completion (list token) :=
  match s with
  | [] => lex_close st
  | c :: s' =>
      match lex_step st c with
      | Normal (st', emitted) =>
          match lex st' s' with
          | Normal rest => Normal (emitted ++ rest)
          | Abrupt e => Abrupt e
          end
      | Abrupt e => Abrupt e
      end
  end.

(** An array or object still open; an object remembers the key whose
    value is being read. *)
Inductive container : Type :=
| CArr (items : list value)
| CObj (props : list (jsstring * value)) (key : option jsstring).

Inductive expect : Type :=
| EValue            (* a value *)
| EValueOrClose     (* a value or "]", just after "[" *)
| EKeyOrClose       (* a key or "}", just after "{" *)
| EKey              (* a key, after "," *)
| EColon
| ECommaOrClose
| EEnd (v : value). (* the text is complete *)

Definition pstate := (expect * list container)%type.

(** A finished value goes into the innermost open container. *)
Definition push_value (v : value) (stack : list container)
  : completion pstate :=
  match stack with
  | [] => Normal (EEnd v, [])
  | CArr items :: up => Normal (ECommaOrClose, CArr (items ++ [v]) :: up)
  | CObj props (Some k) :: up =>
      Normal (ECommaOrClose, CObj (set_prop k v props) None :: up)
  | CObj _ None :: _ => Abrupt SyntaxError
  end.

Definition begin_value (t : token) (stack : list container)
  : completion pstate :=
  match t with
  | TScalar v => push_value v stack
  | TString s => push_value (VStr s) stack
  | TLBracket => Normal (EValueOrClose, CArr [] :: stack)
  | TLBrace => Normal (EKeyOrClose, CObj [] None :: stack)
  | _ => Abrupt SyntaxError
  end.

Definition parse_step (st : pstate) (t : token) : completion pstate :=
  let (e, stack) := st in
  match e, t, stack with
  | EValue, _, _ => begin_value t stack
  | EValueOrClose, TRBracket, CArr items :: up => push_value (VArr items) up
  | EValueOrClose, _, _ => begin_value t stack
  | EKeyOrClose, TRBrace, CObj props None :: up => push_value (VObj props) up
  | (EKeyOrClose | EKey), TString k, CObj props None :: up =>
      Normal (EColon, CObj props (Some k) :: up)
  | EColon, TColon, _ => Normal (EValue, stack)
  | ECommaOrClose, TComma, CArr _ :: _ => Normal (EValue, stack)
  | ECommaOrClose, TRBracket, CArr items :: up => push_value (VArr items) up
  | ECommaOrClose, TComma, CObj _ None :: _ => Normal (EKey, stack)
  | ECommaOrClose, TRBrace, CObj props None :: up => push_value (VObj props) up
  | _, _, _ => Abrupt SyntaxError
  end.

Fixpoint parse_tokens (st : pstate) (ts : list token) : completion value :=
  match ts with
  | [] =>
      match st with
      | (EEnd v, _) => Normal v
      | _ => Abrupt SyntaxError
      end
  | t :: ts' =>
      match parse_step st t with
      | Normal st' => parse_tokens st' ts'
      | Abrupt e => Abrupt e
      end
  end.

Definition JSON_parse (text : jsstring) : completion value :=
  let* ts := lex LStart text in
  parse_tokens (EValue, []) ts.

(* ================================================================== *)
(** * 3. The legacy text decoders                                      *)
(* ================================================================== *)

(** ** 3.1 atob

    The forgiving-base64 decode of the HTML standard: ASCII white space is
    dropped, one or two trailing [=] are dropped when the length is a
    multiple of four, a length of 1 modulo 4 or a unit outside the alphabet
    is an error, and the bits left over by a final group of two or three
    units are discarded. *)

Definition is_ascii_space (c : N) : bool :=
  N.eqb c 9 || N.eqb c 10 || N.eqb c 12 || N.eqb c 13 || N.eqb c 32.

Definition b64_value (c : N) : option N :=
  if N.leb 65 c && N.leb c 90 then Some (c - 65)%N
  else if N.leb 97 c && N.leb c 122 then Some (c - 71)%N
  else if is_digit c then Some (c + 4)%N
  else if N.eqb c 43 then Some 62%N
  else if N.eqb c 47 then Some 63%N
  else None.

Definition strip_padding (s : jsstring) : jsstring :=
  if Nat.eqb (Nat.modulo (List.length s) 4) 0 then
    match rev s with
    | 61%N :: 61%N :: r => rev r
    | 61%N :: r => rev r
    | _ => s
    end
  else s.

Fixpoint b64_values (s : jsstring) : option (list N) :=
  match s with
  | [] => Some []
  | c :: s' =>
      match b64_value c, b64_values s' with
      | Some v, Some vs => Some (v :: vs)
      | _, _ => None
      end
  end.

Fixpoint b64_bytes (vs : list N) : jsstring :=
  match vs with
  | a :: b :: c :: d :: rest =>
      let n := (a * 262144 + b * 4096 + c * 64 + d)%N in
      (n / 65536)%N :: ((n / 256) mod 256)%N :: (n mod 256)%N
      :: b64_bytes rest
  | [a; b; c] =>
      let n := ((a * 4096 + b * 64 + c) / 4)%N in
      [(n / 256)%N; (n mod 256)%N]
  | [a; b] => [((a * 64 + b) / 16)%N]
  | _ => []
  end.

Definition atob (data : jsstring) : completion jsstring :=
  let s := strip_padding (filter (fun c => negb (is_ascii_space c)) data) in
  if Nat.eqb (Nat.modulo (List.length s) 4) 1 then Abrupt InvalidCharacterError
  else
    match b64_values s with
    | Some vs => Normal (b64_bytes vs)
    | None => Abrupt InvalidCharacterError
    end.

(** ** 3.2 escape (ECMA-262 B.2.1.1) *)

Definition is_alnum (c : N) : bool :=
  is_digit c || (N.leb 65 c && N.leb c 90) || (N.leb 97 c && N.leb c 122).

(** The units [escape] leaves alone: letters, digits and [@*_+-./]. *)
Definition escape_unreserved (c : N) : bool :=
  is_alnum c || N.eqb c 64 || N.eqb c 42 || N.eqb c 95 || N.eqb c 43
  || N.eqb c 45 || N.eqb c 46 || N.eqb c 47.

Definition hex_char (n : N) : N :=
  if N.ltb n 10 then (48 + n)%N else (55 + n)%N.

Definition escape_unit (c : N) : jsstring :=
  if escape_unreserved c then [c]
  else if N.ltb c 256 then
    [37%N; hex_char (c / 16); hex_char (c mod 16)]
  else
    [37%N; 117%N; hex_char (c / 4096); hex_char ((c / 256) mod 16);
     hex_char ((c / 16) mod 16); hex_char (c mod 16)].

Definition escape (s : jsstring) : jsstring := flat_map escape_unit s.

(** ** 3.3 decodeURIComponent (ECMA-262 19.2.6.5)

    First every [%XX] becomes an octet, then the octets are read as UTF-8;
    an incomplete escape, a stray continuation octet, an overlong form, a
    surrogate or a value above U+10FFFF is a URIError. *)

Inductive uri_item : Type :=
| Plain (c : N)
| Octet (b : N).

Fixpoint uri_items (s : jsstring) : completion (list uri_item) :=
  match s with
  | [] => Normal []
  | c :: rest =>
      if N.eqb c 37 then
        match rest with
        | h :: l :: rest' =>
            match radix_digit 16 h, radix_digit 16 l with
            | Some a, Some b =>
                match uri_items rest' with
                | Normal items => Normal (Octet (a * 16 + b) :: items)
                | Abrupt e => Abrupt e
                end
            | _, _ => Abrupt URIError
            end
        | _ => Abrupt URIError
        end
      else
        match uri_items rest with
        | Normal items => Normal (Plain c :: items)
        | Abrupt e => Abrupt e
        end
  end.

(** UTF16EncodeCodePoint. *)
Definition utf16_encode (cp : N) : jsstring :=
  if N.ltb cp 65536 then [cp]
  else
    let v := (cp - 65536)%N in
    [(55296 + v / 1024)%N; (56320 + v mod 1024)%N].

Definition valid_scalar (cp least : N) : bool :=
  N.leb least cp && N.leb cp 1114111
  && negb (N.leb 55296 cp && N.leb cp 57343).

(** [pending] is the number of continuation octets still due, the bits
    read so far and the least value the finished sequence may encode. *)
Fixpoint utf8_items (pending : option (nat * N * N)) (items : list uri_item)
  : completion jsstring :=
  match items with
  | [] =>
      match pending with
      | None => Normal []
      | Some _ => Abrupt URIError
      end
  | Plain c :: rest =>
      match pending with
      | None =>
          match utf8_items None rest with
          | Normal s => Normal (c :: s)
          | Abrupt e => Abrupt e
          end
      | Some _ => Abrupt URIError
      end
  | Octet b :: rest =>
      match pending with
      | None =>
          if N.ltb b 128 then
            match utf8_items None rest with
            | Normal s => Normal (b :: s)
            | Abrupt e => Abrupt e
            end
          else if N.ltb b 192 then Abrupt URIError
          else if N.ltb b 224 then utf8_items (Some (0%nat, b - 192, 128)%N) rest
          else if N.ltb b 240 then utf8_items (Some (1%nat, b - 224, 2048)%N) rest
          else if N.ltb b 248 then utf8_items (Some (2%nat, b - 240, 65536)%N) rest
          else Abrupt URIError
      | Some (more, acc, least) =>
          if N.leb 128 b && N.ltb b 192 then
            let acc' := (acc * 64 + (b - 128))%N in
            match more with
            | S more' => utf8_items (Some (more', acc', least)) rest
            | O =>
                if valid_scalar acc' least then
                  match utf8_items None rest with
                  | Normal s => Normal (utf16_encode acc' ++ s)
                  | Abrupt e => Abrupt e
                  end
                else Abrupt URIError
            end
          else Abrupt URIError
      end
  end.

Definition decodeURIComponent (s : jsstring) : completion jsstring :=
  let* items := uri_items s in
  utf8_items None items.

(** ** 3.4 b64ToUtf8 and parseMasksB64 (runtime.js, lines 4-7 and 29-32) *)

Definition b64ToUtf8 (b64 : jsstring) : completion jsstring :=
  try_catch
    (let* bin := atob (or_str b64 (lit "")) in
     decodeURIComponent (escape bin))
    (try_catch (atob (or_str b64 (lit ""))) (Normal (lit ""))).

(** The object literal [{ v: 1, masks: [] }]. *)
Definition empty_payload : value :=
  VObj [(lit "v", VNum one); (lit "masks", VArr [])].

Definition parseMasksB64 (b64 : jsstring) : completion value :=
  let* txt := b64ToUtf8 b64 in
  try_catch (JSON_parse txt) (Normal empty_payload).

(* ================================================================== *)
(** * 4. The document tree                                             *)
(* ================================================================== *)

(** ** 4.1 Elements and trees

    An element carries an identity ([nid], what a JavaScript reference to
    it denotes), its tag, its class list, its attributes and, for a script
    element, its text.  The document is a tree of elements whose root
    stands for the Document node.  References are identities: they are
    resolved against the current tree at each use, the first element in
    tree order that carries the identity. *)

Record element : Type := {
  nid : nat;
  tagName : string;
  classList : list string;
  attributes : list (string * jsstring);
  textContent : jsstring
}.

Inductive node : Type :=
| Node (e : element) (childNodes : list node).

Definition node_elem (n : node) : element :=
  match n with Node e _ => e end.

Definition node_kids (n : node) : list node :=
  match n with Node _ ks => ks end.

(** The elements of a tree in tree order (the element, then its children's
    trees from first to last). *)
Fixpoint flatten (n : node) : list element :=
  match n with
  | Node e ks => e :: flat_map flatten ks
  end.

Definition descendants (n : node) : list element :=
  flat_map flatten (node_kids n).

(** A parent seen from one of its children: the parent's element, the
    siblings before the child and the siblings after it.  A list of frames,
    innermost first, is the way from a node up to the root. *)
Record frame : Type := {
  f_elem : element;
  f_before : list node;
  f_after : list node
}.

Definition fill (f : frame) (n : node) : node :=
  Node (f_elem f) (f_before f ++ n :: f_after f).

Definition plug (ctx : list frame) (n : node) : node :=
  fold_left (fun n f => fill f n) ctx n.

Section Scan.
Variable visit : node -> option (list frame * node).
Variable e : element.

(** The first child, from left to right, under which [visit] finds
    something. *)
Fixpoint scan (before after : list node) : option (list frame * node) :=
  match after with
  | [] => None
  | k :: after' =>
      match visit k with
      | Some (ctx, n) =>
          Some (ctx ++ [{| f_elem := e; f_before := before;
                           f_after := after' |}], n)
      | None => scan (before ++ [k]) after'
      end
  end.
End Scan.

(** The first node in tree order with identity [i], and the way up from
    it. *)
Fixpoint locate (i : nat) (t : node) : option (list frame * node) :=
  match t with
  | Node e ks =>
      if Nat.eqb (nid e) i then Some ([], t)
      else scan (locate i) e [] ks
  end.

(** An identity no element of the tree carries. *)
Definition fresh_id (t : node) : nat :=
  S (list_max (map nid (flatten t))).

(** ** 4.2 Selectors and queries *)

Record selector : Type := {
  sel_tag : option string;
  sel_class : option string;
  sel_id : option jsstring
}.

Fixpoint assoc {A : Type} (k : string) (l : list (string * A)) : option A :=
  match l with
  | [] => None
  | (k', v) :: rest => if String.eqb k k' then Some v else assoc k rest
  end.

(** [e.getAttribute(name)]; [None] is [null]. *)
Definition getAttribute (e : element) (name : string) : option jsstring :=
  assoc name (attributes e).

Definition matches (s : selector) (e : element) : bool :=
  match sel_tag s with
  | Some t => String.eqb t (tagName e)
  | None => true
  end
  &&
  match sel_class s with
  | Some c => existsb (String.eqb c) (classList e)
  | None => true
  end
  &&
  match sel_id s, getAttribute e "id" with
  | Some i, Some a => jsstring_eqb i a
  | Some _, None => false
  | None, _ => true
  end.

(** The five selectors of the script. *)
Definition sel_wrap : selector :=            (* .aioe-wrap *)
  {| sel_tag := None; sel_class := Some "aioe-wrap"%string; sel_id := None |}.
Definition sel_canvas : selector :=          (* canvas.aioe-cv *)
  {| sel_tag := Some "canvas"%string; sel_class := Some "aioe-cv"%string;
     sel_id := None |}.
Definition sel_script : selector :=          (* script.aioe-internal *)
  {| sel_tag := Some "script"%string;
     sel_class := Some "aioe-internal"%string; sel_id := None |}.
Definition sel_img : selector :=             (* img *)
  {| sel_tag := Some "img"%string; sel_class := None; sel_id := None |}.
Definition sel_root : selector :=            (* #aioe-root *)
  {| sel_tag := None; sel_class := None; sel_id := Some (lit "aioe-root") |}.

(** [i.closest(s)]: the nearest inclusive ancestor that matches. *)
Definition closest (i : nat) (s : selector) (t : node) : option nat :=
  match locate i t with
  | Some (ctx, n) =>
      option_map nid (find (matches s) (node_elem n :: map f_elem ctx))
  | None => None
  end.

(** [i.parentNode]. *)
Definition parentNode (i : nat) (t : node) : option nat :=
  match locate i t with
  | Some (f :: _, _) => Some (nid (f_elem f))
  | _ => None
  end.

(** [i.querySelector(s)]: the first descendant in tree order that
    matches. *)
Definition querySelector (i : nat) (s : selector) (t : node)
  : option element :=
  match locate i t with
  | Some (_, n) => find (matches s) (descendants n)
  | None => None
  end.

(** [document.querySelectorAll(s)], a static list. *)
Definition querySelectorAll (s : selector) (t : node) : list nat :=
  map nid (filter (matches s) (descendants t)).

(** ** 4.3 Mutations *)

(** [document.createElement(tag)]: a new element, not yet in the tree. *)
Definition createElement (tag : string) (t : node) : element :=
  {| nid := fresh_id t; tagName := tag; classList := [];
     attributes := []; textContent := [] |}.

(** [e.className = c] for a single class name. *)
Definition set_className (c : string) (e : element) : element :=
  {| nid := nid e; tagName := tagName e; classList := [c];
     attributes := attributes e; textContent := textContent e |}.

(** [parent.insertBefore(new, ref)] for a newly created [new]: [ref] must
    be a child of [parent]; [new] becomes its previous sibling. *)
Definition insertBefore (parent : nat) (new : node) (ref : nat) (t : node)
  : option node :=
  match locate ref t with
  | Some (f :: up, n) =>
      if Nat.eqb (nid (f_elem f)) parent then
        Some (plug ({| f_elem := f_elem f; f_before := f_before f ++ [new];
                       f_after := f_after f |} :: up) n)
      else None
  | _ => None
  end.

(** [parent.appendChild(new)] for a newly created [new]. *)
Definition appendChild_new (parent : nat) (new : node) (t : node)
  : option node :=
  match locate parent t with
  | Some (ctx, Node e ks) => Some (plug ctx (Node e (ks ++ [new])))
  | None => None
  end.

(** Removal of a node from its parent, as the first step of moving it. *)
Definition detach (i : nat) (t : node) : option (node * node) :=
  match locate i t with
  | Some (f :: up, n) =>
      Some (n, plug up (Node (f_elem f) (f_before f ++ f_after f)))
  | _ => None
  end.

(** [parent.appendChild(child)] for a [child] that is in the tree: it
    leaves its place and becomes the last child of [parent]. *)
Definition appendChild (parent child : nat) (t : node) : option node :=
  match detach child t with
  | Some (n, t') => appendChild_new parent n t'
  | None => None
  end.

(* ================================================================== *)
(** * 5. The page                                                      *)
(* ================================================================== *)

(** ** 5.1 What the script observes and changes *)

Record DOMRect : Type := {
  rect_width : number;
  rect_height : number
}.

(** What the browser reports and the script does not control: the layout
    box of an element, the device pixel ratio, whether an image has
    finished loading, whether [window.ResizeObserver] exists. *)
Record environment : Type := {
  getBoundingClientRect : nat -> DOMRect;
  devicePixelRatio : number;
  complete : nat -> bool;
  hasResizeObserver : bool
}.

(** The text of the template literal [`${n}px`], kept as the number and
    its unit. *)
Inductive css_length : Type :=
| Px (n : number).

(** The calls made on a canvas 2D context. *)
Inductive context_call : Type :=
| SetTransform (a b c d e f : number)
| ClearRect (x y w h : number)
| SetFillStyle (color : jsstring)
| FillRect (x y w h : number)
| SetLineWidth (w : number)
| SetStrokeStyle (color : jsstring)
| StrokeRect (x y w h : number).

(** A canvas as the script leaves it: the last values assigned to
    [style.width], [style.height], [width] and [height], and every call
    made on its context, oldest first. *)
Record surface : Type := {
  style_width : option css_length;
  style_height : option css_length;
  width : number;
  height : number;
  calls : list context_call
}.

(** A canvas nobody has touched: 300 by 150, the defaults of HTML. *)
Definition blank_surface : surface :=
  {| style_width := None; style_height := None;
     width := Z2F 300; height := Z2F 150; calls := [] |}.

Record style : Type := {
  fill_front : jsstring;
  fill_other : jsstring;
  stroke : jsstring;
  outline_px : number
}.

(** The closure [() => draw(side, img, masks, activeIndex, style)]. *)
Record draw_call : Type := {
  dc_side : jsstring;
  dc_img : nat;
  dc_masks : list value;
  dc_activeIndex : number;
  dc_style : style
}.

Record page : Type := {
  document : node;
  surfaces : list (nat * surface);
  animationFrames : list draw_call;          (* requestAnimationFrame *)
  loadOnce : list (nat * draw_call);         (* "load", { once: true } *)
  windowResize : list draw_call;             (* window "resize" *)
  resizeObserved : list (nat * draw_call)    (* ResizeObserver.observe *)
}.

(** ** 5.2 Stateful code: a state and exception monad over the page *)

Inductive outcome (A : Type) : Type :=
| Ok (a : A) (p : page)
| Throw (e : exn) (p : page).

Arguments Ok {A} a p.
Arguments Throw {A} e p.

Definition M (A : Type) : Type := page -> outcome A.

Definition ret {A : Type} (a : A) : M A := fun p => Ok a p.

Definition throw {A : Type} (e : exn) : M A := fun p => Throw e p.

Definition bind {A B : Type} (m : M A) (k : A -> M B) : M B :=
  fun p =>
    match m p with
    | Ok a p' => k a p'
    | Throw e p' => Throw e p'
    end.

Notation "x <- m ;; k" := (bind m (fun x => k))
  (at level 61, m at next level, right associativity).
Notation "m ;; k" := (bind m (fun _ => k))
  (at level 61, right associativity).

(** The page an outcome leaves behind, thrown or not. *)
Definition page_of {A : Type} (o : outcome A) : page :=
  match o with
  | Ok _ p => p
  | Throw _ p => p
  end.

Definition lift {A : Type} (c : completion A) : M A :=
  match c with
  | Normal a => ret a
  | Abrupt e => throw e
  end.

Definition with_document (p : page) (d : node) : page :=
  {| document := d; surfaces := surfaces p;
     animationFrames := animationFrames p; loadOnce := loadOnce p;
     windowResize := windowResize p; resizeObserved := resizeObserved p |}.

Definition with_surfaces (p : page) (s : list (nat * surface)) : page :=
  {| document := document p; surfaces := s;
     animationFrames := animationFrames p; loadOnce := loadOnce p;
     windowResize := windowResize p; resizeObserved := resizeObserved p |}.

(** A read of the tree. *)
Definition dom_get {A : Type} (f : node -> A) : M A :=
  fun p => Ok (f (document p)) p.

(** A mutation of the tree; a refused mutation throws. *)
Definition dom_update (f : node -> option node) : M unit :=
  fun p =>
    match f (document p) with
    | Some d => Ok tt (with_document p d)
    | None => Throw HierarchyError p
    end.

Fixpoint find_surface (cv : nat) (l : list (nat * surface)) : option surface :=
  match l with
  | [] => None
  | (k, s) :: rest => if Nat.eqb k cv then Some s else find_surface cv rest
  end.

Definition get_surface (cv : nat) (p : page) : surface :=
  match find_surface cv (surfaces p) with
  | Some s => s
  | None => blank_surface
  end.

Fixpoint put_surface (cv : nat) (s : surface) (l : list (nat * surface))
  : list (nat * surface) :=
  match l with
  | [] => [(cv, s)]
  | (k, s') :: rest =>
      if Nat.eqb k cv then (k, s) :: rest
      else (k, s') :: put_surface cv s rest
  end.

Definition update_surface (cv : nat) (f : surface -> surface) : M unit :=
  fun p =>
    Ok tt (with_surfaces p (put_surface cv (f (get_surface cv p))
                              (surfaces p))).

Definition with_style_width (l : css_length) (s : surface) : surface :=
  {| style_width := Some l; style_height := style_height s;
     width := width s; height := height s; calls := calls s |}.

Definition with_style_height (l : css_length) (s : surface) : surface :=
  {| style_width := style_width s; style_height := Some l;
     width := width s; height := height s; calls := calls s |}.

Definition with_width (n : number) (s : surface) : surface :=
  {| style_width := style_width s; style_height := style_height s;
     width := n; height := height s; calls := calls s |}.

Definition with_height (n : number) (s : surface) : surface :=
  {| style_width := style_width s; style_height := style_height s;
     width := width s; height := n; calls := calls s |}.

Definition append_calls (cs : list context_call) (s : surface) : surface :=
  {| style_width := style_width s; style_height := style_height s;
     width := width s; height := height s; calls := calls s ++ cs |}.

(** [cv.style.width = l], [cv.style.height = l], [cv.width = n],
    [cv.height = n]. *)
Definition set_style_width (cv : nat) (l : css_length) : M unit :=
  update_surface cv (with_style_width l).

Definition set_style_height (cv : nat) (l : css_length) : M unit :=
  update_surface cv (with_style_height l).

Definition set_width (cv : nat) (n : number) : M unit :=
  update_surface cv (with_width n).

Definition set_height (cv : nat) (n : number) : M unit :=
  update_surface cv (with_height n).

(** One call on [cv.getContext("2d")]. *)
Definition context (cv : nat) (c : context_call) : M unit :=
  update_surface cv (append_calls [c]).

Definition requestAnimationFrame (c : draw_call) : M unit :=
  fun p =>
    Ok tt {| document := document p; surfaces := surfaces p;
             animationFrames := animationFrames p ++ [c];
             loadOnce := loadOnce p; windowResize := windowResize p;
             resizeObserved := resizeObserved p |}.

Definition addLoadListenerOnce (img : nat) (c : draw_call) : M unit :=
  fun p =>
    Ok tt {| document := document p; surfaces := surfaces p;
             animationFrames := animationFrames p;
             loadOnce := loadOnce p ++ [(img, c)];
             windowResize := windowResize p;
             resizeObserved := resizeObserved p |}.

Definition addResizeListener (c : draw_call) : M unit :=
  fun p =>
    Ok tt {| document := document p; surfaces := surfaces p;
             animationFrames := animationFrames p; loadOnce := loadOnce p;
             windowResize := windowResize p ++ [c];
             resizeObserved := resizeObserved p |}.

Definition observeResize (img : nat) (c : draw_call) : M unit :=
  fun p =>
    Ok tt {| document := document p; surfaces := surfaces p;
             animationFrames := animationFrames p; loadOnce := loadOnce p;
             windowResize := windowResize p;
             resizeObserved := resizeObserved p ++ [(img, c)] |}.

(** [list.forEach((x, idx) => body)], starting at index [idx]. *)
Fixpoint forEach_from {A : Type} (idx : nat) (l : list A)
  (body : A -> nat -> M unit) : M unit :=
  match l with
  | [] => ret tt
  | x :: rest => body x idx ;; forEach_from (S idx) rest body
  end.

Definition forEach {A : Type} (l : list A) (body : A -> nat -> M unit)
  : M unit :=
  forEach_from 0 l body.

(* ================================================================== *)
(** * 6. The script                                                    *)
(* ================================================================== *)

(** ** 6.1 aioeParseInternalFromDom (lines 9-27) *)

(** The object [{ masks, active }]. *)
Record internal : Type := {
  i_masks : list value;
  i_active : number
}.

Definition array_or_null (v : value) : option (list value) :=
  match v with
  | VArr items => Some items
  | _ => None
  end.

(** The body of the [try]; [None] is [null]. *)
Definition parse_internal (root : nat) (t : node)
  : completion (option internal) :=
  match querySelector root sel_script t with
  | None => Normal None
  | Some el =>
      let txt := trim (or_str (textContent el) (lit "")) in
      match txt with
      | [] => Normal None
      | _ :: _ =>
          let* obj := JSON_parse txt in
          if negb (truthy obj) || negb (typeof_object obj) then Normal None
          else
            let* v := get_member obj "v" in
            let* vn := ToNumber v in
            if (ToInt32 vn <? 1)%Z then Normal None
            else
              let* ms := get_member obj "masks" in
              let masks := array_or_null ms in
              let* a := get_member obj "active" in
              let* an := ToNumber a in
              let active := if Number_isFinite an then an else zero in
              match masks with
              | None => Normal None
              | Some items =>
                  Normal (Some {| i_masks := items; i_active := active |})
              end
      end
  end.

Definition aioeParseInternalFromDom (root : nat) (t : node)
  : option internal :=
  match parse_internal root t with
  | Normal r => r
  | Abrupt _ => None
  end.

(** ** 6.2 ensureWrapper (lines 34-42) and makeCanvas (lines 44-51) *)

Definition ensureWrapper (img : nat) : M nat :=
  found <- dom_get (closest img sel_wrap) ;;
  match found with
  | Some wrap => ret wrap
  | None =>
      wrap <- dom_get (createElement "div") ;;
      let wrap := set_className "aioe-wrap" wrap in
      parent <- dom_get (parentNode img) ;;
      match parent with
      | None => throw TypeError
      | Some p =>
          dom_update (insertBefore p (Node wrap []) img) ;;
          dom_update (appendChild (nid wrap) img) ;;
          ret (nid wrap)
      end
  end.

Definition makeCanvas (wrap : nat) : M nat :=
  found <- dom_get (querySelector wrap sel_canvas) ;;
  match found with
  | Some cv => ret (nid cv)
  | None =>
      cv <- dom_get (createElement "canvas") ;;
      let cv := set_className "aioe-cv" cv in
      dom_update (appendChild_new wrap (Node cv [])) ;;
      ret (nid cv)
  end.

(** ** 6.3 draw (lines 53-98) *)

(** [idx === activeIndex] for an array index and a Number. *)
Definition is_active (idx : nat) (activeIndex : number) : bool :=
  PrimFloat.eqb (Z2F (Z.of_nat idx)) activeIndex.

(** Lines 79-82: the rectangle of a mask in CSS pixels. *)
Definition mask_box (m : value) (r : DOMRect)
  : completion (number * number * number * number) :=
  let* mx := get_member m "x" in
  let* nx := ToNumber mx in
  let x := (nx * rect_width r)%float in
  let* my := get_member m "y" in
  let* ny := ToNumber my in
  let y := (ny * rect_height r)%float in
  let* mw := get_member m "w" in
  let* nw := ToNumber mw in
  let w := (nw * rect_width r)%float in
  let* mh := get_member m "h" in
  let* nh := ToNumber mh in
  let h := (nh * rect_height r)%float in
  Normal (x, y, w, h).

(** Lines 78-97: the body of [masks.forEach]. *)
Definition paint_mask (side : jsstring) (activeIndex : number)
  (fillFront fillOther stroke : jsstring) (lw : number) (r : DOMRect)
  (cv : nat) (m : value) (idx : nat) : M unit :=
  box <- lift (mask_box m r) ;;
  let '(x, y, w, h) := box in
  (if jsstring_eqb side (lit "front") then
     context cv (SetFillStyle
                   (if is_active idx activeIndex then fillFront
                    else fillOther)) ;;
     context cv (FillRect x y w h)
   else
     if negb (is_active idx activeIndex) then
       context cv (SetFillStyle fillOther) ;;
       context cv (FillRect x y w h)
     else ret tt) ;;
  context cv (SetLineWidth lw) ;;
  context cv (SetStrokeStyle stroke) ;;
  context cv (StrokeRect (x + 0.5)%float (y + 0.5)%float w h).

(** The guard of line 58; an element always has a rectangle, so [!r] is
    false. *)
Definition too_small (r : DOMRect) : bool :=
  PrimFloat.ltb (rect_width r) 2 || PrimFloat.ltb (rect_height r) 2.

(** Lines 63-97: what [draw] does once the image has a box. *)
Definition size_and_paint (env : environment) (c : draw_call) (r : DOMRect)
  (cv : nat) : M unit :=
  let dpr := or_num (devicePixelRatio env) one in
  set_style_width cv (Px (rect_width r)) ;;
  set_style_height cv (Px (rect_height r)) ;;
  set_width cv (Math_max one (Math_round (rect_width r * dpr)%float)) ;;
  set_height cv (Math_max one (Math_round (rect_height r * dpr)%float)) ;;
  context cv (SetTransform dpr zero zero dpr zero zero) ;;
  context cv (ClearRect zero zero (rect_width r) (rect_height r)) ;;
  let stroke := or_str (stroke (dc_style c)) (lit "rgba(0,0,0,0.65)") in
  let fillFront :=
    or_str (fill_front (dc_style c)) (lit "rgba(40,40,40,0.85)") in
  let fillOther :=
    or_str (fill_other (dc_style c)) (lit "rgba(255,215,0,0.35)") in
  let lw := or_num (outline_px (dc_style c)) two in
  forEach (dc_masks c)
    (paint_mask (dc_side c) (dc_activeIndex c) fillFront fillOther stroke
       lw r cv).

Definition draw (env : environment) (c : draw_call) : M unit :=
  wrap <- ensureWrapper (dc_img c) ;;
  cv <- makeCanvas wrap ;;
  let r := getBoundingClientRect env (dc_img c) in
  if too_small r then requestAnimationFrame c
  else size_and_paint env c r cv.

(** ** 6.4 initOne (lines 100-140) and init (lines 142-145) *)

(** [root.getAttribute(name)]; [None] is [null]. *)
Definition root_attribute (root : nat) (name : string) (t : node)
  : option jsstring :=
  match locate root t with
  | Some (_, n) => getAttribute (node_elem n) name
  | None => None
  end.

(** [root.getAttribute(name) || fallback]. *)
Definition attribute_or (root : nat) (name : string) (fallback : string)
  (t : node) : jsstring :=
  match root_attribute root name t with
  | Some a => or_str a (lit fallback)
  | None => lit fallback
  end.

(** Lines 115-116: [parsed = parseMasksB64(masksB64)] and
    [Array.isArray(parsed.masks) ? parsed.masks : []]. *)
Definition legacy_masks (masksB64 : jsstring) : completion (list value) :=
  let* parsed := parseMasksB64 masksB64 in
  let* ms := get_member parsed "masks" in
  Normal (match array_or_null ms with
          | Some items => items
          | None => []
          end).

(** Lines 112-116: the legacy attributes. *)
Definition legacy_payload (root : nat) (t : node)
  : completion (number * list value) :=
  let activeIndex :=
    or_num (parseInt10 (attribute_or root "data-active" "0" t)) zero in
  let masksB64 := attribute_or root "data-masks-b64" "" t in
  let* masks := legacy_masks masksB64 in
  Normal (activeIndex, masks).

(** Lines 104-117: the structured payload when there is one, the legacy
    attributes otherwise. *)
Definition resolve_payload (root : nat) (t : node)
  : completion (number * list value) :=
  match aioeParseInternalFromDom root t with
  | Some i => Normal (Z2F (ToInt32 (i_active i)), i_masks i)
  | None => legacy_payload root t
  end.

(** Lines 119-124. *)
Definition resolve_style (root : nat) (t : node) : style :=
  {| fill_front := attribute_or root "data-fill-front" "" t;
     fill_other := attribute_or root "data-fill-other" "" t;
     stroke := attribute_or root "data-stroke" "" t;
     outline_px :=
       or_num (parseInt10 (attribute_or root "data-outline-px" "2" t)) two |}.

Definition initOne (env : environment) (root : nat) : M unit :=
  side <- dom_get (attribute_or root "data-side" "front") ;;
  payload <- (fun p => lift (resolve_payload root (document p)) p) ;;
  let '(activeIndex, masks) := payload in
  style <- dom_get (resolve_style root) ;;
  found <- dom_get (querySelector root sel_img) ;;
  match found with
  | None => ret tt
  | Some el =>
      let img := nid el in
      let rerender :=
        {| dc_side := side; dc_img := img; dc_masks := masks;
           dc_activeIndex := activeIndex; dc_style := style |} in
      (if complete env img then draw env rerender
       else addLoadListenerOnce img rerender) ;;
      addResizeListener rerender ;;
      (if hasResizeObserver env then observeResize img rerender
       else ret tt) ;;
      requestAnimationFrame rerender
  end.

Definition init (env : environment) : M unit :=
  roots <- dom_get (querySelectorAll sel_root) ;;
  forEach roots (fun root _ => initOne env root).

(** ** 6.5 The last lines (lines 147-152) and the event loop *)

(** What the script has registered when it returns: how many times [init]
    waits for DOMContentLoaded and how many times as a timer. *)
Record scheduled : Type := {
  onContentLoaded : nat;
  timeouts : nat
}.

(** Lines 147-152, [loading] being [document.readyState === "loading"].
    An exception of the immediate [init()] ends the script before the
    timer of line 152 is set. *)
Definition main (loading : bool) (env : environment) (p : page)
  : outcome scheduled :=
  if loading then Ok {| onContentLoaded := 1; timeouts := 1 |} p
  else
    match init env p with
    | Ok _ p1 => Ok {| onContentLoaded := 0; timeouts := 1 |} p1
    | Throw e p1 => Throw e p1
    end.

(** [init] run as a callback of the event loop: an exception is reported
    and goes no further. *)
Definition fire (env : environment) (p : page) : page :=
  page_of (init env p).

(** The page once the script has run and every callback it registered
    has fired.  Both callbacks are [init], so the order in which the event
    loop takes them does not matter: [now] is what the browser reports
    during the first run of [init] and [later] during the second. *)
Definition after_load (loading : bool) (now later : environment) (p : page)
  : page :=
  match main loading now p with
  | Ok s p1 =>
      Nat.iter (timeouts s) (fire later)
        (Nat.iter (onContentLoaded s) (fire now) p1)
  | Throw _ p1 => p1
  end.

(** One animation frame: the callbacks requested so far run in the order
    of their requests, and what they request waits for the next frame.
    An exception of a callback is reported and the next callback runs. *)
Definition run_frame (env : environment) (p : page) : page :=
  fold_left (fun q c => page_of (draw env c q)) (animationFrames p)
    {| document := document p; surfaces := surfaces p;
       animationFrames := []; loadOnce := loadOnce p;
       windowResize := windowResize p;
       resizeObserved := resizeObserved p |}.

(* ================================================================== *)
(** * 7. Definitions for the statements and the proofs                 *)
(* ================================================================== *)

Unset Implicit Arguments.

(** Induction over a tree, with the property known for every child. *)
Section NodeInduction.
Variable P : node -> Prop.
Hypothesis step : forall e ks, Forall P ks -> P (Node e ks).

Fixpoint node_induction (t : node) : P t :=
  match t with
  | Node e ks =>
      step e ks
        ((fix all (l : list node) : Forall P l :=
            match l with
            | [] => Forall_nil P
            | k :: l' => Forall_cons (P:=P) k (node_induction k) (all l')
            end) ks)
  end.
End NodeInduction.

(** A frame by its three parts. *)
Definition mk_frame (e : element) (before after : list node) : frame :=
  {| f_elem := e; f_before := before; f_after := after |}.

(** [i] does not occur on the way up before the hole: not on a parent, not
    under an earlier sibling. *)
Definition clear_of (i : nat) (ctx : list frame) : Prop :=
  Forall (fun f => nid (f_elem f) <> i
                   /\ Forall (fun k => locate i k = None) (f_before f)) ctx.

(** The elements around the hole, before it and after it in tree order. *)
Fixpoint elems_before (ctx : list frame) : list element :=
  match ctx with
  | [] => []
  | f :: up =>
      elems_before up ++ f_elem f :: flat_map flatten (f_before f)
  end.

Fixpoint elems_after (ctx : list frame) : list element :=
  match ctx with
  | [] => []
  | f :: up => flat_map flatten (f_after f) ++ elems_after up
  end.

(** The image is in the tree and has a parent. *)
Definition attached (img : nat) (t : node) : Prop :=
  exists parent, parentNode img t = Some parent.

(** How many elements of the document match a selector. *)
Definition count (s : selector) (t : node) : nat :=
  List.length (filter (matches s) (flatten t)).

(** The wrapper and the canvas the script creates in a document. *)
Definition new_wrap (t : node) : element :=
  set_className "aioe-wrap" (createElement "div" t).

Definition new_canvas (t : node) : element :=
  set_className "aioe-cv" (createElement "canvas" t).

(** The first element of a list on which [f] finds something. *)
Section FirstSome.
Variables A B : Type.
Variable f : A -> option B.

Fixpoint first_some (l : list A) : option B :=
  match l with
  | [] => None
  | x :: l' =>
      match f x with
      | Some b => Some b
      | None => first_some l'
      end
  end.
End FirstSome.

Arguments first_some {A B} f l.

(** The inclusive ancestors of the first element with identity [i],
    nearest first. *)
Fixpoint chain (i : nat) (t : node) : option (list element) :=
  match t with
  | Node e ks =>
      if Nat.eqb (nid e) i then Some [e]
      else
        match first_some (chain i) ks with
        | Some c => Some (c ++ [e])
        | None => None
        end
  end.

(** [grown leaf t t']: [t'] is [t] with [leaf] added as the last child of
    one of its nodes. *)
Inductive grown (leaf : node) : node -> node -> Prop :=
| grown_here e ks : grown leaf (Node e ks) (Node e (ks ++ [leaf]))
| grown_below e l k k' r :
    grown leaf k k' ->
    grown leaf (Node e (l ++ k :: r)) (Node e (l ++ k' :: r)).

(** An action that changes nothing but the document tree. *)
Definition only_document {A : Type} (m : M A) : Prop :=
  forall p, page_of (m p) = with_document p (document (page_of (m p))).

(** An action that changes nothing but the canvases. *)
Definition only_surfaces {A : Type} (m : M A) : Prop :=
  forall p, page_of (m p) = with_surfaces p (surfaces (page_of (m p))).

(** The image has a wrapper and the wrapper has a canvas. *)
Definition scaffolded (img : nat) (t : node) : Prop :=
  exists w cv,
    closest img sel_wrap t = Some w
    /\ querySelector w sel_canvas t = Some cv.

(** A run of draws, each with its own view of the layout. *)
Fixpoint draws (l : list (environment * draw_call)) (p : page) : page :=
  match l with
  | [] => p
  | (env, c) :: rest => draws rest (page_of (draw env c p))
  end.

(** An element without classes. *)
Definition plain (i : nat) (tag : string) (attrs : list (string * jsstring))
  (text : jsstring) : element :=
  {| nid := i; tagName := tag; classList := []; attributes := attrs;
     textContent := text |}.

Definition page_with (d : node) : page :=
  {| document := d; surfaces := []; animationFrames := []; loadOnce := [];
     windowResize := []; resizeObserved := [] |}.

(** A small page for the examples: the document, an overlay root and the
    image in it. *)
Definition one_root_page : page :=
  page_with
    (Node (plain 0 "#document" [] [])
       [Node (plain 1 "div" [("id"%string, lit "aioe-root")] [])
          [Node (plain 2 "img" [] []) []]]).

(** A run of context calls on one canvas. *)
Fixpoint contexts (cv : nat) (cs : list context_call) : M unit :=
  match cs with
  | [] => ret tt
  | c :: rest => context cv c ;; contexts cv rest
  end.

(** The colours and the line width [draw] resolves on lines 73-76. *)
Definition stroke_color (st : style) : jsstring :=
  or_str (stroke st) (lit "rgba(0,0,0,0.65)").
Definition active_fill_color (st : style) : jsstring :=
  or_str (fill_front st) (lit "rgba(40,40,40,0.85)").
Definition other_fill_color (st : style) : jsstring :=
  or_str (fill_other st) (lit "rgba(255,215,0,0.35)").
Definition line_width (st : style) : number :=
  or_num (outline_px st) two.

Definition box : Type := (number * number * number * number)%type.

(** The context calls of one run of the body of [masks.forEach] (lines
    84-96) on a mask whose box has been read, as the code decides them:
    the fill of lines 84-92, by [side === "front"] and
    [idx === activeIndex], and the outline of lines 94-96. *)
Definition painted_fill (c : draw_call) (idx : nat) (b : box)
  : list context_call :=
  let '(x, y, w, h) := b in
  if jsstring_eqb (dc_side c) (lit "front") then
    [SetFillStyle (if is_active idx (dc_activeIndex c)
                   then active_fill_color (dc_style c)
                   else other_fill_color (dc_style c));
     FillRect x y w h]
  else if is_active idx (dc_activeIndex c) then []
  else [SetFillStyle (other_fill_color (dc_style c)); FillRect x y w h].

Definition painted_outline (c : draw_call) (b : box) : list context_call :=
  let '(x, y, w, h) := b in
  [SetLineWidth (line_width (dc_style c));
   SetStrokeStyle (stroke_color (dc_style c));
   StrokeRect (x + 0.5)%float (y + 0.5)%float w h].

Fixpoint painted_calls (c : draw_call) (idx : nat) (boxes : list box)
  : list context_call :=
  match boxes with
  | [] => []
  | b :: rest =>
      painted_fill c idx b ++ painted_outline c b
      ++ painted_calls c (S idx) rest
  end.

(** The Number [a] is the whole number [z].  Zero has two Numbers, [0]
    and [-0]. *)
Definition is_whole (a : number) (z : Z) : Prop :=
  a = Z2F z \/ (z = 0%Z /\ a = (-0)%float).

(** The ordinal index [idx] of a mask equals the active index
    [activeIndex]. *)
Definition index_equals (idx : nat) (activeIndex : number) : Prop :=
  is_whole activeIndex (Z.of_nat idx).

(** What the specification asks for one mask, in its words, [active idx]
    telling whether the mask at ordinal index [idx] is the active one.  In
    front mode every mask is filled, with the active colour for the active
    one and the other colour otherwise; in any other mode every mask but
    the active one is filled with the other colour, and the active one
    gets no fill; in both modes every mask gets an outline with the
    configured colour and width, its origin moved by half a pixel. *)
Definition claimed_fill (side : jsstring) (active : nat -> bool) (st : style)
  (idx : nat) (b : box) : list context_call :=
  let '(x, y, w, h) := b in
  if jsstring_eqb side (lit "front") then
    [SetFillStyle (if active idx
                   then active_fill_color st
                   else other_fill_color st);
     FillRect x y w h]
  else if active idx then []
  else [SetFillStyle (other_fill_color st); FillRect x y w h].

Definition claimed_outline (st : style) (b : box) : list context_call :=
  let '(x, y, w, h) := b in
  [SetLineWidth (line_width st);
   SetStrokeStyle (stroke_color st);
   StrokeRect (x + 0.5)%float (y + 0.5)%float w h].

Fixpoint claimed_calls (side : jsstring) (active : nat -> bool) (st : style)
  (idx : nat) (boxes : list box) : list context_call :=
  match boxes with
  | [] => []
  | b :: rest =>
      claimed_fill side active st idx b ++ claimed_outline st b
      ++ claimed_calls side active st (S idx) rest
  end.

(** What the four assignments of lines 64-67 leave on the canvas. *)
Definition sized (env : environment) (r : DOMRect) (s : surface) : surface :=
  let dpr := or_num (devicePixelRatio env) one in
  {| style_width := Some (Px (rect_width r));
     style_height := Some (Px (rect_height r));
     width := Math_max one (Math_round (rect_width r * dpr)%float);
     height := Math_max one (Math_round (rect_height r * dpr)%float);
     calls := calls s |}.

Definition prologue (env : environment) (r : DOMRect) : list context_call :=
  let dpr := or_num (devicePixelRatio env) one in
  [SetTransform dpr zero zero dpr zero zero;
   ClearRect zero zero (rect_width r) (rect_height r)].

Definition sizing (s : surface)
  : option css_length * option css_length * number * number :=
  (style_width s, style_height s, width s, height s).

(** Lines 64-67 on their own. *)
Definition resize (env : environment) (r : DOMRect) (cv : nat) : M unit :=
  let dpr := or_num (devicePixelRatio env) one in
  set_style_width cv (Px (rect_width r)) ;;
  set_style_height cv (Px (rect_height r)) ;;
  set_width cv (Math_max one (Math_round (rect_width r * dpr)%float)) ;;
  set_height cv (Math_max one (Math_round (rect_height r * dpr)%float)).

(** A Mask of the data model, [{x, y, w, h}] with four Numbers, and its
    rectangle [(x*W, y*H, w*W, h*H)]. *)
Definition mask_value (x y w h : number) : value :=
  VObj [(lit "x", VNum x); (lit "y", VNum y);
        (lit "w", VNum w); (lit "h", VNum h)].

(** The sample layout of the specification: a 200 by 100 box at device
    pixel ratio 2, every image loaded; and a page not laid out yet. *)
Definition sample_env : environment :=
  {| getBoundingClientRect :=
       fun _ => {| rect_width := 200%float; rect_height := 100%float |};
     devicePixelRatio := 2%float;
     complete := fun _ => true;
     hasResizeObserver := true |}.

Definition unrendered_env : environment :=
  {| getBoundingClientRect :=
       fun _ => {| rect_width := 0%float; rect_height := 0%float |};
     devicePixelRatio := 2%float;
     complete := fun _ => true;
     hasResizeObserver := true |}.

Definition no_style : style :=
  {| fill_front := lit ""; fill_other := lit ""; stroke := lit "";
     outline_px := two |}.

(** Two masks on image 2, the first one active. *)
Definition sample_call (side : string) : draw_call :=
  {| dc_side := lit side; dc_img := 2;
     dc_masks := [mask_value 0.5 0.25 0.25 0.5; mask_value 0 0 0.5 0.5]%float;
     dc_activeIndex := zero; dc_style := no_style |}.

Definition sample_boxes : list box :=
  [(100, 25, 50, 50)%float; (0, 0, 100, 50)%float].

(** The same two masks with the second one active and every colour and
    the width configured. *)
Definition styled_call (side : string) : draw_call :=
  {| dc_side := lit side; dc_img := 2;
     dc_masks := [mask_value 0.5 0.25 0.25 0.5; mask_value 0 0 0.5 0.5]%float;
     dc_activeIndex := one;
     dc_style := {| fill_front := lit "red"; fill_other := lit "blue";
                    stroke := lit "black"; outline_px := 3%float |} |}.

(** JSON text written with apostrophes where the text has quotation
    marks. *)
Definition json_text (s : string) : jsstring :=
  map (fun c => if N.eqb c 39 then 34%N else c) (lit s).

(** The script element of a structured payload (identity 3). *)
Definition payload_script (payload : jsstring) : element :=
  {| nid := 3; tagName := "script"; classList := ["aioe-internal"%string];
     attributes := []; textContent := payload |}.

(** An overlay root (identity 1) holding a structured payload and an image
    (identity 2), with the given attributes. *)
Definition structured_page (attrs : list (string * jsstring))
  (payload : jsstring) : page :=
  page_with
    (Node (plain 0 "#document" [] [])
       [Node (plain 1 "div" (("id"%string, lit "aioe-root") :: attrs) [])
          [Node (payload_script payload) [];
           Node (plain 2 "img" [] []) []]]).

(** An overlay root (identity 1) with the given attributes and an image
    (identity 2). *)
Definition legacy_page (attrs : list (string * jsstring)) : page :=
  page_with
    (Node (plain 0 "#document" [] [])
       [Node (plain 1 "div" (("id"%string, lit "aioe-root") :: attrs) [])
          [Node (plain 2 "img" [] []) []]]).

(** [obj.k] on a value that is an object: never a throw. *)
Definition member (obj : value) (k : string) : value :=
  match get_member obj k with
  | Normal v => v
  | Abrupt _ => VUndefined
  end.

(** The claim as the specification states it: every payload that parses
    as an object with an integer-coerced version of at least 1 and an
    array of masks is accepted, with these masks. *)
Definition structured_claim : Prop :=
  forall root t el obj vn items,
    querySelector root sel_script t = Some el ->
    JSON_parse (trim (or_str (textContent el) (lit ""))) = Normal obj ->
    truthy obj = true -> typeof_object obj = true ->
    ToNumber (member obj "v") = Normal vn -> (1 <= ToInt32 vn)%Z ->
    member obj "masks" = VArr items ->
    exists active,
      aioeParseInternalFromDom root t
      = Some {| i_masks := items; i_active := active |}.

(** A payload whose [active] cannot be coerced: an object that carries an
    own [toString]. *)
Definition uncoercible_active_page : page :=
  structured_page []
    (json_text "{'v':1,'masks':[],'active':{'toString':0}}").

Definition accepted_text : jsstring :=
  json_text
    " {'v':1,'masks':[{'x':0.5,'y':0.25,'w':0.25,'h':0.5}],'active':'1'} ".

Definition accepted_page : page := structured_page [] accepted_text.

(** The base64 text of the JSON text of [{v:1, masks:[{x:0.5, y:0.25,
    w:0.25, h:0.5}]}] (lemma [one_mask_b64_text]). *)
Definition one_mask_b64 : jsstring :=
  lit "eyJ2IjoxLCJtYXNrcyI6W3sieCI6MC41LCJ5IjowLjI1LCJ3IjowLjI1LCJoIjowLjV9XX0=".

(** The version the decoder tests, [obj.v | 0]. *)
Definition version_below_one (obj : value) : Prop :=
  exists vn, ToNumber (member obj "v") = Normal vn /\ (ToInt32 vn < 1)%Z.

(** The claim on rejected payloads as the specification states it: the
    version is the Number the payload holds under [v], and a payload whose
    version is less than 1, or whose [masks] is missing or not an array,
    makes the decoder return [null] and the resolver take the legacy
    attributes. *)
Definition rejected_claim : Prop :=
  forall root t el obj,
    querySelector root sel_script t = Some el ->
    JSON_parse (trim (or_str (textContent el) (lit ""))) = Normal obj ->
    truthy obj = true -> typeof_object obj = true ->
    (exists vn, ToNumber (member obj "v") = Normal vn
                /\ PrimFloat.ltb vn one = true)
    \/ Array_isArray (member obj "masks") = false ->
    aioeParseInternalFromDom root t = None
    /\ resolve_payload root t = legacy_payload root t.

(** A version far below 1 that the 32-bit coercion wraps to 1: 1 - 2^32 in
    the structured payload, one mask and active index 1 in the legacy
    attributes. *)
Definition wrapped_version_text : jsstring :=
  json_text "{'v':-4294967295,'masks':[]}".

Definition wrapped_version_page : page :=
  structured_page
    [("data-active"%string, lit "1");
     ("data-masks-b64"%string,
      one_mask_b64)]
    wrapped_version_text.

(** Version 0 in the structured payload, one mask and active index 1 in
    the legacy attributes. *)
Definition stale_text : jsstring := json_text "{'v':0,'masks':[]}".

Definition stale_page : page :=
  structured_page
    [("data-active"%string, lit "1");
     ("data-masks-b64"%string,
      one_mask_b64)]
    stale_text.

(** The legacy attribute holds the base64 of the JSON text [null]. *)
Definition null_payload_page : page :=
  legacy_page [("data-masks-b64"%string, lit "bnVsbA==")].

(** The encoding the round-trip claim starts from, applied upstream of
    the script (which only decodes): the UTF-8 octets of a text, an
    unpaired surrogate giving U+FFFD. *)
Fixpoint utf8_encode (s : jsstring) : list N :=
  match s with
  | [] => []
  | c :: rest =>
      if N.ltb c 128 then c :: utf8_encode rest
      else if N.ltb c 2048 then
        (192 + c / 64)%N :: (128 + c mod 64)%N :: utf8_encode rest
      else
        let three (u : N) :=
          [(224 + u / 4096)%N; (128 + (u / 64) mod 64)%N;
           (128 + u mod 64)%N] in
        if N.leb 55296 c && N.leb c 56319 then
          match rest with
          | d :: rest' =>
              if N.leb 56320 d && N.leb d 57343 then
                let u := (65536 + (c - 55296) * 1024 + (d - 56320))%N in
                (240 + u / 262144)%N :: (128 + (u / 4096) mod 64)%N
                :: (128 + (u / 64) mod 64)%N :: (128 + u mod 64)%N
                :: utf8_encode rest'
              else three 65533%N ++ utf8_encode rest
          | [] => three 65533%N
          end
        else three c ++ utf8_encode rest
  end.

Definition b64_char (v : N) : N :=
  if N.ltb v 26 then (65 + v)%N
  else if N.ltb v 52 then (71 + v)%N
  else if N.ltb v 62 then (v - 4)%N
  else if N.eqb v 62 then 43%N
  else 47%N.

(** Base64 with padding (RFC 4648), the second step of that encoding. *)
Fixpoint base64_encode (bytes : list N) : jsstring :=
  match bytes with
  | a :: b :: c :: rest =>
      let n := (a * 65536 + b * 256 + c)%N in
      b64_char (n / 262144) :: b64_char ((n / 4096) mod 64)
      :: b64_char ((n / 64) mod 64) :: b64_char (n mod 64)
      :: base64_encode rest
  | [a; b] =>
      let n := ((a * 256 + b) * 4)%N in
      [b64_char (n / 4096); b64_char ((n / 64) mod 64); b64_char (n mod 64);
       61%N]
  | [a] =>
      let n := (a * 16)%N in
      [b64_char (n / 64); b64_char (n mod 64); 61%N; 61%N]
  | [] => []
  end.

(** The JSON text of [{v:1, masks:[{x:0.1,y:0.2,w:0.3,h:0.4}]}]. *)
Definition round_trip_text : jsstring :=
  json_text "{'v':1,'masks':[{'x':0.1,'y':0.2,'w':0.3,'h':0.4}]}".

Set Warnings "-inexact-float".

(** The mask [{x:0.1, y:0.2, w:0.3, h:0.4}], each literal the nearest
    Number. *)
Definition round_trip_mask : value :=
  (mask_value 0.1 0.2 0.3 0.4)%float.

(** One mask in the legacy attributes and an outline width of -3. *)
Definition negative_width_page : page :=
  legacy_page
    [("data-outline-px"%string, lit "-3");
     ("data-masks-b64"%string,
      one_mask_b64)].

(** Two overlay roots.  The first (identity 1, image 2) has the JSON text
    [null] in its legacy attribute; the second (identity 3, image 4) has
    one mask. *)
Definition two_root_page : page :=
  page_with
    (Node (plain 0 "#document" [] [])
       [Node (plain 1 "div"
                [("id"%string, lit "aioe-root");
                 ("data-masks-b64"%string, lit "bnVsbA==")] [])
          [Node (plain 2 "img" [] []) []];
        Node (plain 3 "div"
                [("id"%string, lit "aioe-root");
                 ("data-masks-b64"%string,
                  one_mask_b64)]
                [])
          [Node (plain 4 "img" [] []) []]]).

(** Three overlay roots: one whose legacy attribute is no base64 (identity
    1, image 2), one without an image (identity 3), one with one legacy
    mask (identity 4, image 5). *)
Definition absorbing_page : page :=
  page_with
    (Node (plain 0 "#document" [] [])
       [Node (plain 1 "div"
                [("id"%string, lit "aioe-root");
                 ("data-masks-b64"%string, lit "!!not base64!!")] [])
          [Node (plain 2 "img" [] []) []];
        Node (plain 3 "div" [("id"%string, lit "aioe-root")] []) [];
        Node (plain 4 "div"
                [("id"%string, lit "aioe-root");
                 ("data-masks-b64"%string,
                  one_mask_b64)]
                [])
          [Node (plain 5 "img" [] []) []]]).

(** Element identities are unique, as object identities are. *)
Definition well_formed (t : node) : Prop := NoDup (map nid (flatten t)).

(** [initOne] on each root of a list, in order. *)
Definition init_roots (env : environment) (roots : list nat) : M unit :=
  forEach roots (fun root _ => initOne env root).

(** An overlay root with a structured payload whose only mask is [null],
    followed by a root with one legacy mask. *)
Definition null_mask_page : page :=
  page_with
    (Node (plain 0 "#document" [] [])
       [Node (plain 1 "div" [("id"%string, lit "aioe-root")] [])
          [Node (payload_script (json_text "{'v':1,'masks':[null]}")) [];
           Node (plain 2 "img" [] []) []];
        Node (plain 4 "div"
                [("id"%string, lit "aioe-root");
                 ("data-masks-b64"%string,
                  one_mask_b64)]
                [])
          [Node (plain 5 "img" [] []) []]]).

(** No scalar token and no finished value is [undefined]. *)
Definition token_defined (t : token) : Prop :=
  match t with
  | TScalar v => v <> VUndefined
  | _ => True
  end.

Definition expect_defined (st : pstate) : Prop :=
  match fst st with
  | EEnd v => v <> VUndefined
  | _ => True
  end.

(** The attribute is absent or empty, the two cases that
    [root.getAttribute(name) || fallback] does not tell apart. *)
Definition unset (root : nat) (name : string) (t : node) : Prop :=
  root_attribute root name t = None \/ root_attribute root name t = Some [].

(** ** Insertions

    [inserted x t t']: [t'] is [t] with the element [x] put in, as a new
    last child without children or around one child of a node.  These are
    the two ways the script adds an element. *)
Inductive inserted (x : element) : node -> node -> Prop :=
| inserted_last e ks :
    inserted x (Node e ks) (Node e (ks ++ [Node x []]))
| inserted_around e l n r :
    inserted x (Node e (l ++ n :: r)) (Node e (l ++ Node x [n] :: r))
| inserted_below e l k k' r :
    inserted x k k' ->
    inserted x (Node e (l ++ k :: r)) (Node e (l ++ k' :: r)).

(** [b] is [a], or [a] with [x] put in somewhere. *)
Definition with_one (x : element) (a b : list element) : Prop :=
  b = a \/ exists l r, a = l ++ r /\ b = l ++ x :: r.

(** Two optional results that are both absent or both present and
    related. *)
Definition lifted {A : Type} (R : A -> A -> Prop) (a b : option A) : Prop :=
  match a, b with
  | Some x, Some y => R x y
  | None, None => True
  | _, _ => False
  end.

(** The first element with identity [i] and its descendants in tree
    order. *)
Fixpoint view (i : nat) (t : node) : option (element * list element) :=
  match t with
  | Node e ks =>
      if Nat.eqb (nid e) i then Some (e, flat_map flatten ks)
      else first_some (view i) ks
  end.

(** What the script creates: a [div] or a [canvas] without attributes. *)
Definition scaffolding_element (x : element) : Prop :=
  attributes x = []
  /\ (tagName x = "div"%string \/ tagName x = "canvas"%string).

(** [t'] is [t] after any number of insertions of new scaffolding
    elements. *)
Inductive scaffolds_to : node -> node -> Prop :=
| scaffolds_refl t : scaffolds_to t t
| scaffolds_step t t1 t2 x :
    scaffolding_element x ->
    ~ In (nid x) (map nid (flatten t)) ->
    inserted x t t1 ->
    scaffolds_to t1 t2 ->
    scaffolds_to t t2.

(** A selector no scaffolding element matches: it asks for another tag or
    for an [id]. *)
Definition skips_scaffolding (s : selector) : Prop :=
  forall x, scaffolding_element x -> matches s x = false.

(** An action that leaves every canvas but [cv] as it was. *)
Definition spares_others {A : Type} (cv : nat) (m : M A) : Prop :=
  forall p other,
    other <> cv -> get_surface other (page_of (m p)) = get_surface other p.

(** [enclosed P x t t']: [t'] is [t] with [x] put around a node none of
    whose proper ancestors satisfies [P]. *)
Inductive enclosed (P : element -> bool) (x : element)
  : node -> node -> Prop :=
| enclosed_here e l n r :
    P e = false ->
    enclosed P x (Node e (l ++ n :: r)) (Node e (l ++ Node x [n] :: r))
| enclosed_below e l k k' r :
    P e = false ->
    enclosed P x k k' ->
    enclosed P x (Node e (l ++ k :: r)) (Node e (l ++ k' :: r)).

(** ** Closures and readiness *)

(** The closure [rerender] that [initOne] builds for a root whose payload
    resolves and that holds an image. *)
Definition rerender_of (root : nat) (t : node) : option draw_call :=
  match resolve_payload root t, querySelector root sel_img t with
  | Normal (activeIndex, masks), Some el =>
      Some {| dc_side := attribute_or root "data-side" "front" t;
              dc_img := nid el; dc_masks := masks;
              dc_activeIndex := activeIndex;
              dc_style := resolve_style root t |}
  | _, _ => None
  end.

Definition rerenders (roots : list nat) (t : node) : list draw_call :=
  flat_map (fun root => match rerender_of root t with
                        | Some c => [c]
                        | None => []
                        end) roots.

(** Every mask of the call can be read, should the image have a box. *)
Definition draws_cleanly (env : environment) (c : draw_call) : Prop :=
  too_small (getBoundingClientRect env (dc_img c)) = false ->
  Forall (fun m => exists b,
            mask_box m (getBoundingClientRect env (dc_img c)) = Normal b)
    (dc_masks c).

(** The payload of the root resolves and, if its image has loaded, the
    immediate draw can read its masks. *)
Definition root_ready (env : environment) (t : node) (root : nat) : Prop :=
  (exists x, resolve_payload root t = Normal x)
  /\ forall c, rerender_of root t = Some c ->
               complete env (dc_img c) = true -> draws_cleanly env c.

(** What one [initOne] adds to the three listener lists and to the
    animation frame queue. *)
Definition load_of (env : environment) (c : draw_call)
  : list (nat * draw_call) :=
  if complete env (dc_img c) then [] else [(dc_img c, c)].

Definition observed_of (env : environment) (c : draw_call)
  : list (nat * draw_call) :=
  if hasResizeObserver env then [(dc_img c, c)] else [].

Definition frames_of (env : environment) (c : draw_call) : list draw_call :=
  (if complete env (dc_img c)
      && too_small (getBoundingClientRect env (dc_img c))
   then [c] else []) ++ [c].

(** The calls for one mask that is not the active one, the same on both
    sides: a fill with the other colour and the outline. *)
Definition inactive_calls (c : draw_call) (b : box) : list context_call :=
  let '(x, y, w, h) := b in
  [SetFillStyle (other_fill_color (dc_style c)); FillRect x y w h;
   SetLineWidth (line_width (dc_style c));
   SetStrokeStyle (stroke_color (dc_style c));
   StrokeRect (x + 0.5)%float (y + 0.5)%float w h].

(** An action that throws nothing but TypeErrors and RangeErrors. *)
Definition type_or_range_errors_only {A : Type} (m : M A) : Prop :=
  forall p e p', m p = Throw e p' -> e = TypeError \/ e = RangeError.

(** ** The encoding upstream, piece by piece *)

(** The six-bit groups of the base64 of a byte sequence, and the padding
    that follows them. *)
Fixpoint sextets (bytes : list N) : list N :=
  match bytes with
  | a :: b :: c :: rest =>
      let n := (a * 65536 + b * 256 + c)%N in
      (n / 262144)%N :: ((n / 4096) mod 64)%N :: ((n / 64) mod 64)%N
      :: (n mod 64)%N :: sextets rest
  | [a; b] =>
      let n := ((a * 256 + b) * 4)%N in
      [(n / 4096)%N; ((n / 64) mod 64)%N; (n mod 64)%N]
  | [a] =>
      let n := (a * 16)%N in
      [(n / 64)%N; (n mod 64)%N]
  | [] => []
  end.

Fixpoint padding (bytes : list N) : jsstring :=
  match bytes with
  | _ :: _ :: _ :: rest => padding rest
  | [_; _] => [61%N]
  | [_] => [61%N; 61%N]
  | [] => []
  end.

(** A text without an unpaired surrogate, every unit below 2^16. *)
Fixpoint well_formed_utf16 (s : jsstring) : bool :=
  match s with
  | [] => true
  | c :: rest =>
      if N.ltb c 55296 || (N.ltb 57343 c && N.ltb c 65536)
      then well_formed_utf16 rest
      else if N.leb c 56319 then
        match rest with
        | d :: rest' =>
            N.leb 56320 d && N.leb d 57343 && well_formed_utf16 rest'
        | [] => false
        end
      else false
  end.

(** What [escape] followed by the first pass of [decodeURIComponent]
    makes of one octet. *)
Definition escaped_item (b : N) : uri_item :=
  if escape_unreserved b then Plain b else Octet b.

(* ================================================================== *)
(** * 8. Facts about the document tree                                 *)
(* ================================================================== *)

Lemma plug_app (c1 c2 : list frame) (n : node) :
  plug (c1 ++ c2) n = plug c2 (plug c1 n).
Proof. unfold plug. apply fold_left_app. Qed.

Lemma scan_found visit e before l k r c n :
  Forall (fun x => visit x = None) l ->
  visit k = Some (c, n) ->
  scan visit e before (l ++ k :: r)
  = Some (c ++ [mk_frame e (before ++ l) r], n).
Proof.
  intros Hl Hk. revert before.
  induction Hl as [|x l Hx Hl IH]; intros before; simpl.
  - rewrite Hk, app_nil_r. reflexivity.
  - rewrite Hx, IH, <- app_assoc. reflexivity.
Qed.

Lemma scan_inv visit e before after ctx n :
  scan visit e before after = Some (ctx, n) ->
  exists l k r c,
    after = l ++ k :: r
    /\ Forall (fun x => visit x = None) l
    /\ visit k = Some (c, n)
    /\ ctx = c ++ [mk_frame e (before ++ l) r].
Proof.
  revert before. induction after as [|x after IH]; intros before H; simpl in H.
  - discriminate.
  - destruct (visit x) as [[c m]|] eqn:Hx.
    + inversion H; subst. exists [], x, after, c.
      rewrite app_nil_r. auto.
    + destruct (IH _ H) as (l & k & r & c & -> & Hl & Hk & ->).
      exists (x :: l), k, r, c. rewrite <- app_assoc. simpl. auto.
Qed.

Lemma scan_none visit e before after :
  Forall (fun x => visit x = None) after ->
  scan visit e before after = None.
Proof.
  intros H. revert before.
  induction H as [|x l Hx Hl IH]; intros before; simpl.
  - reflexivity.
  - rewrite Hx. apply IH.
Qed.

Lemma locate_here (i : nat) (n : node) :
  nid (node_elem n) = i -> locate i n = Some ([], n).
Proof.
  destruct n as [e ks]; simpl; intros <-. now rewrite Nat.eqb_refl.
Qed.

(** What [locate] returns is a decomposition of the tree, at a node with
    the wanted identity, with no earlier occurrence. *)
Lemma locate_sound (i : nat) (t : node) :
  forall ctx n,
    locate i t = Some (ctx, n) ->
    plug ctx n = t /\ nid (node_elem n) = i /\ clear_of i ctx.
Proof.
  induction t as [e ks IH] using node_induction; intros ctx n H.
  simpl in H. destruct (Nat.eqb (nid e) i) eqn:He.
  - inversion H; subst. apply Nat.eqb_eq in He.
    repeat split; [exact He | constructor].
  - apply scan_inv in H. destruct H as (l & k & r & c & -> & Hl & Hk & ->).
    simpl in *. apply Forall_app in IH. destruct IH as [_ IHk].
    inversion IHk as [|? ? IHk' _]; subst.
    destruct (IHk' _ _ Hk) as (Hp & Hi & Hc).
    rewrite plug_app. simpl. unfold fill; simpl. rewrite Hp.
    repeat split; try assumption.
    apply Forall_app. split; [exact Hc|].
    constructor; [|constructor]. simpl. split.
    + now apply Nat.eqb_neq.
    + exact Hl.
Qed.

(** Conversely, what is found inside a node is found through any way up
    that is clear of the identity. *)
Lemma locate_into (i : nat) (ctx : list frame) :
  forall n c m,
    clear_of i ctx ->
    locate i n = Some (c, m) ->
    locate i (plug ctx n) = Some (c ++ ctx, m).
Proof.
  induction ctx as [|f ctx IH]; intros n c m Hclear Hn.
  - simpl. now rewrite app_nil_r.
  - inversion Hclear as [|? ? [Hf Hbefore] Hrest]; subst.
    change (plug (f :: ctx) n) with (plug ctx (fill f n)).
    replace (c ++ f :: ctx) with ((c ++ [f]) ++ ctx)
      by (rewrite <- app_assoc; reflexivity).
    apply IH; [exact Hrest|].
    unfold fill. simpl.
    apply Nat.eqb_neq in Hf. rewrite Hf.
    rewrite (scan_found (locate i) (f_elem f) [] _ _ (f_after f) _ _ Hbefore Hn).
    destruct f; reflexivity.
Qed.

Lemma flatten_plug (ctx : list frame) :
  forall n,
    flatten (plug ctx n) = elems_before ctx ++ flatten n ++ elems_after ctx.
Proof.
  induction ctx as [|f ctx IH]; intros n.
  - simpl. now rewrite app_nil_r.
  - change (plug (f :: ctx) n) with (plug ctx (fill f n)).
    rewrite IH. unfold fill. simpl.
    rewrite flat_map_app. simpl.
    repeat rewrite <- app_assoc. simpl.
    repeat rewrite <- app_assoc. reflexivity.
Qed.

Lemma locate_absent (i : nat) (t : node) :
  ~ In i (map nid (flatten t)) -> locate i t = None.
Proof.
  induction t as [e ks IH] using node_induction; intros Hin.
  simpl in *. destruct (Nat.eqb (nid e) i) eqn:He.
  - apply Nat.eqb_eq in He. tauto.
  - apply scan_none.
    assert (Hks : ~ In i (map nid (flat_map flatten ks))) by tauto.
    clear Hin He. induction ks as [|k ks IHks]; constructor.
    + inversion IH; subst. apply H1. intros Hk. apply Hks.
      simpl. rewrite map_app. apply in_or_app. now left.
    + inversion IH; subst. apply IHks; [assumption|].
      intros Hk. apply Hks. simpl. rewrite map_app.
      apply in_or_app. now right.
Qed.

Lemma locate_present (i : nat) (t : node) :
  In i (map nid (flatten t)) -> locate i t <> None.
Proof.
  induction t as [e ks IH] using node_induction; intros Hin.
  simpl in *. destruct (Nat.eqb (nid e) i) eqn:He; [discriminate|].
  apply Nat.eqb_neq in He.
  destruct Hin as [Hin|Hin]; [contradiction|].
  generalize (@nil node) as before.
  induction ks as [|k ks IHks]; intros before; simpl in *.
  - contradiction.
  - inversion IH as [|? ? IHk IHrest]; subst.
    destruct (locate i k) as [[c m]|] eqn:Hk; [discriminate|].
    rewrite map_app in Hin. apply in_app_or in Hin.
    destruct Hin as [Hin|Hin].
    + exfalso. now apply IHk.
    + now apply IHks.
Qed.

Lemma fresh_id_absent (t : node) : ~ In (fresh_id t) (map nid (flatten t)).
Proof.
  unfold fresh_id. intros Hin.
  assert (H := list_max_le (map nid (flatten t))
                 (list_max (map nid (flatten t)))).
  destruct H as [H _]. specialize (H (Nat.le_refl _)).
  rewrite Forall_forall in H. apply H in Hin. lia.
Qed.

(** An identity absent from the tree is absent from every way up. *)
Lemma absent_clear (i : nat) (ctx : list frame) (n : node) :
  ~ In i (map nid (flatten (plug ctx n))) -> clear_of i ctx.
Proof.
  rewrite flatten_plug. intros Hin.
  assert (Hb : ~ In i (map nid (elems_before ctx))).
  { intros H. apply Hin. rewrite map_app. apply in_or_app. now left. }
  clear Hin. induction ctx as [|f ctx IH]; constructor.
  - simpl in Hb. rewrite map_app in Hb. simpl in Hb. split.
    + intros Hf. apply Hb. apply in_or_app. right. now left.
    + apply Forall_forall. intros k Hk. apply locate_absent.
      intros Hi. apply Hb. apply in_or_app. right. right.
      rewrite in_map_iff in *. destruct Hi as (x & Hx & Hxin).
      exists x. split; [assumption|]. apply in_flat_map. now exists k.
  - apply IH. intros H. apply Hb. simpl. rewrite map_app.
    apply in_or_app. now left.
Qed.

Lemma absent_inside (i : nat) (ctx : list frame) (n : node) :
  ~ In i (map nid (flatten (plug ctx n))) -> ~ In i (map nid (flatten n)).
Proof.
  rewrite flatten_plug. intros Hin H. apply Hin.
  rewrite !map_app. apply in_or_app. right. apply in_or_app. now left.
Qed.

(* ================================================================== *)
(** * 9. Scaffolding: ensureWrapper and makeCanvas                     *)
(* ================================================================== *)

Lemma plug_cons (f : frame) (ctx : list frame) (n : node) :
  plug (f :: ctx) n = plug ctx (fill f n).
Proof. reflexivity. Qed.

Arguments plug : simpl never.

Lemma attached_locate img t :
  attached img t <-> exists f up n, locate img t = Some (f :: up, n).
Proof.
  unfold attached, parentNode. split.
  - intros [p H]. destruct (locate img t) as [[[|f up] n]|]; try discriminate.
    now exists f, up, n.
  - intros (f & up & n & ->). now eexists.
Qed.

Lemma count_plug s ctx n :
  count s (plug ctx n)
  = List.length (filter (matches s) (elems_before ctx))
    + count s n
    + List.length (filter (matches s) (elems_after ctx)).
Proof.
  unfold count. rewrite flatten_plug, !filter_app, !length_app. lia.
Qed.

(** Moving the image under the wrapper that was just put before it. *)
Lemma wrap_in_place img t f up n w :
  locate img t = Some (f :: up, n) ->
  nid w = fresh_id t ->
  insertBefore (nid (f_elem f)) (Node w []) img t
  = Some (plug (mk_frame (f_elem f) (f_before f ++ [Node w []]) (f_after f)
                :: up) n)
  /\ appendChild (nid w) img
       (plug (mk_frame (f_elem f) (f_before f ++ [Node w []]) (f_after f)
              :: up) n)
     = Some (plug (f :: up) (Node w [n])).
Proof.
  intros Hloc Hw.
  destruct (locate_sound _ _ _ _ Hloc) as (Hplug & Hid & Hclear).
  assert (Hfresh : ~ In (nid w) (map nid (flatten (plug (f :: up) n)))).
  { rewrite Hplug, Hw. apply fresh_id_absent. }
  assert (Hneq : Nat.eqb (nid w) img = false).
  { apply Nat.eqb_neq. intros E. rewrite Hplug in Hfresh.
    apply locate_absent in Hfresh. rewrite E in Hfresh. congruence. }
  split.
  - unfold insertBefore. rewrite Hloc, Nat.eqb_refl. reflexivity.
  - unfold appendChild, detach.
    assert (Hclear' : clear_of img
              (mk_frame (f_elem f) (f_before f ++ [Node w []]) (f_after f)
               :: up)).
    { inversion Hclear as [|? ? [Hf Hb] Hup]; subst. constructor; [|exact Hup].
      simpl. split; [exact Hf|]. apply Forall_app. split; [exact Hb|].
      constructor; [|constructor]. simpl. now rewrite Hneq. }
    rewrite (locate_into _ _ n _ _ Hclear' (locate_here _ n Hid)). simpl.
    unfold appendChild_new.
    replace (plug up (Node (f_elem f)
                        ((f_before f ++ [Node w []]) ++ f_after f)))
      with (plug (f :: up) (Node w [])).
    2:{ rewrite plug_cons. unfold fill. simpl. now rewrite <- app_assoc. }
    rewrite (locate_into _ _ (Node w []) _ _ (absent_clear _ _ _ Hfresh)
               (locate_here _ (Node w []) eq_refl)).
    reflexivity.
Qed.

Lemma closest_after_wrap img t f up n w :
  locate img t = Some (f :: up, n) ->
  nid w = fresh_id t ->
  closest img sel_wrap t = None ->
  matches sel_wrap w = true ->
  closest img sel_wrap (plug (f :: up) (Node w [n])) = Some (nid w).
Proof.
  intros Hloc Hw Hnone Hmatch.
  destruct (locate_sound _ _ _ _ Hloc) as (Hplug & Hid & Hclear).
  assert (Hneq : Nat.eqb (nid w) img = false).
  { apply Nat.eqb_neq. intros E.
    assert (H := fresh_id_absent t). rewrite <- Hw, E in H.
    apply locate_absent in H. congruence. }
  assert (Hin : locate img (Node w [n]) = Some ([mk_frame w [] []], n)).
  { simpl. rewrite Hneq. now rewrite (locate_here _ n Hid). }
  unfold closest in *. rewrite (locate_into _ _ _ _ _ Hclear Hin).
  rewrite Hloc in Hnone. simpl in *.
  destruct (matches sel_wrap (node_elem n)); [discriminate|].
  now rewrite Hmatch.
Qed.

(** The first call on an image without a wrapper creates one around it. *)
Lemma ensureWrapper_creates img p f up n :
  locate img (document p) = Some (f :: up, n) ->
  closest img sel_wrap (document p) = None ->
  ensureWrapper img p
  = Ok (nid (new_wrap (document p)))
       (with_document p (plug (f :: up) (Node (new_wrap (document p)) [n]))).
Proof.
  intros Hloc Hnone.
  destruct (wrap_in_place img (document p) f up n (new_wrap (document p))
              Hloc eq_refl) as [Hins Happ].
  unfold ensureWrapper, bind, dom_get, dom_update.
  rewrite Hnone. unfold parentNode. rewrite Hloc.
  fold (new_wrap (document p)). rewrite Hins. simpl document.
  rewrite Happ. reflexivity.
Qed.

(** A call that finds a wrapper changes nothing. *)
Lemma ensureWrapper_finds img p w :
  closest img sel_wrap (document p) = Some w ->
  ensureWrapper img p = Ok w p.
Proof.
  intros H. unfold ensureWrapper, bind, dom_get. now rewrite H.
Qed.

Lemma with_document_same p : with_document p (document p) = p.
Proof. now destruct p. Qed.

(** Every returning call leaves the image with a wrapper that the next
    call finds. *)
Lemma ensureWrapper_result img p w p1 :
  ensureWrapper img p = Ok w p1 ->
  closest img sel_wrap (document p1) = Some w.
Proof.
  intros H.
  destruct (closest img sel_wrap (document p)) as [w0|] eqn:Hc.
  - rewrite (ensureWrapper_finds _ _ _ Hc) in H. inversion H; subst. exact Hc.
  - destruct (locate img (document p)) as [[[|f up] n]|] eqn:Hloc.
    + unfold ensureWrapper, bind, dom_get, parentNode in H.
      rewrite Hc, Hloc in H. discriminate.
    + rewrite (ensureWrapper_creates _ _ _ _ _ Hloc Hc) in H.
      inversion H; subst. simpl document.
      now apply (closest_after_wrap img (document p)).
    + unfold ensureWrapper, bind, dom_get, parentNode in H.
      rewrite Hc, Hloc in H. discriminate.
Qed.

Lemma ensureWrapper_attached img p :
  attached img (document p) ->
  exists w p1, ensureWrapper img p = Ok w p1.
Proof.
  intros H. apply attached_locate in H. destruct H as (f & up & n & Hloc).
  destruct (closest img sel_wrap (document p)) as [w0|] eqn:Hc.
  - exists w0, p. now apply ensureWrapper_finds.
  - eexists. eexists. apply (ensureWrapper_creates _ _ _ _ _ Hloc Hc).
Qed.

(** A wrapper created by the script adds one element, of class
    [aioe-wrap], and nothing else. *)
Lemma ensureWrapper_count img p w p1 s :
  ensureWrapper img p = Ok w p1 ->
  count s (document p1)
  = count s (document p)
    + match closest img sel_wrap (document p) with
      | Some _ => 0
      | None => if matches s (new_wrap (document p)) then 1 else 0
      end.
Proof.
  intros H.
  destruct (closest img sel_wrap (document p)) as [w0|] eqn:Hc.
  - rewrite (ensureWrapper_finds _ _ _ Hc) in H. inversion H; subst. lia.
  - destruct (locate img (document p)) as [[[|f up] n]|] eqn:Hloc.
    + unfold ensureWrapper, bind, dom_get, parentNode in H.
      rewrite Hc, Hloc in H. discriminate.
    + rewrite (ensureWrapper_creates _ _ _ _ _ Hloc Hc) in H.
      inversion H; subst. simpl document.
      destruct (locate_sound _ _ _ _ Hloc) as (Hplug & _ & _).
      rewrite <- Hplug at 2. rewrite !count_plug.
      unfold count at 1. simpl flatten. rewrite app_nil_r.
      simpl filter. unfold count.
      destruct (matches s (new_wrap (document p))); simpl; lia.
    + unfold ensureWrapper, bind, dom_get, parentNode in H.
      rewrite Hc, Hloc in H. discriminate.
Qed.

Lemma makeCanvas_finds wrap p cv :
  querySelector wrap sel_canvas (document p) = Some cv ->
  makeCanvas wrap p = Ok (nid cv) p.
Proof.
  intros H. unfold makeCanvas, bind, dom_get. now rewrite H.
Qed.

(** The first call on a wrapper without a canvas appends one. *)
Lemma makeCanvas_creates wrap p ctx e ks :
  locate wrap (document p) = Some (ctx, Node e ks) ->
  querySelector wrap sel_canvas (document p) = None ->
  makeCanvas wrap p
  = Ok (nid (new_canvas (document p)))
       (with_document p
          (plug ctx (Node e (ks ++ [Node (new_canvas (document p)) []])))).
Proof.
  intros Hloc Hnone.
  unfold makeCanvas, bind, dom_get, dom_update. rewrite Hnone.
  fold (new_canvas (document p)).
  unfold appendChild_new. rewrite Hloc. reflexivity.
Qed.

Lemma querySelector_after_append wrap t ctx e ks s cv :
  locate wrap t = Some (ctx, Node e ks) ->
  querySelector wrap s t = None ->
  matches s cv = true ->
  querySelector wrap s (plug ctx (Node e (ks ++ [Node cv []]))) = Some cv.
Proof.
  intros Hloc Hnone Hm.
  destruct (locate_sound _ _ _ _ Hloc) as (_ & Hid & Hclear).
  unfold querySelector in *. rewrite Hloc in Hnone.
  rewrite (locate_into _ _ (Node e (ks ++ [Node cv []])) _ _ Hclear
             (locate_here wrap (Node e (ks ++ [Node cv []])) Hid)).
  unfold descendants in *. simpl in *.
  rewrite flat_map_app. simpl.
  induction (flat_map flatten ks) as [|x l IH]; simpl in *.
  - now rewrite Hm.
  - destruct (matches s x); [discriminate|]. now apply IH.
Qed.

Lemma makeCanvas_result wrap p c p1 :
  makeCanvas wrap p = Ok c p1 ->
  exists cv,
    querySelector wrap sel_canvas (document p1) = Some cv /\ nid cv = c.
Proof.
  intros H.
  destruct (querySelector wrap sel_canvas (document p)) as [cv|] eqn:Hq.
  - rewrite (makeCanvas_finds _ _ _ Hq) in H. inversion H; subst.
    now exists cv.
  - destruct (locate wrap (document p)) as [[ctx [e ks]]|] eqn:Hloc.
    + rewrite (makeCanvas_creates _ _ _ _ _ Hloc Hq) in H.
      inversion H; subst. exists (new_canvas (document p)). split; [|reflexivity].
      simpl document. now apply (querySelector_after_append wrap (document p)).
    + unfold makeCanvas, bind, dom_get, dom_update, appendChild_new in H.
      rewrite Hq, Hloc in H. discriminate.
Qed.

Lemma makeCanvas_present wrap p :
  locate wrap (document p) <> None ->
  exists c p1, makeCanvas wrap p = Ok c p1.
Proof.
  intros H.
  destruct (querySelector wrap sel_canvas (document p)) as [cv|] eqn:Hq.
  - exists (nid cv), p. now apply makeCanvas_finds.
  - destruct (locate wrap (document p)) as [[ctx [e ks]]|] eqn:Hloc;
      [|contradiction].
    eexists. eexists. apply (makeCanvas_creates _ _ _ _ _ Hloc Hq).
Qed.

Lemma makeCanvas_count wrap p c p1 s :
  makeCanvas wrap p = Ok c p1 ->
  count s (document p1)
  = count s (document p)
    + match querySelector wrap sel_canvas (document p) with
      | Some _ => 0
      | None => if matches s (new_canvas (document p)) then 1 else 0
      end.
Proof.
  intros H.
  destruct (querySelector wrap sel_canvas (document p)) as [cv|] eqn:Hq.
  - rewrite (makeCanvas_finds _ _ _ Hq) in H. inversion H; subst. lia.
  - destruct (locate wrap (document p)) as [[ctx [e ks]]|] eqn:Hloc.
    + rewrite (makeCanvas_creates _ _ _ _ _ Hloc Hq) in H.
      inversion H; subst. simpl document.
      destruct (locate_sound _ _ _ _ Hloc) as (Hplug & _ & _).
      rewrite <- Hplug at 2. rewrite !count_plug.
      unfold count. simpl flatten. rewrite flat_map_app. simpl flat_map.
      simpl filter. rewrite !filter_app. simpl filter.
      destruct (matches s e), (matches s (new_canvas (document p)));
        simpl; rewrite !length_app; simpl; lia.
    + unfold makeCanvas, bind, dom_get, dom_update, appendChild_new in H.
      rewrite Hq, Hloc in H. discriminate.
Qed.

(** ** The way up from an element, and why a new last child leaves it
       alone *)

Lemma first_some_app {A B : Type} (f : A -> option B) (l1 l2 : list A) :
  first_some f (l1 ++ l2)
  = match first_some f l1 with
    | Some b => Some b
    | None => first_some f l2
    end.
Proof.
  induction l1 as [|x l1 IH]; simpl; [reflexivity|].
  destruct (f x); [reflexivity|exact IH].
Qed.

Lemma scan_chain i e before after :
  Forall (fun k =>
            option_map (fun r => node_elem (snd r) :: map f_elem (fst r))
              (locate i k) = chain i k) after ->
  option_map (fun r => node_elem (snd r) :: map f_elem (fst r))
    (scan (locate i) e before after)
  = match first_some (chain i) after with
    | Some c => Some (c ++ [e])
    | None => None
    end.
Proof.
  intros H. revert before.
  induction H as [|k l Hk Hl IH]; intros before; simpl; [reflexivity|].
  rewrite <- Hk. destruct (locate i k) as [[c m]|]; simpl.
  - rewrite map_app. reflexivity.
  - apply IH.
Qed.

Lemma locate_chain i t :
  option_map (fun r => node_elem (snd r) :: map f_elem (fst r)) (locate i t)
  = chain i t.
Proof.
  induction t as [e ks IH] using node_induction. simpl.
  destruct (Nat.eqb (nid e) i); [reflexivity|].
  now apply scan_chain.
Qed.

Lemma closest_chain i s t :
  closest i s t
  = match chain i t with
    | Some c => option_map nid (find (matches s) c)
    | None => None
    end.
Proof.
  unfold closest. rewrite <- locate_chain.
  destruct (locate i t) as [[ctx n]|]; reflexivity.
Qed.

Lemma grown_plug leaf ctx :
  forall n n', grown leaf n n' -> grown leaf (plug ctx n) (plug ctx n').
Proof.
  induction ctx as [|f ctx IH]; intros n n' H; [exact H|].
  rewrite !plug_cons. apply IH. unfold fill. now constructor.
Qed.

Lemma chain_grown i leaf t t' :
  grown leaf t t' -> chain i leaf = None -> chain i t' = chain i t.
Proof.
  intros H Hleaf. induction H as [e ks|e l k k' r H IH]; simpl.
  - destruct (Nat.eqb (nid e) i); [reflexivity|].
    rewrite first_some_app. simpl. rewrite Hleaf.
    destruct (first_some (chain i) ks); reflexivity.
  - destruct (Nat.eqb (nid e) i); [reflexivity|].
    rewrite !first_some_app. simpl. now rewrite IH.
Qed.

(** Creating the canvas does not move the image or its ancestors. *)
Lemma makeCanvas_closest wrap p c p1 img s :
  makeCanvas wrap p = Ok c p1 ->
  locate img (document p) <> None ->
  closest img s (document p1) = closest img s (document p).
Proof.
  intros H Himg.
  destruct (querySelector wrap sel_canvas (document p)) as [cv|] eqn:Hq.
  - rewrite (makeCanvas_finds _ _ _ Hq) in H. now inversion H; subst.
  - destruct (locate wrap (document p)) as [[ctx [e ks]]|] eqn:Hloc.
    + rewrite (makeCanvas_creates _ _ _ _ _ Hloc Hq) in H.
      inversion H; subst. simpl document.
      destruct (locate_sound _ _ _ _ Hloc) as (Hplug & _ & _).
      rewrite !closest_chain. rewrite <- Hplug at 2.
      rewrite (chain_grown img (Node (new_canvas (document p)) [])
                 (plug ctx (Node e ks))); [reflexivity| |].
      * apply grown_plug. constructor.
      * unfold chain, new_canvas, set_className, createElement; cbn [nid].
        destruct (Nat.eqb (fresh_id (document p)) img) eqn:E;
          [|reflexivity].
        apply Nat.eqb_eq in E. exfalso. apply Himg. apply locate_absent.
        rewrite <- E. apply fresh_id_absent.
    + unfold makeCanvas, bind, dom_get, dom_update, appendChild_new in H.
      rewrite Hq, Hloc in H. discriminate.
Qed.

(* ================================================================== *)
(** * 10. What each part of the script may change                       *)
(* ================================================================== *)

Create HintDb frame_rules.

Lemma with_surfaces_same p : with_surfaces p (surfaces p) = p.
Proof. now destruct p. Qed.

Lemma od_ret {A} (a : A) : only_document (ret a).
Proof. intros p. simpl. now rewrite with_document_same. Qed.

Lemma od_throw {A} e : only_document (@throw A e).
Proof. intros p. simpl. now rewrite with_document_same. Qed.

Lemma od_dom_get {A} (f : node -> A) : only_document (dom_get f).
Proof. intros p. simpl. now rewrite with_document_same. Qed.

Lemma od_dom_update f : only_document (dom_update f).
Proof.
  intros p. unfold dom_update. destruct (f (document p)); simpl.
  - reflexivity.
  - now rewrite with_document_same.
Qed.

Lemma od_bind {A B} (m : M A) (k : A -> M B) :
  only_document m -> (forall a, only_document (k a)) ->
  only_document (bind m k).
Proof.
  intros Hm Hk p. unfold bind. specialize (Hm p).
  destruct (m p) as [a p1|e p1]; simpl in *.
  - rewrite (Hk a p1). rewrite Hm at 1. reflexivity.
  - exact Hm.
Qed.

Lemma os_ret {A} (a : A) : only_surfaces (ret a).
Proof. intros p. simpl. now rewrite with_surfaces_same. Qed.

Lemma os_throw {A} e : only_surfaces (@throw A e).
Proof. intros p. simpl. now rewrite with_surfaces_same. Qed.

Lemma os_lift {A} (c : completion A) : only_surfaces (lift c).
Proof. destruct c; [apply os_ret | apply os_throw]. Qed.

Lemma os_update cv f : only_surfaces (update_surface cv f).
Proof. intros p. reflexivity. Qed.

Lemma os_bind {A B} (m : M A) (k : A -> M B) :
  only_surfaces m -> (forall a, only_surfaces (k a)) ->
  only_surfaces (bind m k).
Proof.
  intros Hm Hk p. unfold bind. specialize (Hm p).
  destruct (m p) as [a p1|e p1]; simpl in *.
  - rewrite (Hk a p1). rewrite Hm at 1. reflexivity.
  - exact Hm.
Qed.

Lemma os_forEach_from {A} (l : list A) body :
  (forall x i, only_surfaces (body x i)) ->
  forall idx, only_surfaces (forEach_from idx l body).
Proof.
  intros Hb. induction l as [|x l IH]; intros idx; simpl.
  - apply os_ret.
  - apply os_bind; auto.
Qed.

#[export] Hint Resolve od_ret od_throw od_dom_get od_dom_update od_bind
  os_ret os_throw os_lift os_update os_bind os_forEach_from : frame_rules.

Lemma ensureWrapper_only_document img : only_document (ensureWrapper img).
Proof.
  unfold ensureWrapper.
  apply od_bind; [auto with frame_rules|]. intros [w|]; [auto with frame_rules|].
  apply od_bind; [auto with frame_rules|]. intros e.
  apply od_bind; [auto with frame_rules|]. intros [q|];
    auto 6 with frame_rules.
Qed.

Lemma makeCanvas_only_document wrap : only_document (makeCanvas wrap).
Proof.
  unfold makeCanvas.
  apply od_bind; [auto with frame_rules|].
  intros [cv|]; auto 6 with frame_rules.
Qed.

Lemma paint_mask_only_surfaces side ai ff fo st lw r cv m idx :
  only_surfaces (paint_mask side ai ff fo st lw r cv m idx).
Proof.
  unfold paint_mask, context.
  apply os_bind; [auto with frame_rules|]. intros [[[x y] w] h].
  destruct (jsstring_eqb side (lit "front"));
    [|destruct (negb (is_active idx ai))]; auto 8 with frame_rules.
Qed.

Lemma size_and_paint_only_surfaces env c r cv :
  only_surfaces (size_and_paint env c r cv).
Proof.
  unfold size_and_paint, set_style_width, set_style_height, set_width,
    set_height, context, forEach.
  repeat (apply os_bind; [apply os_update|intros _]).
  apply os_forEach_from. intros x i. apply paint_mask_only_surfaces.
Qed.

(** The three stages of [draw] on a page. *)
Lemma draw_stages env c p :
  draw env c p
  = match ensureWrapper (dc_img c) p with
    | Ok wrap p1 =>
        match makeCanvas wrap p1 with
        | Ok cv p2 =>
            if too_small (getBoundingClientRect env (dc_img c))
            then requestAnimationFrame c p2
            else size_and_paint env c (getBoundingClientRect env (dc_img c))
                   cv p2
        | Throw e p2 => Throw e p2
        end
    | Throw e p1 => Throw e p1
    end.
Proof.
  unfold draw, bind. destruct (ensureWrapper (dc_img c) p); [|reflexivity].
  destruct (makeCanvas a p0); [|reflexivity].
  destruct (too_small (getBoundingClientRect env (dc_img c))); reflexivity.
Qed.

(** Scaffolding succeeds for an attached image, and what it leaves is a
    wrapper around the image with a canvas in it. *)
Lemma closest_present i s t w :
  closest i s t = Some w -> locate w t <> None.
Proof.
  unfold closest. destruct (locate i t) as [[ctx n]|] eqn:Hloc; [|discriminate].
  destruct (locate_sound _ _ _ _ Hloc) as (Hplug & _ & _).
  destruct (find (matches s) (node_elem n :: map f_elem ctx)) as [x|] eqn:Hf;
    [|discriminate].
  intros H. inversion H; subst w. apply find_some in Hf. destruct Hf as [Hin _].
  apply locate_present. rewrite <- Hplug, flatten_plug.
  apply in_map. destruct Hin as [Hx|Hx].
  - apply in_or_app. right. apply in_or_app. left.
    destruct n; simpl in *. now left.
  - apply in_or_app. left. apply in_map_iff in Hx.
    destruct Hx as (f & <- & Hf). clear - Hf.
    induction ctx as [|g ctx IH]; [contradiction|]. simpl.
    apply in_or_app. destruct Hf as [->|Hf].
    + right. now left.
    + left. now apply IH.
Qed.

Lemma attached_present img t : attached img t -> locate img t <> None.
Proof.
  intros H. apply attached_locate in H. destruct H as (f & up & n & ->).
  discriminate.
Qed.

Lemma with_document_document p d : document (with_document p d) = d.
Proof. reflexivity. Qed.

Lemma scaffold img p :
  attached img (document p) ->
  exists w p1 cv p2,
    ensureWrapper img p = Ok w p1
    /\ makeCanvas w p1 = Ok (nid cv) p2
    /\ closest img sel_wrap (document p2) = Some w
    /\ querySelector w sel_canvas (document p2) = Some cv
    /\ p2 = with_document p (document p2).
Proof.
  intros Hatt.
  destruct (ensureWrapper_attached _ _ Hatt) as (w & p1 & Hw).
  pose proof (ensureWrapper_result _ _ _ _ Hw) as Hc1.
  destruct (makeCanvas_present w p1 (closest_present _ _ _ _ Hc1))
    as (c & p2 & Hcv).
  destruct (makeCanvas_result _ _ _ _ Hcv) as (cv & Hq & <-).
  exists w, p1, cv, p2. repeat split; try assumption.
  - rewrite (makeCanvas_closest _ _ _ _ img sel_wrap Hcv); [exact Hc1|].
    unfold closest in Hc1. destruct (locate img (document p1)); discriminate.
  - pose proof (ensureWrapper_only_document img p) as H1.
    pose proof (makeCanvas_only_document w p1) as H2.
    rewrite Hw in H1. rewrite Hcv in H2. simpl in *.
    rewrite H2. rewrite H1 at 1. reflexivity.
Qed.

(** Once the scaffolding is there, both calls find it. *)
Lemma scaffold_found img p w cv :
  closest img sel_wrap (document p) = Some w ->
  querySelector w sel_canvas (document p) = Some cv ->
  ensureWrapper img p = Ok w p /\ makeCanvas w p = Ok (nid cv) p.
Proof.
  intros Hw Hcv. split.
  - now apply ensureWrapper_finds.
  - now apply makeCanvas_finds.
Qed.

(* ================================================================== *)
(** * 11. Idempotent scaffolding                                       *)
(* ================================================================== *)

Lemma closest_counted i s t w : closest i s t = Some w -> 0 < count s t.
Proof.
  unfold closest, count.
  destruct (locate i t) as [[ctx n]|] eqn:Hloc; [|discriminate].
  destruct (locate_sound _ _ _ _ Hloc) as (Hplug & _ & _).
  destruct (find (matches s) (node_elem n :: map f_elem ctx)) as [x|] eqn:Hf;
    [|discriminate].
  intros _. apply find_some in Hf. destruct Hf as [Hin Hm].
  assert (Hx : In x (flatten t)).
  { rewrite <- Hplug, flatten_plug. destruct Hin as [Hx|Hx].
    - apply in_or_app. right. apply in_or_app. left.
      destruct n; simpl in *. now left.
    - apply in_or_app. left. apply in_map_iff in Hx.
      destruct Hx as (f & <- & Hf). clear - Hf.
      induction ctx as [|g ctx IH]; [contradiction|]. simpl.
      apply in_or_app. destruct Hf as [->|Hf].
      + right. now left.
      + left. now apply IH. }
  assert (Hfx : In x (filter (matches s) (flatten t)))
    by (apply filter_In; now split).
  destruct (filter (matches s) (flatten t)); [contradiction|simpl; lia].
Qed.

Lemma querySelector_counted i s t x :
  querySelector i s t = Some x -> 0 < count s t.
Proof.
  unfold querySelector, count.
  destruct (locate i t) as [[ctx n]|] eqn:Hloc; [|discriminate].
  destruct (locate_sound _ _ _ _ Hloc) as (Hplug & _ & _).
  intros Hf. apply find_some in Hf. destruct Hf as [Hin Hm].
  assert (Hx : In x (flatten t)).
  { rewrite <- Hplug, flatten_plug. apply in_or_app. right.
    apply in_or_app. left. destruct n; simpl in *. now right. }
  assert (Hfx : In x (filter (matches s) (flatten t)))
    by (apply filter_In; now split).
  destruct (filter (matches s) (flatten t)); [contradiction|simpl; lia].
Qed.

Lemma tail_document env c cv p :
  document
    (page_of
       (if too_small (getBoundingClientRect env (dc_img c))
        then requestAnimationFrame c p
        else size_and_paint env c (getBoundingClientRect env (dc_img c))
               cv p))
  = document p.
Proof.
  destruct (too_small _); [reflexivity|].
  now rewrite (size_and_paint_only_surfaces env c _ cv p).
Qed.

(** A draw on a scaffolded image leaves the tree as it is. *)
Lemma draw_scaffolded_document env c p :
  scaffolded (dc_img c) (document p) ->
  document (page_of (draw env c p)) = document p.
Proof.
  intros (w & cv & Hw & Hcv).
  destruct (scaffold_found _ _ _ _ Hw Hcv) as [H1 H2].
  rewrite draw_stages, H1, H2. apply tail_document.
Qed.

(** A draw on an attached image scaffolds it. *)
Lemma draw_scaffolds env c p :
  attached (dc_img c) (document p) ->
  scaffolded (dc_img c) (document (page_of (draw env c p))).
Proof.
  intros Hatt.
  destruct (scaffold _ _ Hatt) as (w & p1 & cv & p2 & H1 & H2 & Hw & Hcv & _).
  rewrite draw_stages, H1, H2, tail_document. now exists w, cv.
Qed.

Lemma draw_scaffold_counts env c p :
  attached (dc_img c) (document p) ->
  count sel_wrap (document p) = 0 ->
  count sel_canvas (document p) = 0 ->
  count sel_wrap (document (page_of (draw env c p))) = 1
  /\ count sel_canvas (document (page_of (draw env c p))) = 1.
Proof.
  intros Hatt Hw0 Hc0.
  destruct (scaffold _ _ Hatt) as (w & p1 & cv & p2 & H1 & H2 & _).
  rewrite draw_stages, H1, H2, tail_document.
  assert (Hnw : closest (dc_img c) sel_wrap (document p) = None).
  { destruct (closest (dc_img c) sel_wrap (document p)) eqn:E; [|reflexivity].
    apply closest_counted in E. lia. }
  pose proof (ensureWrapper_count _ _ _ _ sel_wrap H1) as Ew.
  pose proof (ensureWrapper_count _ _ _ _ sel_canvas H1) as Ec.
  rewrite Hnw in Ew, Ec.
  change (matches sel_wrap (new_wrap (document p))) with true in Ew.
  change (matches sel_canvas (new_wrap (document p))) with false in Ec.
  cbv iota in Ew, Ec.
  assert (Hnc : querySelector w sel_canvas (document p1) = None).
  { destruct (querySelector w sel_canvas (document p1)) eqn:E; [|reflexivity].
    apply querySelector_counted in E. lia. }
  pose proof (makeCanvas_count _ _ _ _ sel_wrap H2) as Fw.
  pose proof (makeCanvas_count _ _ _ _ sel_canvas H2) as Fc.
  rewrite Hnc in Fw, Fc.
  change (matches sel_wrap (new_canvas (document p1))) with false in Fw.
  change (matches sel_canvas (new_canvas (document p1))) with true in Fc.
  cbv iota in Fw, Fc.
  lia.
Qed.

Lemma draws_scaffolded_document img l :
  forall p,
    Forall (fun ec => dc_img (snd ec) = img) l ->
    scaffolded img (document p) ->
    document (draws l p) = document p.
Proof.
  induction l as [|[env c] l IH]; intros p Hall Hs; [reflexivity|].
  inversion Hall as [|? ? Himg Hrest]; subst. simpl in *.
  pose proof (draw_scaffolded_document env c p Hs) as Hd.
  rewrite IH; [exact Hd|exact Hrest|now rewrite Hd].
Qed.

Lemma ensureWrapper_twice img p w p1 :
  ensureWrapper img p = Ok w p1 -> ensureWrapper img p1 = Ok w p1.
Proof.
  intros H. apply ensureWrapper_finds. now apply (ensureWrapper_result img p).
Qed.

Lemma makeCanvas_twice wrap p c p1 :
  makeCanvas wrap p = Ok c p1 -> makeCanvas wrap p1 = Ok c p1.
Proof.
  intros H. destruct (makeCanvas_result _ _ _ _ H) as (cv & Hq & <-).
  now apply makeCanvas_finds.
Qed.

(** C8. Scaffolding is idempotent.  For an image that has a parent, the
    first [ensureWrapper] returns a wrapper and the second returns the same
    wrapper and leaves the page as it is; over both calls the number of
    [.aioe-wrap] elements grows by one when the image had no wrapper and
    not at all when it had one.  The same holds for [makeCanvas] on that
    wrapper and the number of [canvas.aioe-cv] elements. *)
Theorem scaffolding_idempotent (img : nat) (p : page) :
  attached img (document p) ->
  exists w p1 cv p2,
    ensureWrapper img p = Ok w p1
    /\ ensureWrapper img p1 = Ok w p1
    /\ count sel_wrap (document p1)
       = count sel_wrap (document p)
         + match closest img sel_wrap (document p) with
           | Some _ => 0
           | None => 1
           end
    /\ makeCanvas w p1 = Ok cv p2
    /\ makeCanvas w p2 = Ok cv p2
    /\ count sel_canvas (document p2)
       = count sel_canvas (document p1)
         + match querySelector w sel_canvas (document p1) with
           | Some _ => 0
           | None => 1
           end
    /\ count sel_wrap (document p2) = count sel_wrap (document p1).
Proof.
  intros Hatt.
  destruct (scaffold _ _ Hatt) as (w & p1 & cv & p2 & H1 & H2 & _).
  exists w, p1, (nid cv), p2.
  pose proof (ensureWrapper_count _ _ _ _ sel_wrap H1) as Ew.
  pose proof (makeCanvas_count _ _ _ _ sel_canvas H2) as Fc.
  pose proof (makeCanvas_count _ _ _ _ sel_wrap H2) as Fw.
  change (matches sel_wrap (new_wrap (document p))) with true in Ew.
  change (matches sel_canvas (new_canvas (document p1))) with true in Fc.
  change (matches sel_wrap (new_canvas (document p1))) with false in Fw.
  repeat split.
  - exact H1.
  - now apply (ensureWrapper_twice img p).
  - exact Ew.
  - exact H2.
  - now apply (makeCanvas_twice w p1).
  - exact Fc.
  - rewrite Fw. destruct (querySelector w sel_canvas (document p1)); lia.
Qed.

Lemma scaffolding_idempotent_witness :
  attached 2 (document one_root_page)
  /\ exists w p1 cv p2,
       ensureWrapper 2 one_root_page = Ok w p1
       /\ ensureWrapper 2 p1 = Ok w p1
       /\ count sel_wrap (document p1)
          = count sel_wrap (document one_root_page)
            + match closest 2 sel_wrap (document one_root_page) with
              | Some _ => 0
              | None => 1
              end
       /\ makeCanvas w p1 = Ok cv p2
       /\ makeCanvas w p2 = Ok cv p2
       /\ count sel_canvas (document p2)
          = count sel_canvas (document p1)
            + match querySelector w sel_canvas (document p1) with
              | Some _ => 0
              | None => 1
              end
       /\ count sel_wrap (document p2) = count sel_wrap (document p1).
Proof.
  assert (H : attached 2 (document one_root_page))
    by (exists 1; reflexivity).
  split; [exact H|].
  exact (scaffolding_idempotent 2 one_root_page H).
Defined.

(** C10. Every draw scaffolds first.  After a draw on an attached image,
    painted or deferred or even thrown out of while painting, the image has
    a wrapper and the wrapper has a canvas; no later run of draws on that
    image, whatever the layout and the arguments, changes the document
    tree; and on a document that had no wrapper and no overlay canvas there
    is exactly one of each from then on. *)
Theorem draw_scaffolds_once (env : environment) (c : draw_call) (p : page) :
  attached (dc_img c) (document p) ->
  let p' := page_of (draw env c p) in
  scaffolded (dc_img c) (document p')
  /\ (forall later,
        Forall (fun ec => dc_img (snd ec) = dc_img c) later ->
        document (draws later p') = document p')
  /\ (count sel_wrap (document p) = 0 ->
      count sel_canvas (document p) = 0 ->
      forall later,
        Forall (fun ec => dc_img (snd ec) = dc_img c) later ->
        count sel_wrap (document (draws later p')) = 1
        /\ count sel_canvas (document (draws later p')) = 1).
Proof.
  intros Hatt p'.
  pose proof (draw_scaffolds env c p Hatt) as Hs. fold p' in Hs.
  split; [exact Hs|]. split.
  - intros later Hall. now apply (draws_scaffolded_document (dc_img c)).
  - intros Hw Hc later Hall.
    rewrite (draws_scaffolded_document (dc_img c) later p' Hall Hs).
    now apply draw_scaffold_counts.
Qed.

(* ================================================================== *)
(** * 12. Sizing and painting                                          *)
(* ================================================================== *)

Lemma find_put_same cv s l : find_surface cv (put_surface cv s l) = Some s.
Proof.
  induction l as [|[k s'] l IH]; simpl.
  - now rewrite Nat.eqb_refl.
  - destruct (Nat.eqb k cv) eqn:E; simpl; rewrite E; [reflexivity|exact IH].
Qed.

Lemma get_surface_update cv f p :
  get_surface cv (page_of (update_surface cv f p)) = f (get_surface cv p).
Proof.
  unfold update_surface, get_surface at 1. simpl. now rewrite find_put_same.
Qed.

Lemma append_calls_nil s : append_calls [] s = s.
Proof. destruct s. unfold append_calls. simpl. now rewrite app_nil_r. Qed.

Lemma append_calls_app a b s :
  append_calls b (append_calls a s) = append_calls (a ++ b) s.
Proof. unfold append_calls. simpl. now rewrite app_assoc. Qed.

Lemma contexts_ok cv cs p : contexts cv cs p = Ok tt (page_of (contexts cv cs p)).
Proof.
  revert p. induction cs as [|c cs IH]; intros p; [reflexivity|].
  simpl. unfold bind. simpl. apply IH.
Qed.

Lemma contexts_surface cv cs p :
  get_surface cv (page_of (contexts cv cs p)) = append_calls cs (get_surface cv p).
Proof.
  revert p. induction cs as [|c cs IH]; intros p.
  - simpl. now rewrite append_calls_nil.
  - simpl. unfold bind. simpl. rewrite IH.
    change (with_surfaces p _) with (page_of (context cv c p)).
    unfold context. rewrite get_surface_update.
    apply (append_calls_app [c] cs).
Qed.

Lemma contexts_app cv a b p :
  (contexts cv a ;; contexts cv b) p = contexts cv (a ++ b) p.
Proof.
  revert p. induction a as [|c a IH]; intros p.
  - reflexivity.
  - simpl. unfold bind in *. simpl. apply IH.
Qed.

Lemma contexts_only_surfaces cv cs : only_surfaces (contexts cv cs).
Proof.
  induction cs as [|c cs IH]; simpl.
  - apply os_ret.
  - apply os_bind; [apply os_update|intros _; exact IH].
Qed.

Lemma paint_mask_calls c r cv m idx b p :
  mask_box m r = Normal b ->
  paint_mask (dc_side c) (dc_activeIndex c) (active_fill_color (dc_style c))
    (other_fill_color (dc_style c)) (stroke_color (dc_style c))
    (line_width (dc_style c)) r cv m idx p
  = contexts cv (painted_fill c idx b ++ painted_outline c b) p.
Proof.
  intros Hb. unfold paint_mask. unfold bind at 1. rewrite Hb.
  destruct b as [[[x y] w] h]. simpl lift. unfold ret at 1.
  unfold painted_fill, painted_outline.
  destruct (jsstring_eqb (dc_side c) (lit "front")).
  - reflexivity.
  - destruct (is_active idx (dc_activeIndex c)); reflexivity.
Qed.

Lemma paint_masks_calls c r cv masks boxes :
  Forall2 (fun m b => mask_box m r = Normal b) masks boxes ->
  forall idx p,
    forEach_from idx masks
      (paint_mask (dc_side c) (dc_activeIndex c)
         (active_fill_color (dc_style c)) (other_fill_color (dc_style c))
         (stroke_color (dc_style c)) (line_width (dc_style c)) r cv) p
    = contexts cv (painted_calls c idx boxes) p.
Proof.
  induction 1 as [|m b masks boxes Hb _ IH]; intros idx p; [reflexivity|].
  simpl forEach_from. simpl painted_calls.
  rewrite app_assoc, <- contexts_app.
  unfold bind. rewrite (paint_mask_calls c r cv m idx b p Hb).
  rewrite contexts_ok. apply IH.
Qed.

Lemma resize_ok env r cv p :
  resize env r cv p = Ok tt (page_of (resize env r cv p)).
Proof. reflexivity. Qed.

Lemma resize_surface env r cv p :
  get_surface cv (page_of (resize env r cv p)) = sized env r (get_surface cv p).
Proof.
  set (dpr := or_num (devicePixelRatio env) one).
  change (page_of (resize env r cv p))
    with (page_of
            (update_surface cv
               (with_height
                  (Math_max one (Math_round (rect_height r * dpr)%float)))
            (page_of
               (update_surface cv
                  (with_width
                     (Math_max one (Math_round (rect_width r * dpr)%float)))
            (page_of
               (update_surface cv (with_style_height (Px (rect_height r)))
            (page_of
               (update_surface cv (with_style_width (Px (rect_width r)))
                  p)))))))).
  rewrite !get_surface_update. reflexivity.
Qed.

Lemma resize_only_surfaces env r cv : only_surfaces (resize env r cv).
Proof.
  unfold resize, set_style_width, set_style_height, set_width, set_height.
  repeat (apply os_bind; [apply os_update|intros _]). apply os_update.
Qed.

Lemma size_and_paint_stages env c r cv p :
  size_and_paint env c r cv p
  = forEach_from 0 (dc_masks c)
      (paint_mask (dc_side c) (dc_activeIndex c)
         (active_fill_color (dc_style c)) (other_fill_color (dc_style c))
         (stroke_color (dc_style c)) (line_width (dc_style c)) r cv)
      (page_of (contexts cv (prologue env r) (page_of (resize env r cv p)))).
Proof. reflexivity. Qed.

(** Painting never touches the size of the canvas, thrown or not. *)
Lemma paint_sizing c r cv masks :
  forall idx p,
    sizing (get_surface cv
              (page_of
                 (forEach_from idx masks
                    (paint_mask (dc_side c) (dc_activeIndex c)
                       (active_fill_color (dc_style c))
                       (other_fill_color (dc_style c))
                       (stroke_color (dc_style c))
                       (line_width (dc_style c)) r cv) p)))
    = sizing (get_surface cv p).
Proof.
  induction masks as [|m masks IH]; intros idx p; [reflexivity|].
  simpl forEach_from. unfold bind.
  destruct (mask_box m r) as [b|e] eqn:Hb.
  - rewrite (paint_mask_calls c r cv m idx b p Hb), contexts_ok.
    rewrite IH, contexts_surface. reflexivity.
  - unfold paint_mask, bind. rewrite Hb. reflexivity.
Qed.

Lemma size_and_paint_sizing env c r cv p :
  sizing (get_surface cv (page_of (size_and_paint env c r cv p)))
  = sizing (sized env r (get_surface cv p)).
Proof.
  rewrite size_and_paint_stages, paint_sizing, contexts_surface,
    resize_surface.
  reflexivity.
Qed.

Lemma size_and_paint_calls env c r cv p boxes :
  Forall2 (fun m b => mask_box m r = Normal b) (dc_masks c) boxes ->
  size_and_paint env c r cv p
  = Ok tt (page_of (size_and_paint env c r cv p))
  /\ calls (get_surface cv (page_of (size_and_paint env c r cv p)))
     = calls (get_surface cv p) ++ prologue env r ++ painted_calls c 0 boxes.
Proof.
  intros Hb. rewrite size_and_paint_stages.
  rewrite (paint_masks_calls c r cv _ _ Hb). split.
  - apply contexts_ok.
  - rewrite !contexts_surface, resize_surface. simpl.
    now rewrite <- app_assoc.
Qed.

Lemma get_surface_with_document cv p d :
  get_surface cv (with_document p d) = get_surface cv p.
Proof. reflexivity. Qed.

Lemma mask_box_of_mask x y w h r :
  mask_box (mask_value x y w h) r
  = Normal ((x * rect_width r)%float, (y * rect_height r)%float,
            (w * rect_width r)%float, (h * rect_height r)%float).
Proof. reflexivity. Qed.

(** ** Whole numbers as Numbers

    [idx === activeIndex] compares two Numbers.  Below 2^53 in magnitude
    every whole number is a Number of its own, so there the comparison is
    the comparison of the whole numbers. *)

Section WholeNumbers.
Local Open Scope Z_scope.

Lemma digits2_pos_iter (m k : positive) :
  digits2_pos (Pos.iter xO m k) = (digits2_pos m + k)%positive.
Proof.
  induction k as [|k IH] using Pos.peano_ind.
  - simpl. lia.
  - rewrite Pos.iter_succ. simpl. rewrite IH. lia.
Qed.

Lemma iter_xO_inj (k m1 m2 : positive) :
  Pos.iter xO m1 k = Pos.iter xO m2 k -> m1 = m2.
Proof.
  induction k as [|k IH] using Pos.peano_ind.
  - simpl. congruence.
  - rewrite !Pos.iter_succ. intros H. injection H as H. auto.
Qed.

Lemma digits2_pos_bound (p : positive) :
  2 ^ Zpos (digits2_pos p) <= 2 * Zpos p.
Proof.
  induction p as [p IH|p IH|]; cbn [digits2_pos];
    rewrite ?Pos2Z.inj_succ, ?Z.pow_succ_r by lia; lia.
Qed.

Lemma digits2_pos_small (p : positive) :
  Zpos p < 2 ^ 53 -> Zpos (digits2_pos p) <= 53.
Proof.
  intros H. destruct (Z.le_gt_cases (Zpos (digits2_pos p)) 53) as [|Hgt];
    [assumption|exfalso].
  pose proof (digits2_pos_bound p) as Hb.
  assert (2 ^ 54 <= 2 ^ Zpos (digits2_pos p))
    by (apply Z.pow_le_mono_r; lia).
  change (2 ^ 54) with (2 * 2 ^ 53) in *. lia.
Qed.

(** A mantissa of 53 binary digits with an exponent in range is already
    rounded. *)
Lemma binary_round_aux_exact (s : bool) (m : positive) (e : Z) :
  Zpos (digits2_pos m) = 53 -> -1074 <= e <= 971 ->
  binary_round_aux prec emax s (Zpos m) e loc_Exact = S754_finite s m e.
Proof.
  intros Hd He.
  assert (Hf : fexp prec emax (53 + e) - e = 0).
  { unfold fexp, emin, prec, emax. lia. }
  unfold binary_round_aux, shr_fexp. cbn [Zdigits2 shr_record_of_loc].
  rewrite Hd, Hf. cbn [shr shr_m loc_of_shr_record round_nearest_even Zdigits2
                       shr_record_of_loc].
  rewrite Hd, Hf. cbn [shr shr_m].
  replace (e <=? emax - prec) with true; [reflexivity|].
  symmetry. apply Z.leb_le. unfold emax, prec. lia.
Qed.

Lemma binary_round_whole (s : bool) (m : positive) :
  Zpos m < 2 ^ 53 ->
  binary_round prec emax s m 0
  = S754_finite s (aligned m) (Zpos (digits2_pos m) - 53).
Proof.
  intros Hm. pose proof (digits2_pos_small m Hm) as Hd.
  unfold binary_round, shl_align, aligned.
  assert (Hf : fexp prec emax (Zpos (digits2_pos m) + 0)
               = Zpos (digits2_pos m) - 53).
  { unfold fexp, emin, prec, emax. lia. }
  rewrite Hf, Z.sub_0_r.
  destruct (Zpos (digits2_pos m) - 53) as [|k|k] eqn:Hk; try lia.
  - apply binary_round_aux_exact; lia.
  - apply binary_round_aux_exact; [|lia].
    rewrite digits2_pos_iter. lia.
Qed.

Lemma aligned_inj (m1 m2 : positive) :
  digits2_pos m1 = digits2_pos m2 -> aligned m1 = aligned m2 -> m1 = m2.
Proof.
  unfold aligned. intros ->.
  destruct (Zpos (digits2_pos m2) - 53); auto. apply iter_xO_inj.
Qed.

Lemma valid_whole (z : Z) :
  Z.abs z < 2 ^ 53 ->
  valid_binary (binary_normalize prec emax z 0 false) = true.
Proof.
  intros Hz. destruct z as [|m|m]; [reflexivity| |];
    cbn [binary_normalize]; rewrite binary_round_whole by exact Hz;
    pose proof (digits2_pos_small m Hz) as Hd;
    unfold SpecFloat.valid_binary, bounded, canonical_mantissa, aligned;
    (apply andb_true_intro; split; [|apply Z.leb_le; unfold emax, prec; lia]);
    apply Z.eqb_eq;
    (destruct (Zpos (digits2_pos m) - 53) as [|k|k] eqn:Hk; try lia;
     rewrite ?digits2_pos_iter; unfold fexp, emin, prec, emax; lia).
Qed.

Lemma SFeqb_finite (s1 s2 : bool) (m1 m2 : positive) (e1 e2 : Z) :
  SFeqb (S754_finite s1 m1 e1) (S754_finite s2 m2 e2) = true ->
  s1 = s2 /\ e1 = e2 /\ m1 = m2.
Proof.
  unfold SFeqb, SFcompare.
  change (Pos.compare_cont Eq m1 m2) with (Pos.compare m1 m2).
  destruct s1, s2; try discriminate;
    destruct (Z.compare_spec e1 e2); try discriminate;
    destruct (Pos.compare_spec m1 m2); try discriminate; auto.
Qed.

Lemma SFeqb_whole (z1 z2 : Z) :
  Z.abs z1 < 2 ^ 53 -> Z.abs z2 < 2 ^ 53 ->
  SFeqb (binary_normalize prec emax z1 0 false)
        (binary_normalize prec emax z2 0 false)
  = Z.eqb z1 z2.
Proof.
  intros H1 H2.
  destruct (Z.eqb_spec z1 z2) as [->|Hne].
  - destruct z2 as [|m|m]; [reflexivity| |]; cbn [binary_normalize];
      rewrite binary_round_whole by exact H2;
      unfold SFeqb, SFcompare; rewrite Z.compare_refl;
      change (Pos.compare_cont Eq (aligned m) (aligned m))
        with (Pos.compare (aligned m) (aligned m));
      now rewrite Pos.compare_refl.
  - assert (Hfin : forall s1 s2 m1 m2,
               Zpos m1 < 2 ^ 53 -> Zpos m2 < 2 ^ 53 ->
               (s1 = s2 -> m1 <> m2) ->
               SFeqb (binary_round prec emax s1 m1 0)
                     (binary_round prec emax s2 m2 0) = false).
    { intros s1 s2 m1 m2 B1 B2 Hd. rewrite !binary_round_whole by assumption.
      match goal with
      | |- ?t = false => destruct t eqn:E; [exfalso|reflexivity]
      end.
      apply SFeqb_finite in E. destruct E as (Hs & He & Ha).
      apply (Hd Hs). apply aligned_inj; [lia|exact Ha]. }
    destruct z1 as [|m1|m1]; destruct z2 as [|m2|m2]; try congruence;
      cbn [binary_normalize];
      try (apply Hfin; try assumption; congruence);
      rewrite ?binary_round_whole by assumption; reflexivity.
Qed.

Lemma Z2F_eqb (z1 z2 : Z) :
  Z.abs z1 < 2 ^ 53 -> Z.abs z2 < 2 ^ 53 ->
  PrimFloat.eqb (Z2F z1) (Z2F z2) = Z.eqb z1 z2.
Proof.
  intros H1 H2. unfold Z2F.
  rewrite FloatAxioms.eqb_spec, !Prim2SF_SF2Prim by (now apply valid_whole).
  now apply SFeqb_whole.
Qed.

Lemma Z2F_eqb_neg_zero (z : Z) :
  Z.abs z < 2 ^ 53 -> PrimFloat.eqb (Z2F z) (-0)%float = Z.eqb z 0.
Proof.
  intros Hz. unfold Z2F.
  rewrite FloatAxioms.eqb_spec, Prim2SF_SF2Prim by (now apply valid_whole).
  change (Prim2SF (-0)%float) with (S754_zero true).
  destruct z as [|m|m]; [reflexivity| |]; cbn [binary_normalize];
    now rewrite binary_round_whole by exact Hz.
Qed.

Lemma Z2F_eqb_true (z : Z) (a : float) :
  Z.abs z < 2 ^ 53 -> PrimFloat.eqb (Z2F z) a = true ->
  a = Z2F z \/ (z = 0 /\ a = (-0)%float).
Proof.
  intros Hz. unfold Z2F.
  rewrite FloatAxioms.eqb_spec, Prim2SF_SF2Prim by (now apply valid_whole).
  rewrite <- (SF2Prim_Prim2SF a) at 2 3.
  destruct z as [|m|m]; cbn [binary_normalize];
    rewrite ?binary_round_whole by exact Hz;
    destruct (Prim2SF a) as [s|s| |s m' e'] eqn:Ea;
    try (destruct s; discriminate); try discriminate; intros H;
    try (apply SFeqb_finite in H; destruct H as (<- & <- & <-); now left).
  destruct s; [right; split; reflexivity|now left].
Qed.

End WholeNumbers.

(** [idx === activeIndex] holds exactly when the index equals the active
    index as a whole number. *)
Lemma is_active_iff (idx : nat) (a : number) :
  (Z.of_nat idx < 2 ^ 53)%Z ->
  is_active idx a = true <-> index_equals idx a.
Proof.
  intros Hi. unfold is_active, index_equals, is_whole. split.
  - intros H. apply Z2F_eqb_true; [lia|exact H].
  - intros [->|[E ->]].
    + rewrite Z2F_eqb by lia. apply Z.eqb_refl.
    + rewrite Z2F_eqb_neg_zero by lia. now apply Z.eqb_eq.
Qed.

Lemma painted_calls_claimed (c : draw_call) (active : nat -> bool)
  (boxes : list box) :
  forall idx,
    (forall i, idx <= i < idx + List.length boxes ->
               active i = is_active i (dc_activeIndex c)) ->
    painted_calls c idx boxes
    = claimed_calls (dc_side c) active (dc_style c) idx boxes.
Proof.
  induction boxes as [|b boxes IH]; intros idx H; [reflexivity|].
  cbn [painted_calls claimed_calls]. rewrite IH.
  - f_equal. destruct b as [[[x y] w] h].
    unfold painted_fill, claimed_fill.
    rewrite (H idx) by (simpl; lia). reflexivity.
  - intros i Hi. apply H. simpl. lia.
Qed.

(** C1. On an image whose box is at or above the threshold and for masks
    whose four coordinates can be read, [draw] returns and the calls it
    adds to the overlay canvas are the two of the prologue followed, mask
    by mask in array order, by the fill the specification asks for
    ([claimed_fill]: every mask in front mode, active colour at the active
    index and other colour elsewhere; every mask but the active one in any
    other mode, with the other colour) and by the outline
    ([claimed_outline]: configured width and colour, origin moved by
    0.5).  The active mask is the one whose ordinal index equals the active
    index as a whole number ([index_equals]), whatever Number the active
    index is.  An array has fewer than 2^32 elements, which is below the
    2^53 up to which every whole number is a Number. *)
Theorem draw_paints_every_mask (env : environment) (c : draw_call) (p : page)
  (boxes : list box) :
  attached (dc_img c) (document p) ->
  too_small (getBoundingClientRect env (dc_img c)) = false ->
  Forall2
    (fun m b => mask_box m (getBoundingClientRect env (dc_img c)) = Normal b)
    (dc_masks c) boxes ->
  (Z.of_nat (List.length (dc_masks c)) <= 2 ^ 53)%Z ->
  exists p' w cv active,
    draw env c p = Ok tt p'
    /\ closest (dc_img c) sel_wrap (document p') = Some w
    /\ querySelector w sel_canvas (document p') = Some cv
    /\ (forall idx,
          idx < List.length (dc_masks c) ->
          (active idx = true <-> index_equals idx (dc_activeIndex c)))
    /\ calls (get_surface (nid cv) p')
       = calls (get_surface (nid cv) p)
         ++ prologue env (getBoundingClientRect env (dc_img c))
         ++ claimed_calls (dc_side c) active (dc_style c) 0 boxes.
Proof.
  intros Hatt Hbig Hboxes Hlen.
  destruct (scaffold _ _ Hatt) as (w & p1 & cv & p2 & H1 & H2 & Hw & Hcv & Hp2).
  destruct (size_and_paint_calls env c _ (nid cv) p2 boxes Hboxes)
    as [Hok Hcalls].
  exists (page_of (size_and_paint env c
                     (getBoundingClientRect env (dc_img c)) (nid cv) p2)),
    w, cv, (fun idx => is_active idx (dc_activeIndex c)).
  rewrite draw_stages, H1, H2, Hbig.
  rewrite (size_and_paint_only_surfaces env c _ (nid cv) p2) at 2 3.
  simpl document. do 3 (split; [assumption|]). split.
  - intros idx Hidx. apply is_active_iff. lia.
  - rewrite Hcalls. rewrite Hp2 at 1.
    now rewrite (painted_calls_claimed c
                   (fun idx => is_active idx (dc_activeIndex c)) boxes 0).
Qed.

Lemma one_is_not_zero : ~ index_equals 0 one.
Proof.
  intros [H|[_ H]];
    apply (f_equal (fun x => PrimFloat.eqb x one)) in H; discriminate H.
Qed.

Lemma draw_paints_every_mask_witness :
  (exists p' w cv,
     draw sample_env (styled_call "front") one_root_page = Ok tt p'
     /\ closest 2 sel_wrap (document p') = Some w
     /\ querySelector w sel_canvas (document p') = Some cv
     /\ calls (get_surface (nid cv) p')
        = [SetTransform 2 0 0 2 0 0; ClearRect 0 0 200 100;
           SetFillStyle (lit "blue"); FillRect 100 25 50 50;
           SetLineWidth 3; SetStrokeStyle (lit "black");
           StrokeRect 100.5 25.5 50 50;
           SetFillStyle (lit "red"); FillRect 0 0 100 50;
           SetLineWidth 3; SetStrokeStyle (lit "black");
           StrokeRect 0.5 0.5 100 50]%float)
  /\ (exists p' w cv,
        draw sample_env (styled_call "back") one_root_page = Ok tt p'
        /\ closest 2 sel_wrap (document p') = Some w
        /\ querySelector w sel_canvas (document p') = Some cv
        /\ calls (get_surface (nid cv) p')
           = [SetTransform 2 0 0 2 0 0; ClearRect 0 0 200 100;
              SetFillStyle (lit "blue"); FillRect 100 25 50 50;
              SetLineWidth 3; SetStrokeStyle (lit "black");
              StrokeRect 100.5 25.5 50 50;
              SetLineWidth 3; SetStrokeStyle (lit "black");
              StrokeRect 0.5 0.5 100 50]%float).
Proof.
  assert (H1 : attached 2 (document one_root_page))
    by (exists 1; reflexivity).
  assert (H2 : too_small (getBoundingClientRect sample_env 2) = false)
    by reflexivity.
  assert (H3 : forall side,
             Forall2
               (fun m b =>
                  mask_box m (getBoundingClientRect sample_env 2) = Normal b)
               (dc_masks (styled_call side)) sample_boxes)
    by (intros side; repeat constructor).
  assert (H4 : forall side,
             (Z.of_nat (List.length (dc_masks (styled_call side)))
              <= 2 ^ 53)%Z)
    by (intros side; simpl; lia).
  assert (H5 : forall side active,
             (forall idx,
                idx < List.length (dc_masks (styled_call side)) ->
                (active idx = true
                 <-> index_equals idx (dc_activeIndex (styled_call side)))) ->
             active 0 = false /\ active 1 = true).
  { intros side active H. split.
    - destruct (active 0) eqn:E; [|reflexivity].
      apply (H 0) in E; [|simpl; lia]. now apply one_is_not_zero in E.
    - apply (H 1); [simpl; lia|]. left. reflexivity. }
  split.
  - destruct (draw_paints_every_mask sample_env (styled_call "front")
                one_root_page sample_boxes H1 H2 (H3 _) (H4 _))
      as (p' & w & cv & active & Hd & Hw & Hc & Ha & Hcalls).
    destruct (H5 _ _ Ha) as [A0 A1].
    exists p', w, cv. do 3 (split; [assumption|]).
    rewrite Hcalls. unfold sample_boxes, claimed_calls, claimed_fill.
    rewrite A0, A1. reflexivity.
  - destruct (draw_paints_every_mask sample_env (styled_call "back")
                one_root_page sample_boxes H1 H2 (H3 _) (H4 _))
      as (p' & w & cv & active & Hd & Hw & Hc & Ha & Hcalls).
    destruct (H5 _ _ Ha) as [A0 A1].
    exists p', w, cv. do 3 (split; [assumption|]).
    rewrite Hcalls. unfold sample_boxes, claimed_calls, claimed_fill.
    rewrite A0, A1. reflexivity.
Defined.

(** [Math.max(1, x)] is at least 1 unless [x] is NaN. *)
Lemma Math_max_at_least_one x :
  is_nan x = false -> PrimFloat.leb one (Math_max one x) = true.
Proof.
  intros Hx. unfold Math_max. rewrite Hx. simpl orb. cbv iota.
  destruct (PrimFloat.ltb one x) eqn:Hlt.
  - rewrite leb_spec. rewrite ltb_spec in Hlt. unfold SFleb, SFltb in *.
    destruct (SFcompare (Prim2SF one) (Prim2SF x)) as [[| |]|];
      congruence.
  - destruct (PrimFloat.ltb x one); reflexivity.
Qed.

(** C2. On an attached image, a draw whose box is below the threshold in
    width or height returns without touching any canvas and appends the
    very same call to the animation-frame queue, leaving the other
    listeners alone; a draw on a 200 by 100 box at device pixel ratio 2
    leaves the overlay canvas with CSS size 200px by 100px and a buffer of
    400 by 200, and schedules nothing; in general the buffer is the
    rounded product with the ratio, or 1 when that is smaller, so at least
    1 whenever the product is a number. *)
Theorem draw_defers_or_sizes (env : environment) (c : draw_call) (p : page) :
  attached (dc_img c) (document p) ->
  let r := getBoundingClientRect env (dc_img c) in
  let p' := page_of (draw env c p) in
  (too_small r = true ->
   draw env c p = Ok tt p'
   /\ surfaces p' = surfaces p
   /\ animationFrames p' = animationFrames p ++ [c]
   /\ loadOnce p' = loadOnce p
   /\ windowResize p' = windowResize p
   /\ resizeObserved p' = resizeObserved p)
  /\ (too_small r = false ->
      exists w cv,
        closest (dc_img c) sel_wrap (document p') = Some w
        /\ querySelector w sel_canvas (document p') = Some cv
        /\ sizing (get_surface (nid cv) p')
           = (Some (Px (rect_width r)), Some (Px (rect_height r)),
              Math_max one
                (Math_round
                   (rect_width r * or_num (devicePixelRatio env) one)%float),
              Math_max one
                (Math_round
                   (rect_height r * or_num (devicePixelRatio env) one)%float))
        /\ animationFrames p' = animationFrames p
        /\ (is_nan (Math_round
                      (rect_width r
                       * or_num (devicePixelRatio env) one)%float) = false ->
            PrimFloat.leb one (width (get_surface (nid cv) p')) = true)
        /\ (is_nan (Math_round
                      (rect_height r
                       * or_num (devicePixelRatio env) one)%float) = false ->
            PrimFloat.leb one (height (get_surface (nid cv) p')) = true)
        /\ (rect_width r = 200%float -> rect_height r = 100%float ->
            devicePixelRatio env = 2%float ->
            sizing (get_surface (nid cv) p')
            = (Some (Px 200%float), Some (Px 100%float),
               400%float, 200%float))).
Proof.
  intros Hatt r p'.
  destruct (scaffold _ _ Hatt) as (w & p1 & cv & p2 & H1 & H2 & Hw & Hcv & Hp2).
  assert (Hdraw : draw env c p
                  = if too_small r then requestAnimationFrame c p2
                    else size_and_paint env c r (nid cv) p2).
  { rewrite draw_stages, H1, H2. reflexivity. }
  split.
  - intros Hsmall. subst p'. rewrite Hdraw, Hsmall. simpl.
    rewrite Hp2. repeat split.
  - intros Hbig.
    assert (Hp' : p' = page_of (size_and_paint env c r (nid cv) p2)).
    { subst p'. now rewrite Hdraw, Hbig. }
    assert (Hsz : sizing (get_surface (nid cv) p')
                  = sizing (sized env r (get_surface (nid cv) p2))).
    { rewrite Hp'. apply size_and_paint_sizing. }
    exists w, cv. rewrite Hp' at 1 2.
    rewrite (size_and_paint_only_surfaces env c r (nid cv) p2).
    simpl document. repeat split; try assumption.
    + rewrite Hp'.
      rewrite (size_and_paint_only_surfaces env c r (nid cv) p2).
      simpl. now rewrite Hp2.
    + intros Hn. unfold sizing in Hsz. injection Hsz as _ _ Hwd _.
      rewrite Hwd. simpl. now apply Math_max_at_least_one.
    + intros Hn. unfold sizing in Hsz. injection Hsz as _ _ _ Hht.
      rewrite Hht. simpl. now apply Math_max_at_least_one.
    + intros Hw200 Hh100 Hdpr. rewrite Hsz. unfold sizing, sized. simpl.
      rewrite Hw200, Hh100, Hdpr. reflexivity.
Qed.

Lemma draw_defers_or_sizes_witness :
  attached 2 (document one_root_page)
  /\ (let r := getBoundingClientRect unrendered_env 2 in
      let p' := page_of (draw unrendered_env (sample_call "front")
                           one_root_page) in
      too_small r = true
      /\ draw unrendered_env (sample_call "front") one_root_page = Ok tt p'
      /\ surfaces p' = surfaces one_root_page
      /\ animationFrames p'
         = animationFrames one_root_page ++ [sample_call "front"])
  /\ (let r := getBoundingClientRect sample_env 2 in
      let p' := page_of (draw sample_env (sample_call "front")
                           one_root_page) in
      too_small r = false
      /\ exists w cv,
           closest 2 sel_wrap (document p') = Some w
           /\ querySelector w sel_canvas (document p') = Some cv
           /\ sizing (get_surface (nid cv) p')
              = (Some (Px 200%float), Some (Px 100%float),
                 400%float, 200%float)).
Proof.
  assert (H : attached 2 (document one_root_page))
    by (exists 1; reflexivity).
  split; [exact H|]. split.
  - destruct (draw_defers_or_sizes unrendered_env (sample_call "front")
                one_root_page H) as [Hsmall _].
    assert (Hs : too_small (getBoundingClientRect unrendered_env 2) = true)
      by reflexivity.
    destruct (Hsmall Hs) as (Hd & Hsf & Haf & _).
    repeat split; assumption.
  - destruct (draw_defers_or_sizes sample_env (sample_call "front")
                one_root_page H) as [_ Hbig].
    assert (Hb : too_small (getBoundingClientRect sample_env 2) = false)
      by reflexivity.
    split; [exact Hb|].
    destruct (Hbig Hb) as (w & cv & Hw & Hcv & _ & _ & _ & _ & Hsz).
    exists w, cv. repeat split; try assumption.
    apply Hsz; reflexivity.
Defined.

Lemma draw_scaffolds_once_witness :
  attached 2 (document one_root_page)
  /\ (let p' := page_of (draw unrendered_env (sample_call "front")
                           one_root_page) in
      scaffolded 2 (document p')
      /\ (forall later,
            Forall (fun ec => dc_img (snd ec) = 2) later ->
            document (draws later p') = document p')
      /\ (count sel_wrap (document one_root_page) = 0 ->
          count sel_canvas (document one_root_page) = 0 ->
          forall later,
            Forall (fun ec => dc_img (snd ec) = 2) later ->
            count sel_wrap (document (draws later p')) = 1
            /\ count sel_canvas (document (draws later p')) = 1)).
Proof.
  assert (H : attached 2 (document one_root_page))
    by (exists 1; reflexivity).
  split; [exact H|].
  exact (draw_scaffolds_once unrendered_env (sample_call "front")
           one_root_page H).
Defined.

(* ================================================================== *)
(** * 13. The payload decoders                                         *)
(* ================================================================== *)

(** ** 13.1 The structured source *)

Lemma get_member_object obj k :
  truthy obj = true -> typeof_object obj = true ->
  get_member obj k = Normal (member obj k).
Proof.
  unfold member. destruct obj; simpl; try discriminate; intros _ _.
  - reflexivity.
  - destruct (own_prop (lit k) props); reflexivity.
Qed.

(** What the decoder does with the parsed text of the script element, in
    one piece: every way it can go. *)
Lemma parse_internal_parsed root t el obj :
  querySelector root sel_script t = Some el ->
  JSON_parse (trim (or_str (textContent el) (lit ""))) = Normal obj ->
  truthy obj = true -> typeof_object obj = true ->
  parse_internal root t
  = let* vn := ToNumber (member obj "v") in
    if (ToInt32 vn <? 1)%Z then Normal None
    else
      let* an := ToNumber (member obj "active") in
      match array_or_null (member obj "masks") with
      | None => Normal None
      | Some items =>
          Normal (Some {| i_masks := items;
                          i_active := if Number_isFinite an then an
                                      else zero |})
      end.
Proof.
  intros Hq Hparse Ht Ho. unfold parse_internal. rewrite Hq.
  destruct (trim (or_str (textContent el) (lit ""))) as [|c txt] eqn:Htxt.
  - discriminate Hparse.
  - rewrite Hparse. simpl bindC. rewrite Ht, Ho. simpl negb. simpl orb.
    cbv iota.
    rewrite !(get_member_object obj _ Ht Ho). simpl bindC.
    destruct (ToNumber (member obj "v")) as [vn|e]; [|reflexivity].
    simpl bindC. destruct (ToInt32 vn <? 1)%Z; reflexivity.
Qed.

(** C3, the counterexample.  The payload parses as an object, its version
    coerces to 1 and its masks are an (empty) array, but [Number(obj.active)]
    throws a TypeError inside the [try], so the decoder returns [null]. *)
Lemma structured_claim_counterexample : ~ structured_claim.
Proof.
  intros H.
  destruct (H 1 (document uncoercible_active_page)
              (payload_script
                 (json_text "{'v':1,'masks':[],'active':{'toString':0}}"))
              (VObj [(lit "v", VNum one); (lit "masks", VArr []);
                     (lit "active", VObj [(lit "toString", VNum zero)])])
              one [])
    as [active Habs]; try reflexivity.
  vm_compute in Habs. discriminate Habs.
Qed.

(** C3, amended.  When moreover the coercion of [active] returns, the
    decoder returns exactly the masks of the payload, in their order, and
    the coerced [active], or 0 when that is not finite (as it is for an
    absent [active], which coerces to NaN); when the coercion throws, the
    structured source counts as absent. *)
Theorem structured_payload_accepted (root : nat) (t : node) (el : element)
  (obj : value) (vn : number) (items : list value) :
  querySelector root sel_script t = Some el ->
  JSON_parse (trim (or_str (textContent el) (lit ""))) = Normal obj ->
  truthy obj = true -> typeof_object obj = true ->
  ToNumber (member obj "v") = Normal vn -> (1 <= ToInt32 vn)%Z ->
  member obj "masks" = VArr items ->
  (forall an,
     ToNumber (member obj "active") = Normal an ->
     aioeParseInternalFromDom root t
     = Some {| i_masks := items;
               i_active := if Number_isFinite an then an else zero |})
  /\ (member obj "active" = VUndefined ->
      aioeParseInternalFromDom root t
      = Some {| i_masks := items; i_active := zero |})
  /\ (forall e,
        ToNumber (member obj "active") = Abrupt e ->
        aioeParseInternalFromDom root t = None).
Proof.
  intros Hq Hparse Ht Ho Hv Hge Hm.
  unfold aioeParseInternalFromDom.
  rewrite (parse_internal_parsed root t el obj Hq Hparse Ht Ho).
  rewrite Hv. simpl bindC.
  assert (Hlt : (ToInt32 vn <? 1)%Z = false) by (apply Z.ltb_ge; lia).
  rewrite Hlt, Hm. simpl array_or_null. repeat split.
  - intros an Ha. rewrite Ha. reflexivity.
  - intros Ha. rewrite Ha. reflexivity.
  - intros e Ha. rewrite Ha. reflexivity.
Qed.

Lemma structured_payload_accepted_witness :
  aioeParseInternalFromDom 1 (document accepted_page)
  = Some {| i_masks := [mask_value 0.5 0.25 0.25 0.5]%float;
            i_active := one |}.
Proof.
  refine (proj1
            (structured_payload_accepted 1 (document accepted_page)
               (payload_script accepted_text)
               (VObj [(lit "v", VNum one);
                      (lit "masks",
                       VArr [mask_value 0.5 0.25 0.25 0.5]%float);
                      (lit "active", VStr (lit "1"))])
               one [mask_value 0.5 0.25 0.25 0.5]%float
               _ _ _ _ _ _ _) one _).
  - reflexivity.
  - vm_compute. reflexivity.
  - reflexivity.
  - reflexivity.
  - reflexivity.
  - vm_compute. discriminate.
  - reflexivity.
  - vm_compute. reflexivity.
Defined.

Lemma parse_internal_rejected root t el obj :
  querySelector root sel_script t = Some el ->
  JSON_parse (trim (or_str (textContent el) (lit ""))) = Normal obj ->
  truthy obj = true -> typeof_object obj = true ->
  version_below_one obj \/ Array_isArray (member obj "masks") = false ->
  aioeParseInternalFromDom root t = None.
Proof.
  intros Hq Hparse Ht Ho Hcase. unfold aioeParseInternalFromDom.
  rewrite (parse_internal_parsed root t el obj Hq Hparse Ht Ho).
  destruct Hcase as [(vn & Hv & Hlt)|Hm].
  - rewrite Hv. simpl bindC. apply Z.ltb_lt in Hlt. now rewrite Hlt.
  - destruct (ToNumber (member obj "v")) as [vn|e]; [|reflexivity].
    simpl bindC. destruct (ToInt32 vn <? 1)%Z; [reflexivity|].
    destruct (ToNumber (member obj "active")) as [an|e]; [|reflexivity].
    simpl bindC. destruct (member obj "masks"); try reflexivity.
    discriminate Hm.
Qed.

(** C4, the counterexample.  The payload [{"v":-4294967295,"masks":[]}]
    parses as an object whose version, the Number -4294967295, is less
    than 1; [obj.v | 0] is 1, so the decoder accepts the payload and the
    resolver takes its (empty) masks and active index 0, not the one mask
    and the active index 1 of the legacy attributes. *)
Lemma rejected_claim_counterexample : ~ rejected_claim.
Proof.
  intros H.
  destruct (H 1 (document wrapped_version_page)
              (payload_script wrapped_version_text)
              (VObj [(lit "v", VNum (-4294967295)%float);
                     (lit "masks", VArr [])]))
    as [Habs _].
  - reflexivity.
  - vm_compute. reflexivity.
  - reflexivity.
  - reflexivity.
  - left. exists (-4294967295)%float. split; reflexivity.
  - vm_compute in Habs. discriminate Habs.
Qed.

Lemma wrapped_version_accepted :
  ToInt32 (-4294967295)%float = 1%Z
  /\ aioeParseInternalFromDom 1 (document wrapped_version_page)
     = Some {| i_masks := []; i_active := zero |}
  /\ resolve_payload 1 (document wrapped_version_page) = Normal (zero, [])
  /\ legacy_payload 1 (document wrapped_version_page)
     = Normal (one, [mask_value 0.5 0.25 0.25 0.5]%float).
Proof. repeat split; vm_compute; reflexivity. Qed.

(** C4, amended.  A structured payload that parses as an object but whose
    version coerced to a 32-bit integer, as the decoder does with
    [obj.v | 0], is below 1, or whose [masks] is missing or not an array,
    is treated as absent: the decoder returns [null] without throwing, and
    the resolver computes exactly what the legacy attributes give. *)
Theorem structured_payload_rejected (root : nat) (t : node) (el : element)
  (obj : value) :
  querySelector root sel_script t = Some el ->
  JSON_parse (trim (or_str (textContent el) (lit ""))) = Normal obj ->
  truthy obj = true -> typeof_object obj = true ->
  version_below_one obj \/ Array_isArray (member obj "masks") = false ->
  aioeParseInternalFromDom root t = None
  /\ resolve_payload root t = legacy_payload root t.
Proof.
  intros Hq Hparse Ht Ho Hcase.
  pose proof (parse_internal_rejected root t el obj Hq Hparse Ht Ho Hcase)
    as Hnone.
  split; [exact Hnone|].
  unfold resolve_payload. now rewrite Hnone.
Qed.

Lemma structured_payload_rejected_witness :
  aioeParseInternalFromDom 1 (document stale_page) = None
  /\ resolve_payload 1 (document stale_page)
     = legacy_payload 1 (document stale_page)
  /\ legacy_payload 1 (document stale_page)
     = Normal (one, [mask_value 0.5 0.25 0.25 0.5]%float).
Proof.
  assert (H : aioeParseInternalFromDom 1 (document stale_page) = None
              /\ resolve_payload 1 (document stale_page)
                 = legacy_payload 1 (document stale_page)).
  { apply (structured_payload_rejected 1 (document stale_page)
             (payload_script stale_text)
             (VObj [(lit "v", VNum zero); (lit "masks", VArr [])])).
    - reflexivity.
    - vm_compute. reflexivity.
    - reflexivity.
    - reflexivity.
    - left. exists zero. split; [reflexivity|]. vm_compute. reflexivity. }
  destruct H as [H1 H2]. split; [exact H1|]. split; [exact H2|].
  vm_compute. reflexivity.
Defined.

(** ** 13.2 The legacy source *)

Lemma b64ToUtf8_total b64 : exists s, b64ToUtf8 b64 = Normal s.
Proof.
  unfold b64ToUtf8, try_catch, bindC.
  destruct (atob (or_str b64 (lit ""))) as [bin|e].
  - destruct (decodeURIComponent (escape bin)) as [s|e]; eauto.
  - eauto.
Qed.

Lemma parseMasksB64_total b64 : exists v, parseMasksB64 b64 = Normal v.
Proof.
  unfold parseMasksB64. destruct (b64ToUtf8_total b64) as [txt ->].
  simpl bindC. unfold try_catch. destruct (JSON_parse txt); eauto.
Qed.

(** Malformed base64: both attempts of [b64ToUtf8] fail, the text is
    empty, the empty text is no JSON, the fallback object has no masks. *)
Lemma malformed_base64_no_masks b64 e :
  atob (or_str b64 (lit "")) = Abrupt e ->
  legacy_masks b64 = Normal [].
Proof.
  intros H. unfold legacy_masks, parseMasksB64, b64ToUtf8.
  rewrite H. reflexivity.
Qed.

(** Text that is no JSON: the fallback object has no masks. *)
Lemma malformed_json_no_masks b64 txt e :
  b64ToUtf8 b64 = Normal txt ->
  JSON_parse txt = Abrupt e ->
  legacy_masks b64 = Normal [].
Proof.
  intros Ht Hp. unfold legacy_masks, parseMasksB64.
  rewrite Ht. simpl bindC. rewrite Hp. reflexivity.
Qed.

(** Anything the text parses to, other than [null], gives a mask list. *)
Lemma parsed_value_masks b64 v :
  parseMasksB64 b64 = Normal v ->
  v <> VNull -> v <> VUndefined ->
  exists masks, legacy_masks b64 = Normal masks.
Proof.
  intros Hp Hn Hu. unfold legacy_masks. rewrite Hp. simpl bindC.
  destruct v; try contradiction; simpl; eauto.
  destruct (own_prop (lit "masks") props); simpl; eauto.
Qed.

(** C5, at the failing input.  The base64 text [bnVsbA==] decodes to the
    JSON text [null]; [parseMasksB64] returns [null] without throwing, and
    the read of [parsed.masks] on line 116 then throws a TypeError that
    nothing catches: payload resolution and [initOne] throw. *)
Theorem legacy_null_payload_throws :
  b64ToUtf8 (lit "bnVsbA==") = Normal (lit "null")
  /\ parseMasksB64 (lit "bnVsbA==") = Normal VNull
  /\ legacy_masks (lit "bnVsbA==") = Abrupt TypeError
  /\ resolve_payload 1 (document null_payload_page) = Abrupt TypeError
  /\ initOne sample_env 1 null_payload_page
     = Throw TypeError null_payload_page.
Proof. repeat split; vm_compute; reflexivity. Qed.

(** ** 13.3 The legacy round trip *)

Lemma one_mask_b64_text :
  base64_encode
    (utf8_encode
       (json_text "{'v':1,'masks':[{'x':0.5,'y':0.25,'w':0.25,'h':0.5}]}"))
  = one_mask_b64.
Proof. vm_compute. reflexivity. Qed.

(** C6. The JSON text of the object, encoded as UTF-8 and then base64, is
    the attribute value below; decoding it along the legacy path (atob,
    escape and decodeURIComponent, JSON.parse, the read of [masks]) gives
    back the one mask, and through the attributes of a root the resolver
    returns it with active index 0. *)
Theorem legacy_round_trip :
  base64_encode (utf8_encode round_trip_text)
  = lit "eyJ2IjoxLCJtYXNrcyI6W3sieCI6MC4xLCJ5IjowLjIsInciOjAuMywiaCI6MC40fV19"
  /\ b64ToUtf8 (base64_encode (utf8_encode round_trip_text))
     = Normal round_trip_text
  /\ legacy_masks (base64_encode (utf8_encode round_trip_text))
     = Normal [round_trip_mask]
  /\ resolve_payload 1
       (document
          (legacy_page
             [("data-masks-b64"%string,
               base64_encode (utf8_encode round_trip_text))]))
     = Normal (zero, [round_trip_mask]).
Proof. repeat split; vm_compute; reflexivity. Qed.

(* ================================================================== *)
(** * 14. Style and bootstrap                                          *)
(* ================================================================== *)

(** ** 14.1 The outline width *)

(** C9, the counterexample.  The attribute [-3] parses as the integer -3,
    which is truthy, so [|| 2] keeps it: the resolved width is -3, not a
    positive number, and the renderer assigns -3 to [lineWidth] before it
    strokes the mask. *)
Lemma outline_width_counterexample :
  outline_px (resolve_style 1 (document negative_width_page)) = (-3)%float
  /\ PrimFloat.ltb zero
       (outline_px (resolve_style 1 (document negative_width_page))) = false
  /\ calls (get_surface 4 (page_of (initOne sample_env 1 negative_width_page)))
     = [SetTransform 2 0 0 2 0 0; ClearRect 0 0 200 100;
        SetFillStyle (lit "rgba(40,40,40,0.85)"); FillRect 100 25 50 50;
        SetLineWidth (-3); SetStrokeStyle (lit "rgba(0,0,0,0.65)");
        StrokeRect 100.5 25.5 50 50]%float.
Proof. repeat split; vm_compute; reflexivity. Qed.

Lemma or_num_truthy x d : truthy_num d = true -> truthy_num (or_num x d) = true.
Proof.
  intros Hd. unfold or_num. destruct (truthy_num x) eqn:Hx; assumption.
Qed.

Lemma or_num_falsy x d : truthy_num x = false -> or_num x d = d.
Proof. intros Hx. unfold or_num. now rewrite Hx. Qed.

Lemma or_num_idem x d : truthy_num x = true -> or_num x d = x.
Proof. intros Hx. unfold or_num. now rewrite Hx. Qed.

(** C9, amended.  The resolved outline width is never 0 and never NaN, and
    it is the width the renderer assigns to [lineWidth]; it is the default
    2 when the attribute is absent, empty, without leading digits (parsed
    as NaN) or zero; any other integer is kept, negative ones included. *)
Theorem outline_width_resolved (root : nat) (t : node) :
  let w := outline_px (resolve_style root t) in
  truthy_num w = true
  /\ line_width (resolve_style root t) = w
  /\ (root_attribute root "data-outline-px" t = None -> w = two)
  /\ (forall a,
        root_attribute root "data-outline-px" t = Some a ->
        truthy_num (parseInt10 (or_str a (lit "2"))) = false -> w = two)
  /\ (forall a,
        root_attribute root "data-outline-px" t = Some a ->
        truthy_num (parseInt10 (or_str a (lit "2"))) = true ->
        w = parseInt10 (or_str a (lit "2"))).
Proof.
  intros w. subst w. unfold resolve_style, line_width. simpl outline_px.
  assert (Ht : truthy_num
                 (or_num (parseInt10 (attribute_or root "data-outline-px" "2" t))
                    two) = true)
    by (apply or_num_truthy; reflexivity).
  split; [exact Ht|]. split; [now apply or_num_idem|].
  unfold attribute_or. repeat split.
  - intros ->. reflexivity.
  - intros a -> Hf. now apply or_num_falsy.
  - intros a -> Hf. now apply or_num_idem.
Qed.

Lemma outline_width_resolved_witness :
  root_attribute 1 "data-outline-px" (document null_payload_page) = None
  /\ outline_px (resolve_style 1 (document null_payload_page)) = two
  /\ root_attribute 1 "data-outline-px"
       (document (legacy_page [("data-outline-px"%string, lit "wide")]))
     = Some (lit "wide")
  /\ truthy_num (parseInt10 (or_str (lit "wide") (lit "2"))) = false
  /\ outline_px
       (resolve_style 1
          (document (legacy_page [("data-outline-px"%string, lit "wide")])))
     = two.
Proof.
  assert (H1 : root_attribute 1 "data-outline-px" (document null_payload_page)
               = None) by reflexivity.
  assert (H2 : root_attribute 1 "data-outline-px"
                 (document
                    (legacy_page [("data-outline-px"%string, lit "wide")]))
               = Some (lit "wide")) by reflexivity.
  assert (H3 : truthy_num (parseInt10 (or_str (lit "wide") (lit "2"))) = false)
    by reflexivity.
  split; [exact H1|]. split.
  - exact (proj1 (proj2 (proj2
             (outline_width_resolved 1 (document null_payload_page)))) H1).
  - split; [exact H2|]. split; [exact H3|].
    exact (proj1 (proj2 (proj2 (proj2
             (outline_width_resolved 1
                (document
                   (legacy_page
                      [("data-outline-px"%string, lit "wide")]))))))
             (lit "wide") H2 H3).
Defined.

(** ** 14.2 init *)

(** The null payload seen from [init].  [init] finds both roots;
    [initOne] throws on the first one, [forEach] stops there, and [init]
    throws with the page untouched: no wrapper, no canvas, no listener and
    no animation frame for the second root, which on its own initialises
    and renders. *)
Lemma init_stops_at_failing_root :
  querySelectorAll sel_root (document two_root_page) = [1; 3]
  /\ init sample_env two_root_page = Throw TypeError two_root_page
  /\ exists p,
       initOne sample_env 3 two_root_page = Ok tt p
       /\ scaffolded 4 (document p)
       /\ List.length (windowResize p) = 1
       /\ List.length (animationFrames p) = 1
       /\ List.length (calls (get_surface 6 p)) = 7.
Proof.
  split; [reflexivity|]. split; [vm_compute; reflexivity|].
  eexists. split; [vm_compute; reflexivity|].
  split.
  - exists 5, (set_className "aioe-cv" (plain 6 "canvas" [] [])).
    split; vm_compute; reflexivity.
  - repeat split.
Qed.

Lemma init_absorbs_handled_failures :
  exists p,
    init sample_env absorbing_page = Ok tt p
    /\ scaffolded 2 (document p)
    /\ scaffolded 5 (document p)
    /\ map dc_img (windowResize p) = [2; 5]
    /\ map (fun c => List.length (dc_masks c)) (windowResize p) = [0; 1].
Proof.
  eexists. split; [vm_compute; reflexivity|].
  split; [|split].
  - exists 6, (set_className "aioe-cv" (plain 7 "canvas" [] [])).
    split; vm_compute; reflexivity.
  - exists 8, (set_className "aioe-cv" (plain 9 "canvas" [] [])).
    split; vm_compute; reflexivity.
  - split; reflexivity.
Qed.

(** ** 14.3 Which failures [init] absorbs *)

Lemma locate_root i t m :
  locate i t = Some ([], m) -> nid (node_elem t) = i.
Proof.
  intros H. destruct (locate_sound _ _ _ _ H) as (Hp & Hi & _).
  unfold plug in Hp. simpl in Hp. now subst m.
Qed.

Lemma flatten_head t : flatten t = node_elem t :: descendants t.
Proof. destruct t; reflexivity. Qed.

Lemma descendants_plug ctx n x :
  ctx <> [] -> In x (flatten n) -> In x (descendants (plug ctx n)).
Proof.
  intros Hctx Hx.
  pose proof (flatten_plug ctx n) as Hf. rewrite flatten_head in Hf.
  destruct ctx as [|f up]; [contradiction|]. simpl elems_before in Hf.
  destruct (elems_before up) as [|h tl]; simpl in Hf;
    injection Hf as Hh Hd; rewrite Hd.
  - rewrite !in_app_iff. tauto.
  - rewrite !in_app_iff. tauto.
Qed.

(** In a well-formed document, what [querySelector] finds under an
    element has a parent. *)
Lemma queried_attached root s t el :
  well_formed t ->
  querySelector root s t = Some el ->
  attached (nid el) t.
Proof.
  unfold well_formed, querySelector. intros Hwf Hq.
  destruct (locate root t) as [[ctx n]|] eqn:Hloc; [|discriminate].
  apply find_some in Hq. destruct Hq as [Hin _].
  destruct (locate_sound _ _ _ _ Hloc) as (Hplug & _ & _).
  assert (Hd : In el (descendants t)).
  { destruct ctx as [|f up].
    - unfold plug in Hplug. simpl in Hplug. now subst n.
    - rewrite <- Hplug. apply descendants_plug; [discriminate|].
      rewrite flatten_head. now right. }
  apply attached_locate.
  destruct (locate (nid el) t) as [[[|f up] m]|] eqn:Hl.
  - exfalso. apply locate_root in Hl.
    rewrite flatten_head in Hwf. simpl in Hwf. inversion Hwf as [|? ? Hnot _].
    apply Hnot. rewrite Hl. now apply in_map.
  - now exists f, up, m.
  - exfalso. apply (locate_present (nid el) t); [|exact Hl].
    rewrite flatten_head. right. now apply in_map.
Qed.

(** A draw on an attached image whose masks can all be read returns. *)
Lemma draw_returns env c p boxes :
  attached (dc_img c) (document p) ->
  Forall2
    (fun m b => mask_box m (getBoundingClientRect env (dc_img c)) = Normal b)
    (dc_masks c) boxes ->
  exists p', draw env c p = Ok tt p'.
Proof.
  intros Hatt Hb.
  destruct (scaffold _ _ Hatt) as (w & p1 & cv & p2 & H1 & H2 & _).
  rewrite draw_stages, H1, H2.
  destruct (too_small (getBoundingClientRect env (dc_img c))).
  - eexists. reflexivity.
  - destruct (size_and_paint_calls env c _ (nid cv) p2 boxes Hb) as [Hok _].
    eexists. exact Hok.
Qed.

Lemma initOne_inert env root p x :
  querySelector root sel_img (document p) = None ->
  resolve_payload root (document p) = Normal x ->
  initOne env root p = Ok tt p.
Proof.
  intros Hq Hx. unfold initOne, bind, dom_get. rewrite Hx. simpl.
  destruct x as [a masks]. now rewrite Hq.
Qed.

Lemma initOne_no_masks env root p a :
  well_formed (document p) ->
  resolve_payload root (document p) = Normal (a, []) ->
  exists p', initOne env root p = Ok tt p'.
Proof.
  intros Hwf Hx. unfold initOne, bind at 1 2, dom_get. rewrite Hx. simpl lift.
  unfold ret at 1. cbv iota beta. unfold bind at 1 2.
  destruct (querySelector root sel_img (document p)) as [el|] eqn:Hq.
  - pose proof (queried_attached _ _ _ _ Hwf Hq) as Hatt.
    set (c := {| dc_side := attribute_or root "data-side" "front" (document p);
                 dc_img := nid el; dc_masks := []; dc_activeIndex := a;
                 dc_style := resolve_style root (document p) |}).
    destruct (draw_returns env c p [] Hatt (Forall2_nil _)) as [p' Hd].
    unfold bind. destruct (complete env (nid el)).
    + rewrite Hd. destruct (hasResizeObserver env); eexists; reflexivity.
    + destruct (hasResizeObserver env); eexists; reflexivity.
  - eexists. reflexivity.
Qed.

Lemma forEach_from_app {A} (l1 l2 : list A) body :
  forall idx p,
    forEach_from idx (l1 ++ l2) body p
    = match forEach_from idx l1 body p with
      | Ok _ p1 => forEach_from (idx + List.length l1) l2 body p1
      | Throw e p1 => Throw e p1
      end.
Proof.
  induction l1 as [|x l1 IH]; intros idx p; simpl.
  - now rewrite Nat.add_0_r.
  - unfold bind. destruct (body x idx p) as [u p1|e p1]; [|reflexivity].
    rewrite IH. now rewrite Nat.add_succ_r.
Qed.

Lemma init_roots_from env roots :
  forall idx p,
    forEach_from idx roots (fun root _ => initOne env root) p
    = init_roots env roots p.
Proof.
  unfold init_roots, forEach. generalize 0.
  induction roots as [|r roots IH]; intros k idx p; [reflexivity|].
  simpl. unfold bind. destruct (initOne env r p); [|reflexivity].
  apply IH.
Qed.

(** C7, the counterexample.  The decoder accepts the first root's payload
    without looking at its masks; the image being complete, [initOne]
    draws at once, the read of [m.x] on a [null] mask throws a TypeError,
    nothing catches it, and [init] ends: the second root, which on its own
    initialises and renders, gets no wrapper, no canvas and no listener. *)
Lemma init_independence_counterexample :
  querySelectorAll sel_root (document null_mask_page) = [1; 4]
  /\ (exists p,
        init sample_env null_mask_page = Throw TypeError p
        /\ closest 5 sel_wrap (document p) = None
        /\ windowResize p = []
        /\ animationFrames p = []
        /\ loadOnce p = []
        /\ resizeObserved p = [])
  /\ (exists p,
        initOne sample_env 4 null_mask_page = Ok tt p
        /\ scaffolded 5 (document p)
        /\ map dc_img (windowResize p) = [5]).
Proof.
  split; [reflexivity|]. split.
  - eexists. split; [vm_compute; reflexivity|]. repeat split.
  - eexists. split; [vm_compute; reflexivity|]. split; [|reflexivity].
    exists 6, (set_className "aioe-cv" (plain 7 "canvas" [] [])).
    split; vm_compute; reflexivity.
Qed.

(** C7, amended.  [init] runs [initOne] on the roots in document order and
    stops at the first one that throws.  A root without an image whose
    payload resolves returns normally and leaves the page as it is.  A
    root whose structured payload is absent or rejected and whose legacy
    attribute is malformed base64 or decodes to text that is no JSON
    resolves to an empty mask list and, in a well-formed document, returns
    normally.  So inertness and these decode failures never keep a later
    root from being initialised; an exception that escapes [initOne]
    does. *)
Theorem init_in_document_order (env : environment) (p : page) :
  (forall before root after p1,
     querySelectorAll sel_root (document p) = before ++ root :: after ->
     init_roots env before p = Ok tt p1 ->
     init env p
     = match initOne env root p1 with
       | Ok _ p2 => init_roots env after p2
       | Throw e p2 => Throw e p2
       end)
  /\ (forall root x,
        querySelector root sel_img (document p) = None ->
        resolve_payload root (document p) = Normal x ->
        initOne env root p = Ok tt p)
  /\ (forall root,
        well_formed (document p) ->
        aioeParseInternalFromDom root (document p) = None ->
        (exists e,
           atob (or_str (attribute_or root "data-masks-b64" "" (document p))
                   (lit "")) = Abrupt e)
        \/ (exists txt e,
              b64ToUtf8 (attribute_or root "data-masks-b64" "" (document p))
              = Normal txt
              /\ JSON_parse txt = Abrupt e) ->
        (exists a, resolve_payload root (document p) = Normal (a, []))
        /\ exists p', initOne env root p = Ok tt p').
Proof.
  split; [|split].
  - intros before root after p1 Hroots Hbefore.
    unfold init, bind, dom_get. rewrite Hroots. unfold forEach.
    rewrite forEach_from_app, init_roots_from, Hbefore. simpl.
    unfold bind. destruct (initOne env root p1); [|reflexivity].
    apply init_roots_from.
  - intros root x. apply initOne_inert.
  - intros root Hwf Hnone Hfail.
    assert (Hm : legacy_masks
                   (attribute_or root "data-masks-b64" "" (document p))
                 = Normal []).
    { destruct Hfail as [(e & He)|(txt & e & Ht & He)].
      - now apply (malformed_base64_no_masks _ e).
      - now apply (malformed_json_no_masks _ txt e). }
    assert (Hr : resolve_payload root (document p)
                 = Normal (or_num (parseInt10
                                     (attribute_or root "data-active" "0"
                                        (document p))) zero, [])).
    { unfold resolve_payload, legacy_payload. now rewrite Hnone, Hm. }
    split; [eexists; exact Hr|].
    now apply (initOne_no_masks env root p _ Hwf Hr).
Qed.

Lemma init_in_document_order_witness :
  (exists p', initOne sample_env 1 absorbing_page = Ok tt p')
  /\ initOne sample_env 3 absorbing_page = Ok tt absorbing_page.
Proof.
  destruct (init_in_document_order sample_env absorbing_page)
    as (_ & Hinert & Hfail).
  split.
  - apply (Hfail 1).
    + unfold well_formed. vm_compute.
      repeat (constructor; [simpl; intuition discriminate|]). constructor.
    + reflexivity.
    + left. exists InvalidCharacterError. reflexivity.
  - apply (Hinert 3 (zero, [])); reflexivity.
Defined.

(** ** 14.4 The one text on which the legacy path throws *)

Lemma lex_close_defined st ts :
  lex_close st = Normal ts -> Forall token_defined ts.
Proof.
  destruct st; simpl; intros H; try discriminate.
  - inversion H. constructor.
  - destruct (json_number (rev acc)); inversion H.
    repeat constructor. discriminate.
  - unfold json_word in H.
    destruct (jsstring_eqb (rev acc) (lit "true"));
      [inversion H; repeat constructor; discriminate|].
    destruct (jsstring_eqb (rev acc) (lit "false"));
      [inversion H; repeat constructor; discriminate|].
    destruct (jsstring_eqb (rev acc) (lit "null"));
      [inversion H; repeat constructor; discriminate|discriminate].
Qed.

Lemma lex_start_defined c st ts :
  lex_start c = Normal (st, ts) -> Forall token_defined ts.
Proof.
  unfold lex_start. intros H.
  repeat match type of H with
  | (if ?b then _ else _) = _ =>
      destruct b; [inversion H; repeat constructor|]
  end.
  discriminate.
Qed.

Lemma lex_step_defined st c st' ts :
  lex_step st c = Normal (st', ts) -> Forall token_defined ts.
Proof.
  destruct st; unfold lex_step; intros H.
  - now apply (lex_start_defined c st').
  - repeat match type of H with
    | (if ?b then _ else _) = _ =>
        destruct b; [inversion H; repeat constructor|]
    end.
    inversion H. constructor.
  - destruct (json_escape c); [inversion H; constructor|].
    destruct (N.eqb c 117); inversion H. constructor.
  - destruct (radix_digit 16 c); [|discriminate].
    destruct more; inversion H; constructor.
  - destruct (is_number_char c); [inversion H; constructor|].
    destruct (lex_close (LNum acc)) as [closed|] eqn:Hc; [|discriminate].
    unfold bindC in H.
    destruct (lex_start c) as [[st1 ts1]|] eqn:Hs; [|discriminate].
    inversion H; subst. apply Forall_app. split.
    + now apply (lex_close_defined (LNum acc)).
    + now apply (lex_start_defined c st').
  - destruct (is_lower c); [inversion H; constructor|].
    destruct (lex_close (LWord acc)) as [closed|] eqn:Hc; [|discriminate].
    unfold bindC in H.
    destruct (lex_start c) as [[st1 ts1]|] eqn:Hs; [|discriminate].
    inversion H; subst. apply Forall_app. split.
    + now apply (lex_close_defined (LWord acc)).
    + now apply (lex_start_defined c st').
Qed.

Lemma lex_defined s :
  forall st ts, lex st s = Normal ts -> Forall token_defined ts.
Proof.
  induction s as [|c s IH]; intros st ts H; simpl in H.
  - now apply (lex_close_defined st).
  - destruct (lex_step st c) as [[st' emitted]|] eqn:Hstep; [|discriminate].
    destruct (lex st' s) as [rest|] eqn:Hrest; [|discriminate].
    inversion H; subst. apply Forall_app. split.
    + now apply (lex_step_defined st c st').
    + now apply (IH st').
Qed.

Lemma push_value_defined v stack st :
  v <> VUndefined -> push_value v stack = Normal st -> expect_defined st.
Proof.
  intros Hv H. destruct stack as [|[items|props [k|]] up]; simpl in H;
    inversion H; subst; unfold expect_defined; simpl; auto.
Qed.

Lemma parse_step_defined st t st' :
  token_defined t -> parse_step st t = Normal st' -> expect_defined st'.
Proof.
  intros Ht H. destruct st as [e stack].
  destruct e; destruct t; destruct stack as [|[items|props [k|]] up];
    simpl in H; try discriminate H;
    first
      [ inversion H; subst; unfold expect_defined; simpl;
        first [exact I | exact Ht | discriminate]
      | eapply push_value_defined; [|exact H];
        first [exact Ht | discriminate] ].
Qed.

Lemma parse_tokens_defined ts :
  forall st v,
    Forall token_defined ts -> expect_defined st ->
    parse_tokens st ts = Normal v -> v <> VUndefined.
Proof.
  induction ts as [|t ts IH]; intros st v Hts Hst H; simpl in H.
  - destruct st as [[| | | | | |w] stack]; try discriminate.
    inversion H; subst. exact Hst.
  - inversion Hts; subst.
    destruct (parse_step st t) as [st'|] eqn:Hstep; [|discriminate].
    apply (IH st'); try assumption.
    now apply (parse_step_defined st t).
Qed.

(** [JSON.parse] never returns [undefined]. *)
Lemma JSON_parse_defined text v : JSON_parse text = Normal v -> v <> VUndefined.
Proof.
  unfold JSON_parse. destruct (lex LStart text) as [ts|] eqn:Hlex;
    [|discriminate].
  simpl. apply parse_tokens_defined.
  - now apply (lex_defined text LStart).
  - exact I.
Qed.

(** The legacy path throws exactly when the decoded text is JSON for
    [null]; everything else gives a mask list. *)
Lemma legacy_masks_throws_iff b64 :
  (exists e, legacy_masks b64 = Abrupt e)
  <-> parseMasksB64 b64 = Normal VNull.
Proof.
  destruct (parseMasksB64_total b64) as [v Hv]. split.
  - intros [e He]. destruct v; try exact Hv.
    + exfalso. unfold parseMasksB64 in Hv.
      destruct (b64ToUtf8 b64) as [txt|]; [|discriminate]. simpl in Hv.
      unfold try_catch in Hv. destruct (JSON_parse txt) as [u|] eqn:Hp.
      * inversion Hv; subst. now apply (JSON_parse_defined txt VUndefined).
      * discriminate.
    + destruct (parsed_value_masks b64 (VBool b) Hv) as [m Hm];
        try discriminate. congruence.
    + destruct (parsed_value_masks b64 (VNum n) Hv) as [m Hm];
        try discriminate. congruence.
    + destruct (parsed_value_masks b64 (VStr s) Hv) as [m Hm];
        try discriminate. congruence.
    + destruct (parsed_value_masks b64 (VArr items) Hv) as [m Hm];
        try discriminate. congruence.
    + destruct (parsed_value_masks b64 (VObj props) Hv) as [m Hm];
        try discriminate. congruence.
  - intros Hn. exists TypeError. unfold legacy_masks. now rewrite Hn.
Qed.

(* ================================================================== *)
(** * 15. More on the payload decoders                                   *)
(* ================================================================== *)

Lemma parse_internal_accepts root t i :
  parse_internal root t = Normal (Some i) ->
  exists el obj vn an,
    querySelector root sel_script t = Some el
    /\ JSON_parse (trim (or_str (textContent el) (lit ""))) = Normal obj
    /\ truthy obj = true /\ typeof_object obj = true
    /\ ToNumber (member obj "v") = Normal vn /\ (1 <= ToInt32 vn)%Z
    /\ ToNumber (member obj "active") = Normal an
    /\ member obj "masks" = VArr (i_masks i)
    /\ i_active i = (if Number_isFinite an then an else zero).
Proof.
  unfold parse_internal.
  destruct (querySelector root sel_script t) as [el|] eqn:Hq; [|discriminate].
  destruct (trim (or_str (textContent el) (lit ""))) as [|c txt] eqn:Ht;
    [discriminate|].
  destruct (JSON_parse (c :: txt)) as [obj|] eqn:Hp; [|discriminate].
  cbn [bindC].
  destruct (truthy obj) eqn:Htr; [|discriminate].
  destruct (typeof_object obj) eqn:Hty; [|discriminate].
  cbn [negb orb].
  rewrite !(get_member_object obj _ Htr Hty). cbn [bindC].
  destruct (ToNumber (member obj "v")) as [vn|] eqn:Hv; [|discriminate].
  cbn [bindC].
  destruct (ToInt32 vn <? 1)%Z eqn:Hlt; [discriminate|].
  destruct (ToNumber (member obj "active")) as [an|] eqn:Ha; [|discriminate].
  cbn [bindC].
  destruct (member obj "masks") eqn:Hm; cbn [array_or_null]; try discriminate.
  intros H. injection H as <-.
  exists el, obj, vn, an. rewrite Ht.
  repeat split; try assumption.
  apply Z.ltb_ge in Hlt. lia.
Qed.

(** X1. [aioeParseInternalFromDom] returns a payload exactly
    when the root holds a [script.aioe-internal] whose trimmed text parses
    to an object or array with an integer-coerced version of at least 1,
    an [active] that coerces to a Number without throwing and an array
    under [masks]; the payload then carries that array, and [active]
    itself when it is finite, 0 otherwise.  In every other case (no such
    script, blank text, text that is no JSON, a parsed [null] or scalar,
    a version below 1, a coercion that throws, [masks] not an array) the
    result is [null]. *)
Theorem structured_source_accepts_iff (root : nat) (t : node) (i : internal) :
  aioeParseInternalFromDom root t = Some i <->
  exists el obj vn an,
    querySelector root sel_script t = Some el
    /\ JSON_parse (trim (or_str (textContent el) (lit ""))) = Normal obj
    /\ truthy obj = true /\ typeof_object obj = true
    /\ ToNumber (member obj "v") = Normal vn /\ (1 <= ToInt32 vn)%Z
    /\ ToNumber (member obj "active") = Normal an
    /\ member obj "masks" = VArr (i_masks i)
    /\ i_active i = (if Number_isFinite an then an else zero).
Proof.
  split.
  - unfold aioeParseInternalFromDom.
    destruct (parse_internal root t) as [r|] eqn:Hp; [|discriminate].
    intros ->. now apply parse_internal_accepts.
  - intros (el & obj & vn & an & Hq & Hj & Htr & Hty & Hv & Hge & Ha & Hm & Hi).
    unfold aioeParseInternalFromDom.
    rewrite (parse_internal_parsed root t el obj Hq Hj Htr Hty).
    rewrite Hv. cbn [bindC].
    replace (ToInt32 vn <? 1)%Z with false by (symmetry; apply Z.ltb_ge; lia).
    rewrite Ha, Hm. cbn [bindC array_or_null].
    destruct i as [ms act]. cbn in Hi |- *. now rewrite Hi.
Qed.

Lemma structured_source_accepts_iff_witness :
  aioeParseInternalFromDom 1 (document accepted_page)
  = Some {| i_masks := [mask_value 0.5 0.25 0.25 0.5]%float;
            i_active := one |}.
Proof.
  apply (proj2 (structured_source_accepts_iff 1 (document accepted_page)
                  {| i_masks := [mask_value 0.5 0.25 0.25 0.5]%float;
                     i_active := one |})).
  exists (payload_script accepted_text),
    (VObj [(lit "v", VNum one);
           (lit "masks", VArr [mask_value 0.5 0.25 0.25 0.5]%float);
           (lit "active", VStr (lit "1"))]),
    one, one.
  repeat split; vm_compute; try reflexivity; discriminate.
Defined.

Lemma attribute_or_unset root name fallback t :
  unset root name t -> attribute_or root name fallback t = lit fallback.
Proof.
  unfold unset, attribute_or. intros [-> | ->]; reflexivity.
Qed.

(** X2. A root without a usable structured payload and with none of
    the seven [data-] attributes, or with empty ones ([a || fallback] does
    not tell the two apart), is set up with the side [front], the active
    index 0, no masks and the style [draw] resolves to the three stock
    colours and the outline width 2. *)
Theorem bare_root_defaults (root : nat) (t : node) :
  aioeParseInternalFromDom root t = None ->
  unset root "data-side" t -> unset root "data-active" t ->
  unset root "data-masks-b64" t -> unset root "data-fill-front" t ->
  unset root "data-fill-other" t -> unset root "data-stroke" t ->
  unset root "data-outline-px" t ->
  attribute_or root "data-side" "front" t = lit "front"
  /\ resolve_payload root t = Normal (zero, [])
  /\ resolve_style root t = no_style
  /\ active_fill_color (resolve_style root t) = lit "rgba(40,40,40,0.85)"
  /\ other_fill_color (resolve_style root t) = lit "rgba(255,215,0,0.35)"
  /\ stroke_color (resolve_style root t) = lit "rgba(0,0,0,0.65)"
  /\ line_width (resolve_style root t) = two.
Proof.
  intros Hi Hs Ha Hm Hff Hfo Hst Hpx.
  assert (Hstyle : resolve_style root t = no_style).
  { unfold resolve_style.
    rewrite (attribute_or_unset _ _ _ _ Hff), (attribute_or_unset _ _ _ _ Hfo),
      (attribute_or_unset _ _ _ _ Hst), (attribute_or_unset _ _ _ _ Hpx).
    reflexivity. }
  split; [now apply attribute_or_unset|].
  split.
  - unfold resolve_payload. rewrite Hi. unfold legacy_payload.
    rewrite (attribute_or_unset _ _ _ _ Ha), (attribute_or_unset _ _ _ _ Hm).
    reflexivity.
  - rewrite Hstyle. repeat split.
Qed.

Lemma bare_root_defaults_witness :
  attribute_or 1 "data-side" "front" (document one_root_page) = lit "front"
  /\ resolve_payload 1 (document one_root_page) = Normal (zero, [])
  /\ resolve_style 1 (document one_root_page) = no_style
  /\ active_fill_color (resolve_style 1 (document one_root_page))
     = lit "rgba(40,40,40,0.85)"
  /\ other_fill_color (resolve_style 1 (document one_root_page))
     = lit "rgba(255,215,0,0.35)"
  /\ stroke_color (resolve_style 1 (document one_root_page))
     = lit "rgba(0,0,0,0.65)"
  /\ line_width (resolve_style 1 (document one_root_page)) = two.
Proof.
  apply (bare_root_defaults 1 (document one_root_page));
    try reflexivity; left; reflexivity.
Defined.

(** X3. The legacy mask list, for every attribute value.  Reading
    [parsed.masks] throws only a TypeError and exactly when the attribute
    decodes to the JSON text [null]; a decoded object hands over the array
    under its own [masks] whatever its [v] is; and a mask list that is not
    empty can only come from such an object. *)
Theorem legacy_masks_outcomes (b64 : jsstring) :
  (forall e, legacy_masks b64 = Abrupt e ->
     e = TypeError /\ parseMasksB64 b64 = Normal VNull)
  /\ (parseMasksB64 b64 = Normal VNull -> legacy_masks b64 = Abrupt TypeError)
  /\ (forall props items,
        parseMasksB64 b64 = Normal (VObj props) ->
        own_prop (lit "masks") props = Some (VArr items) ->
        legacy_masks b64 = Normal items)
  /\ (forall items,
        legacy_masks b64 = Normal items -> items <> [] ->
        exists props,
          parseMasksB64 b64 = Normal (VObj props)
          /\ own_prop (lit "masks") props = Some (VArr items)).
Proof.
  destruct (parseMasksB64_total b64) as [v Hv].
  unfold legacy_masks. rewrite Hv. cbn [bindC].
  split; [|split; [|split]].
  - intros e He. destruct v; try discriminate.
    + exfalso. unfold parseMasksB64 in Hv.
      destruct (b64ToUtf8_total b64) as [s Hs]. rewrite Hs in Hv.
      cbn [bindC] in Hv. unfold try_catch in Hv.
      destruct (JSON_parse s) eqn:Hj.
      * injection Hv as ->. now apply (JSON_parse_defined s VUndefined).
      * discriminate.
    + injection He as <-. now split.
    + unfold get_member in He.
      destruct (own_prop (lit "masks") props); discriminate.
  - intros H. injection H as ->. reflexivity.
  - intros props items H Hm. injection H as ->. unfold get_member.
    now rewrite Hm.
  - intros items H Hne.
    destruct v; try discriminate;
      try (injection H as <-; now elim Hne).
    exists props. split; [reflexivity|]. unfold get_member in H.
    destruct (own_prop (lit "masks") props) as [m|] eqn:Hm; cbn in H.
    + destruct m; cbn in H; injection H as <-; try now elim Hne.
      reflexivity.
    + injection H as <-. now elim Hne.
Qed.

Lemma legacy_masks_outcomes_witness :
  legacy_masks (lit "bnVsbA==") = Abrupt TypeError
  /\ legacy_masks one_mask_b64 = Normal [mask_value 0.5 0.25 0.25 0.5]%float.
Proof.
  split.
  - apply (proj1 (proj2 (legacy_masks_outcomes (lit "bnVsbA==")))).
    vm_compute. reflexivity.
  - apply (proj1 (proj2 (proj2 (legacy_masks_outcomes one_mask_b64)))
             [(lit "v", VNum one);
              (lit "masks", VArr [mask_value 0.5 0.25 0.25 0.5]%float)]);
      vm_compute; reflexivity.
Defined.

(* ================================================================== *)
(** * 16. Insertions into the tree                                       *)
(* ================================================================== *)

Lemma with_one_refl x a : with_one x a a.
Proof. now left. Qed.

Lemma with_one_filter (P : element -> bool) x a b :
  with_one x a b -> P x = false -> filter P b = filter P a.
Proof.
  intros [->|(l & r & -> & ->)] Hx; [reflexivity|].
  rewrite !filter_app. simpl. now rewrite Hx.
Qed.

Lemma with_one_app_l x a b c : with_one x a b -> with_one x (c ++ a) (c ++ b).
Proof.
  intros [->|(l & r & -> & ->)]; [now left|].
  right. exists (c ++ l), r. now rewrite !app_assoc.
Qed.

Lemma with_one_app_r x a b c : with_one x a b -> with_one x (a ++ c) (b ++ c).
Proof.
  intros [->|(l & r & -> & ->)]; [now left|].
  right. exists l, (r ++ c). now rewrite <- !app_assoc.
Qed.

Lemma with_one_length x a b : with_one x a b -> List.length a <= List.length b.
Proof.
  intros [->|(l & r & -> & ->)]; [lia|].
  rewrite !length_app. simpl. lia.
Qed.

Lemma with_one_in x a b y : with_one x a b -> In y a -> In y b.
Proof.
  intros [->|(l & r & -> & ->)]; [easy|].
  rewrite !in_app_iff. simpl. tauto.
Qed.

Lemma lifted_refl {A} (R : A -> A -> Prop) (o : option A) :
  (forall a, R a a) -> lifted R o o.
Proof. intros H. destruct o; simpl; auto. Qed.

Ltac flat_tidy :=
  rewrite ?flat_map_app; cbn [flat_map flatten app];
  rewrite ?app_nil_r, <- ?app_assoc; cbn [app].

(** An insertion puts exactly one element into the tree order. *)
Lemma flatten_inserted x t t' :
  inserted x t t' ->
  exists a b, flatten t = a ++ b /\ flatten t' = a ++ x :: b.
Proof.
  induction 1 as [e ks|e l n r|e l k k' r H (a & b & Ha & Hb)]; simpl.
  - exists (e :: flat_map flatten ks), []. flat_tidy. now split.
  - exists (e :: flat_map flatten l), (flatten n ++ flat_map flatten r).
    flat_tidy. now split.
  - exists (e :: flat_map flatten l ++ a), (b ++ flat_map flatten r).
    flat_tidy. rewrite Ha, Hb. flat_tidy. now split.
Qed.

Lemma flatten_with_one x t t' :
  inserted x t t' -> with_one x (flatten t) (flatten t').
Proof.
  intros H. destruct (flatten_inserted x t t' H) as (a & b & -> & ->).
  right. now exists a, b.
Qed.

Lemma inserted_plug x ctx :
  forall n n', inserted x n n' -> inserted x (plug ctx n) (plug ctx n').
Proof.
  induction ctx as [|f ctx IH]; intros n n' H; [exact H|].
  rewrite !plug_cons. apply IH. unfold fill. now constructor.
Qed.

Lemma view_inserted i x t t' :
  inserted x t t' -> nid x <> i ->
  lifted (fun v v' => fst v = fst v' /\ with_one x (snd v) (snd v'))
    (view i t) (view i t').
Proof.
  intros H Hx.
  induction H as [e ks|e l n r|e l k k' r H IH]; simpl.
  - destruct (Nat.eqb (nid e) i).
    + simpl. split; [reflexivity|]. right.
      exists (flat_map flatten ks), []. flat_tidy. now split.
    + rewrite first_some_app. simpl.
      destruct (Nat.eqb (nid x) i) eqn:E;
        [apply Nat.eqb_eq in E; contradiction|].
      destruct (first_some (view i) ks) as [v|]; simpl; auto using with_one_refl.
  - destruct (Nat.eqb (nid e) i).
    + simpl. split; [reflexivity|]. right.
      exists (flat_map flatten l), (flatten n ++ flat_map flatten r).
      flat_tidy. now split.
    + rewrite !first_some_app. simpl.
      destruct (Nat.eqb (nid x) i) eqn:E;
        [apply Nat.eqb_eq in E; contradiction|].
      destruct (first_some (view i) l) as [v|];
        [simpl; auto using with_one_refl|].
      destruct (view i n) as [v|]; [simpl; auto using with_one_refl|].
      apply lifted_refl. auto using with_one_refl.
  - destruct (Nat.eqb (nid e) i).
    + simpl. split; [reflexivity|].
      rewrite !flat_map_app. simpl.
      apply with_one_app_l, with_one_app_r. now apply flatten_with_one.
    + rewrite !first_some_app. simpl.
      destruct (first_some (view i) l) as [v|];
        [simpl; auto using with_one_refl|].
      destruct (view i k) as [v|], (view i k') as [v'|]; simpl in IH;
        try contradiction; [exact IH|].
      apply lifted_refl. auto using with_one_refl.
Qed.

Lemma chain_inserted i x t t' :
  inserted x t t' -> nid x <> i ->
  lifted (with_one x) (chain i t) (chain i t').
Proof.
  intros H Hx.
  induction H as [e ks|e l n r|e l k k' r H IH]; simpl.
  - destruct (Nat.eqb (nid e) i); [apply with_one_refl|].
    rewrite first_some_app. simpl.
    destruct (Nat.eqb (nid x) i) eqn:E;
      [apply Nat.eqb_eq in E; contradiction|].
    destruct (first_some (chain i) ks); simpl; auto using with_one_refl.
  - destruct (Nat.eqb (nid e) i); [apply with_one_refl|].
    rewrite !first_some_app. simpl.
    destruct (Nat.eqb (nid x) i) eqn:E;
      [apply Nat.eqb_eq in E; contradiction|].
    destruct (first_some (chain i) l); [apply with_one_refl|].
    destruct (chain i n) as [c|]; simpl.
    + right. exists c, [e]. now rewrite <- app_assoc.
    + apply lifted_refl, with_one_refl.
  - destruct (Nat.eqb (nid e) i); [apply with_one_refl|].
    rewrite !first_some_app. simpl.
    destruct (first_some (chain i) l); [apply with_one_refl|].
    destruct (chain i k) as [c|], (chain i k') as [c'|]; simpl in IH;
      try contradiction.
    + simpl. now apply with_one_app_r.
    + apply lifted_refl, with_one_refl.
Qed.

Lemma scan_view i e before after :
  Forall (fun k =>
            option_map (fun r => (node_elem (snd r), descendants (snd r)))
              (locate i k) = view i k) after ->
  option_map (fun r => (node_elem (snd r), descendants (snd r)))
    (scan (locate i) e before after)
  = first_some (view i) after.
Proof.
  intros H. revert before.
  induction H as [|k l Hk Hl IH]; intros before; simpl; [reflexivity|].
  rewrite <- Hk. destruct (locate i k) as [[c m]|]; simpl; [reflexivity|].
  apply IH.
Qed.

Lemma locate_view i t :
  option_map (fun r => (node_elem (snd r), descendants (snd r))) (locate i t)
  = view i t.
Proof.
  induction t as [e ks IH] using node_induction. simpl.
  destruct (Nat.eqb (nid e) i); [reflexivity|].
  now apply scan_view.
Qed.

Lemma root_attribute_view root name t :
  root_attribute root name t
  = match view root t with
    | Some (e, _) => getAttribute e name
    | None => None
    end.
Proof.
  unfold root_attribute. rewrite <- locate_view.
  destruct (locate root t) as [[ctx n]|]; reflexivity.
Qed.

Lemma querySelector_view i s t :
  querySelector i s t
  = match view i t with
    | Some (_, d) => find (matches s) d
    | None => None
    end.
Proof.
  unfold querySelector. rewrite <- locate_view.
  destruct (locate i t) as [[ctx n]|]; reflexivity.
Qed.

Lemma view_present i t :
  In i (map nid (flatten t)) -> exists e d, view i t = Some (e, d).
Proof.
  intros H. apply locate_present in H. rewrite <- locate_view.
  destruct (locate i t) as [[ctx n]|]; [|contradiction].
  simpl. eauto.
Qed.

Lemma locate_present_in i t :
  locate i t <> None -> In i (map nid (flatten t)).
Proof.
  intros H. destruct (in_dec Nat.eq_dec i (map nid (flatten t))) as [Hin|Hn];
    [exact Hin|].
  elim H. now apply locate_absent.
Qed.

Lemma attached_chain i t :
  attached i t <-> exists c, chain i t = Some c /\ 2 <= List.length c.
Proof.
  rewrite attached_locate, <- locate_chain. split.
  - intros (f & up & n & ->). simpl. eexists. split; [reflexivity|].
    simpl. lia.
  - intros (c & H & Hlen). destruct (locate i t) as [[[|f up] n]|];
      simpl in H; try discriminate.
    + injection H as <-. simpl in Hlen. lia.
    + eauto.
Qed.

Lemma with_one_find (P : element -> bool) x a b :
  with_one x a b -> P x = false -> find P b = find P a.
Proof.
  intros [->|(l & r & -> & ->)] Hx; [reflexivity|].
  induction l as [|y l IH]; simpl; [now rewrite Hx|].
  destruct (P y); [reflexivity|exact IH].
Qed.

Lemma scaffolding_not_script : skips_scaffolding sel_script.
Proof.
  intros x [_ [H|H]]; unfold matches, sel_script; simpl; now rewrite H.
Qed.

Lemma scaffolding_not_img : skips_scaffolding sel_img.
Proof.
  intros x [_ [H|H]]; unfold matches, sel_img; simpl; now rewrite H.
Qed.

Lemma scaffolding_not_root : skips_scaffolding sel_root.
Proof.
  intros x [H _]. unfold matches, sel_root, getAttribute; simpl.
  now rewrite H.
Qed.

Lemma new_wrap_scaffolding t : scaffolding_element (new_wrap t).
Proof. split; [reflexivity|now left]. Qed.

Lemma new_canvas_scaffolding t : scaffolding_element (new_canvas t).
Proof. split; [reflexivity|now right]. Qed.

(** What one insertion of a new element leaves as it was, seen from an
    element of the tree. *)
Lemma inserted_view i x t t' :
  inserted x t t' ->
  ~ In (nid x) (map nid (flatten t)) ->
  In i (map nid (flatten t)) ->
  In i (map nid (flatten t'))
  /\ exists e d d',
       view i t = Some (e, d) /\ view i t' = Some (e, d')
       /\ with_one x d d'.
Proof.
  intros H Hx Hi.
  assert (Hne : nid x <> i) by (intros E; rewrite E in Hx; contradiction).
  split.
  - apply in_map_iff in Hi. destruct Hi as (y & <- & Hy).
    apply in_map.
    exact (with_one_in x _ _ y (flatten_with_one x t t' H) Hy).
  - destruct (view_present i t Hi) as (e & d & Hv).
    pose proof (view_inserted i x t t' H Hne) as Hl. rewrite Hv in Hl.
    destruct (view i t') as [[e' d']|]; simpl in Hl; [|contradiction].
    destruct Hl as [He Hd]. simpl in He, Hd. subst e'. now exists e, d, d'.
Qed.

Lemma inserted_attached i x t t' :
  inserted x t t' -> nid x <> i -> attached i t -> attached i t'.
Proof.
  intros H Hne. rewrite !attached_chain. intros (c & Hc & Hlen).
  pose proof (chain_inserted i x t t' H Hne) as Hl. rewrite Hc in Hl.
  destruct (chain i t') as [c'|]; simpl in Hl; [|contradiction].
  exists c'. split; [reflexivity|]. apply with_one_length in Hl. lia.
Qed.

Lemma inserted_well_formed x t t' :
  inserted x t t' -> ~ In (nid x) (map nid (flatten t)) ->
  well_formed t -> well_formed t'.
Proof.
  unfold well_formed. intros H Hx Hwf.
  destruct (flatten_inserted x t t' H) as (a & b & Ha & Hb).
  rewrite Ha in Hwf, Hx. rewrite Hb.
  rewrite map_app in *. simpl.
  apply (NoDup_Add (Add_app (nid x) (map nid a) (map nid b))).
  now split.
Qed.

Lemma inserted_descendants x t t' :
  inserted x t t' ->
  node_elem t' = node_elem t /\ with_one x (descendants t) (descendants t').
Proof.
  intros H. destruct H as [e ks|e l n r|e l k k' r H]; unfold descendants;
    simpl; (split; [reflexivity|]).
  - right. exists (flat_map flatten ks), []. flat_tidy. now split.
  - right. exists (flat_map flatten l), (flatten n ++ flat_map flatten r).
    flat_tidy. now split.
  - rewrite !flat_map_app. simpl.
    apply with_one_app_l, with_one_app_r. now apply flatten_with_one.
Qed.

(** ** What scaffolding leaves as it was *)

Lemma scaffolds_trans t1 t2 t3 :
  scaffolds_to t1 t2 -> scaffolds_to t2 t3 -> scaffolds_to t1 t3.
Proof.
  induction 1 as [t|t ta tb x Hs Hx Hi Hrest IH]; intros H; [exact H|].
  eapply scaffolds_step; eauto.
Qed.

Lemma scaffolds_well_formed t t' :
  scaffolds_to t t' -> well_formed t -> well_formed t'.
Proof.
  induction 1 as [t|t ta tb x Hs Hx Hi Hrest IH]; intros H; [exact H|].
  apply IH. now apply (inserted_well_formed x t ta).
Qed.

Lemma scaffolds_present i t t' :
  scaffolds_to t t' ->
  In i (map nid (flatten t)) -> In i (map nid (flatten t')).
Proof.
  induction 1 as [t|t ta tb x Hs Hx Hi Hrest IH]; intros H; [exact H|].
  apply IH. now apply (inserted_view i x t ta Hi Hx H).
Qed.

Lemma scaffolds_attached i t t' :
  scaffolds_to t t' -> attached i t -> attached i t'.
Proof.
  induction 1 as [t|t ta tb x Hs Hx Hi Hrest IH]; intros H; [exact H|].
  apply IH. apply (inserted_attached i x t ta Hi); [|exact H].
  intros E. apply Hx. rewrite E. apply locate_present_in.
  now apply attached_present.
Qed.

Lemma scaffolds_view i t t' :
  scaffolds_to t t' ->
  In i (map nid (flatten t)) ->
  exists e d d',
    view i t = Some (e, d) /\ view i t' = Some (e, d')
    /\ forall s, skips_scaffolding s ->
         find (matches s) d' = find (matches s) d.
Proof.
  induction 1 as [t|t ta tb x Hs Hx Hi Hrest IH]; intros Hin.
  - destruct (view_present i t Hin) as (e & d & Hv).
    now exists e, d, d.
  - destruct (inserted_view i x t ta Hi Hx Hin)
      as (Hin' & e & d & d1 & Hv & Hv1 & Hone).
    destruct (IH Hin') as (e' & d1' & d2 & Hv1' & Hv2 & Hfind).
    rewrite Hv1 in Hv1'. injection Hv1' as <- <-.
    exists e, d, d2. split; [exact Hv|]. split; [exact Hv2|].
    intros s Hskip. rewrite (Hfind s Hskip).
    apply (with_one_find _ x); [exact Hone|]. now apply Hskip.
Qed.

Lemma scaffolds_root_attribute root name t t' :
  scaffolds_to t t' -> In root (map nid (flatten t)) ->
  root_attribute root name t' = root_attribute root name t.
Proof.
  intros H Hin.
  destruct (scaffolds_view root t t' H Hin) as (e & d & d' & Hv & Hv' & _).
  now rewrite !root_attribute_view, Hv, Hv'.
Qed.

Lemma scaffolds_attribute_or root name fallback t t' :
  scaffolds_to t t' -> In root (map nid (flatten t)) ->
  attribute_or root name fallback t' = attribute_or root name fallback t.
Proof.
  intros H Hin. unfold attribute_or.
  now rewrite (scaffolds_root_attribute root name t t' H Hin).
Qed.

Lemma scaffolds_querySelector root s t t' :
  scaffolds_to t t' -> In root (map nid (flatten t)) ->
  skips_scaffolding s ->
  querySelector root s t' = querySelector root s t.
Proof.
  intros H Hin Hs.
  destruct (scaffolds_view root t t' H Hin) as (e & d & d' & Hv & Hv' & Hf).
  rewrite !querySelector_view, Hv, Hv'. now apply Hf.
Qed.

Lemma scaffolds_querySelectorAll s t t' :
  scaffolds_to t t' -> skips_scaffolding s ->
  querySelectorAll s t' = querySelectorAll s t.
Proof.
  intros H Hs. unfold querySelectorAll. f_equal.
  induction H as [t|t ta tb x Hx Hfresh Hi Hrest IH]; [reflexivity|].
  rewrite IH. destruct (inserted_descendants x t ta Hi) as [_ Hone].
  apply (with_one_filter _ x); [exact Hone|]. now apply Hs.
Qed.

Lemma scaffolds_payload root t t' :
  scaffolds_to t t' -> In root (map nid (flatten t)) ->
  resolve_payload root t' = resolve_payload root t.
Proof.
  intros H Hin. unfold resolve_payload, aioeParseInternalFromDom,
    parse_internal, legacy_payload.
  rewrite (scaffolds_querySelector root sel_script t t' H Hin
             scaffolding_not_script).
  now rewrite !(scaffolds_attribute_or root _ _ t t' H Hin).
Qed.

Lemma scaffolds_style root t t' :
  scaffolds_to t t' -> In root (map nid (flatten t)) ->
  resolve_style root t' = resolve_style root t.
Proof.
  intros H Hin. unfold resolve_style.
  now rewrite !(scaffolds_attribute_or root _ _ t t' H Hin).
Qed.

(** ** The script only scaffolds *)

Lemma clear_before i ctx :
  ~ In i (map nid (elems_before ctx)) -> clear_of i ctx.
Proof.
  intros Hb. induction ctx as [|f ctx IH]; constructor.
  - simpl in Hb. rewrite map_app in Hb. simpl in Hb. split.
    + intros Hf. apply Hb. apply in_or_app. right. now left.
    + apply Forall_forall. intros k Hk. apply locate_absent.
      intros Hi. apply Hb. apply in_or_app. right. right.
      rewrite in_map_iff in *. destruct Hi as (x & Hx & Hxin).
      exists x. split; [assumption|]. apply in_flat_map. now exists k.
  - apply IH. intros H. apply Hb. simpl. rewrite map_app.
    apply in_or_app. now left.
Qed.

Lemma ensureWrapper_scaffolds img p :
  scaffolds_to (document p) (document (page_of (ensureWrapper img p))).
Proof.
  destruct (closest img sel_wrap (document p)) as [w|] eqn:Hc.
  - rewrite (ensureWrapper_finds img p w Hc). constructor.
  - destruct (locate img (document p)) as [[[|f up] n]|] eqn:Hloc.
    + unfold ensureWrapper, bind, dom_get, parentNode.
      rewrite Hc, Hloc. constructor.
    + rewrite (ensureWrapper_creates img p f up n Hloc Hc). simpl.
      destruct (locate_sound _ _ _ _ Hloc) as (Hplug & _ & _).
      refine (scaffolds_step _ _ _ (new_wrap (document p)) _ _ _
                (scaffolds_refl _));
        [apply new_wrap_scaffolding|apply fresh_id_absent|].
      rewrite <- Hplug at 2. rewrite !plug_cons.
      apply inserted_plug. unfold fill. constructor.
    + unfold ensureWrapper, bind, dom_get, parentNode.
      rewrite Hc, Hloc. constructor.
Qed.

Lemma makeCanvas_scaffolds wrap p :
  scaffolds_to (document p) (document (page_of (makeCanvas wrap p))).
Proof.
  destruct (querySelector wrap sel_canvas (document p)) as [cv|] eqn:Hq.
  - rewrite (makeCanvas_finds wrap p cv Hq). constructor.
  - destruct (locate wrap (document p)) as [[ctx [e ks]]|] eqn:Hloc.
    + rewrite (makeCanvas_creates wrap p ctx e ks Hloc Hq). simpl.
      destruct (locate_sound _ _ _ _ Hloc) as (Hplug & _ & _).
      refine (scaffolds_step _ _ _ (new_canvas (document p)) _ _ _
                (scaffolds_refl _));
        [apply new_canvas_scaffolding|apply fresh_id_absent|].
      rewrite <- Hplug at 2. apply inserted_plug. constructor.
    + unfold makeCanvas, bind, dom_get, dom_update, appendChild_new.
      rewrite Hq, Hloc. constructor.
Qed.

Lemma draw_document env c p :
  document (page_of (draw env c p))
  = document
      (page_of
         (makeCanvas (match ensureWrapper (dc_img c) p with
                      | Ok w _ => w
                      | Throw _ _ => 0
                      end)
            (page_of (ensureWrapper (dc_img c) p))))
    \/ document (page_of (draw env c p))
       = document (page_of (ensureWrapper (dc_img c) p)).
Proof.
  rewrite draw_stages.
  destruct (ensureWrapper (dc_img c) p) as [w p1|e p1]; [|now right].
  left. simpl page_of at 2.
  destruct (makeCanvas w p1) as [cv p2|e p2]; [|reflexivity].
  apply tail_document.
Qed.

Lemma draw_scaffolds_to env c p :
  scaffolds_to (document p) (document (page_of (draw env c p))).
Proof.
  destruct (draw_document env c p) as [-> | ->].
  - eapply scaffolds_trans; [apply ensureWrapper_scaffolds|].
    apply makeCanvas_scaffolds.
  - apply ensureWrapper_scaffolds.
Qed.

(** ** A wrapper put around one image and the wrappers of the others *)

Lemma find_app_none {A} (P : A -> bool) (l : list A) (e : A) :
  P e = false -> find P (l ++ [e]) = find P l.
Proof.
  intros He. induction l as [|y l IH]; simpl; [now rewrite He|].
  destruct (P y); [reflexivity|exact IH].
Qed.

Lemma find_app_some {A} (P : A -> bool) (l r : list A) :
  find P l <> None -> find P (l ++ r) = find P l.
Proof.
  induction l as [|y l IH]; simpl; [congruence|].
  destruct (P y); [reflexivity|exact IH].
Qed.

Lemma find_none_all {A} (P : A -> bool) (l : list A) :
  find P l = None -> Forall (fun y => P y = false) l.
Proof.
  induction l as [|y l IH]; simpl; [constructor|].
  destruct (P y) eqn:E; [discriminate|]. intros H. constructor; auto.
Qed.

Lemma enclosed_plug P x ctx :
  Forall (fun f => P (f_elem f) = false) ctx ->
  forall n n', enclosed P x n n' -> enclosed P x (plug ctx n) (plug ctx n').
Proof.
  induction 1 as [|f ctx Hf Hctx IH]; intros n n' H; [exact H|].
  rewrite !plug_cons. apply IH. unfold fill. now constructor.
Qed.

Lemma chain_enclosed P j x t t' :
  enclosed P x t t' -> nid x <> j ->
  lifted (fun c c' => find P c <> None -> find P c' = find P c)
    (chain j t) (chain j t').
Proof.
  intros H Hx.
  induction H as [e l n r He|e l k k' r He H IH]; simpl.
  - destruct (Nat.eqb (nid e) j); [simpl; auto|].
    rewrite !first_some_app. simpl.
    destruct (Nat.eqb (nid x) j) eqn:E;
      [apply Nat.eqb_eq in E; contradiction|].
    destruct (first_some (chain j) l); [simpl; auto|].
    destruct (chain j n) as [c|]; simpl.
    + rewrite !(find_app_none P _ e He). intros Hc.
      now apply find_app_some.
    + apply lifted_refl. auto.
  - destruct (Nat.eqb (nid e) j); [simpl; auto|].
    rewrite !first_some_app. simpl.
    destruct (first_some (chain j) l); [simpl; auto|].
    destruct (chain j k) as [c|], (chain j k') as [c'|]; simpl in IH;
      try contradiction.
    + simpl. now rewrite !(find_app_none P _ e He).
    + apply lifted_refl. auto.
Qed.

Lemma with_one_find_some (P : element -> bool) x a b :
  with_one x a b -> find P a <> None -> find P b <> None.
Proof.
  intros [->|(l & r & -> & ->)]; [easy|].
  induction l as [|y l IH]; simpl.
  - destruct (P x); [discriminate|easy].
  - destruct (P y); [discriminate|exact IH].
Qed.

Lemma closest_in_tree i s t w :
  closest i s t = Some w -> In w (map nid (flatten t)).
Proof.
  intros H. apply locate_present_in. now apply (closest_present i s t w).
Qed.

(** One insertion of a new element leaves every wrapper with a canvas
    with one. *)
Lemma inserted_has_canvas w x t t' :
  inserted x t t' ->
  ~ In (nid x) (map nid (flatten t)) ->
  In w (map nid (flatten t)) ->
  querySelector w sel_canvas t <> None ->
  querySelector w sel_canvas t' <> None.
Proof.
  intros H Hx Hw.
  destruct (inserted_view w x t t' H Hx Hw) as (_ & e & d & d' & Hv & Hv' & Hone).
  rewrite !querySelector_view, Hv, Hv'.
  exact (with_one_find_some _ x d d' Hone).
Qed.

Lemma scaffolds_has_canvas w t t' :
  scaffolds_to t t' ->
  In w (map nid (flatten t)) ->
  querySelector w sel_canvas t <> None ->
  querySelector w sel_canvas t' <> None.
Proof.
  induction 1 as [t|t ta tb x Hx Hfresh Hi Hrest IH]; intros Hwin Hq;
    [exact Hq|].
  apply IH.
  - now apply (inserted_view w x t ta Hi Hfresh Hwin).
  - now apply (inserted_has_canvas w x t ta).
Qed.

Lemma ensureWrapper_keeps_scaffolded img p j :
  scaffolded j (document p) ->
  scaffolded j (document (page_of (ensureWrapper img p))).
Proof.
  intros (w & cv & Hw & Hcv).
  destruct (closest img sel_wrap (document p)) as [w0|] eqn:Hc.
  - rewrite (ensureWrapper_finds img p w0 Hc). now exists w, cv.
  - destruct (locate img (document p)) as [[[|f up] n]|] eqn:Hloc.
    + unfold ensureWrapper, bind, dom_get, parentNode.
      rewrite Hc, Hloc. now exists w, cv.
    + rewrite (ensureWrapper_creates img p f up n Hloc Hc). simpl.
      destruct (locate_sound _ _ _ _ Hloc) as (Hplug & _ & _).
      pose proof (fresh_id_absent (document p)) as Hfresh.
      change (fresh_id (document p)) with (nid (new_wrap (document p)))
        in Hfresh.
      remember (new_wrap (document p)) as x eqn:Ex. clear Ex.
      assert (Hall : Forall (fun g => matches sel_wrap (f_elem g) = false)
                       (f :: up)).
      { unfold closest in Hc. rewrite Hloc in Hc.
        destruct (find (matches sel_wrap) (node_elem n :: map f_elem (f :: up)))
          eqn:Hf; [discriminate|].
        apply find_none_all in Hf. apply Forall_inv_tail in Hf.
        now apply Forall_map in Hf. }
      assert (Henc : enclosed (matches sel_wrap) x (document p)
                       (plug (f :: up) (Node x [n]))).
      { rewrite <- Hplug at 1. rewrite !plug_cons.
        inversion Hall as [|? ? Hf Hup]; subst.
        apply enclosed_plug; [exact Hup|]. unfold fill. now constructor. }
      assert (Hins : inserted x (document p) (plug (f :: up) (Node x [n]))).
      { rewrite <- Hplug at 1. rewrite !plug_cons.
        apply inserted_plug. unfold fill. constructor. }
      assert (Hj : locate j (document p) <> None).
      { unfold closest in Hw. destruct (locate j (document p)); [|discriminate].
        discriminate. }
      assert (Hxj : nid x <> j).
      { intros E. apply Hfresh. rewrite E. now apply locate_present_in. }
      pose proof (closest_in_tree _ _ _ _ Hw) as Hwin.
      exists w.
      assert (Hw' : closest j sel_wrap (plug (f :: up) (Node x [n])) = Some w).
      { pose proof (chain_enclosed _ j x _ _ Henc Hxj) as Hl.
        rewrite closest_chain in Hw |- *.
        destruct (chain j (document p)) as [c|]; [|discriminate].
        destruct (chain j (plug (f :: up) (Node x [n]))) as [c'|];
          simpl in Hl; [|contradiction].
        rewrite Hl; [exact Hw|].
        destruct (find (matches sel_wrap) c); discriminate. }
      pose proof (inserted_has_canvas w x _ _ Hins Hfresh Hwin) as Hq.
      rewrite Hcv in Hq.
      destruct (querySelector w sel_canvas (plug (f :: up) (Node x [n])))
        as [cv'|] eqn:Hq'; [now exists cv'|].
      exfalso. apply Hq; [discriminate|reflexivity].
    + unfold ensureWrapper, bind, dom_get, parentNode.
      rewrite Hc, Hloc. now exists w, cv.
Qed.

Lemma makeCanvas_keeps_scaffolded wrap p j :
  scaffolded j (document p) ->
  scaffolded j (document (page_of (makeCanvas wrap p))).
Proof.
  intros (w & cv & Hw & Hcv).
  destruct (makeCanvas wrap p) as [c p1|e p1] eqn:Hm; simpl.
  - exists w.
    assert (Hj : locate j (document p) <> None).
    { unfold closest in Hw. destruct (locate j (document p)); discriminate. }
    rewrite (makeCanvas_closest wrap p c p1 j sel_wrap Hm Hj).
    pose proof (makeCanvas_scaffolds wrap p) as Hs. rewrite Hm in Hs.
    simpl in Hs.
    assert (Hq : querySelector w sel_canvas (document p1) <> None).
    { apply (scaffolds_has_canvas w (document p)); [exact Hs| |].
      - now apply (closest_in_tree j sel_wrap).
      - rewrite Hcv. discriminate. }
    destruct (querySelector w sel_canvas (document p1)) as [cv'|];
      [now exists cv'|now elim Hq].
  - pose proof (makeCanvas_only_document wrap p) as Hd. rewrite Hm in Hd.
    simpl in Hd.
    destruct (querySelector wrap sel_canvas (document p)) as [cv0|] eqn:Hq.
    + rewrite (makeCanvas_finds wrap p cv0 Hq) in Hm. discriminate.
    + destruct (locate wrap (document p)) as [[ctx [e0 ks]]|] eqn:Hloc.
      * rewrite (makeCanvas_creates wrap p ctx e0 ks Hloc Hq) in Hm.
        discriminate.
      * unfold makeCanvas, bind, dom_get, dom_update, appendChild_new in Hm.
        rewrite Hq, Hloc in Hm. injection Hm as _ <-. now exists w, cv.
Qed.

Lemma draw_keeps_scaffolded env c p j :
  scaffolded j (document p) ->
  scaffolded j (document (page_of (draw env c p))).
Proof.
  intros H. destruct (draw_document env c p) as [-> | ->].
  - now apply makeCanvas_keeps_scaffolded, ensureWrapper_keeps_scaffolded.
  - now apply ensureWrapper_keeps_scaffolded.
Qed.

(* ================================================================== *)
(** * 17. Scaffolding in place                                           *)
(* ================================================================== *)

(** X4. Whatever [draw] does to the document keeps it sound, whether
    it returns, defers or throws: element identities stay unique, no
    element leaves the tree, an element that has a parent still has one,
    and an image that has its wrapper and canvas still has them, so a
    draw for one image never undoes the scaffolding of another. *)
Theorem draw_keeps_tree_sound (env : environment) (c : draw_call) (p : page) :
  let p' := page_of (draw env c p) in
  (well_formed (document p) -> well_formed (document p'))
  /\ (forall i, In i (map nid (flatten (document p))) ->
                In i (map nid (flatten (document p'))))
  /\ (forall i, attached i (document p) -> attached i (document p'))
  /\ (forall i, scaffolded i (document p) -> scaffolded i (document p')).
Proof.
  intros p'. pose proof (draw_scaffolds_to env c p) as H. fold p' in H.
  split; [|split; [|split]].
  - now apply scaffolds_well_formed.
  - intros i. now apply scaffolds_present.
  - intros i. now apply scaffolds_attached.
  - intros i. apply draw_keeps_scaffolded.
Qed.

(** X5. The wrapper and the canvas that [draw] adds are invisible to
    everything [init] and [initOne] read.  For a root of the document,
    before and after any [draw] on any image: the side, the resolved
    payload (structured or legacy), the resolved style and the image the
    root selects are the same, and so is the list of overlay roots. *)
Theorem draw_leaves_reads (env : environment) (c : draw_call) (p : page)
  (root : nat) :
  In root (map nid (flatten (document p))) ->
  let t := document p in
  let t' := document (page_of (draw env c p)) in
  attribute_or root "data-side" "front" t'
  = attribute_or root "data-side" "front" t
  /\ resolve_payload root t' = resolve_payload root t
  /\ resolve_style root t' = resolve_style root t
  /\ querySelector root sel_img t' = querySelector root sel_img t
  /\ querySelectorAll sel_root t' = querySelectorAll sel_root t.
Proof.
  intros Hin t t'. pose proof (draw_scaffolds_to env c p) as H.
  fold t t' in H. repeat split.
  - now apply scaffolds_attribute_or.
  - now apply scaffolds_payload.
  - now apply scaffolds_style.
  - apply scaffolds_querySelector; auto using scaffolding_not_img.
  - apply scaffolds_querySelectorAll; auto using scaffolding_not_root.
Qed.

Lemma draw_leaves_reads_witness :
  In 1 (map nid (flatten (document stale_page)))
  /\ (let t := document stale_page in
      let t' := document (page_of (draw sample_env (sample_call "front")
                                     stale_page)) in
      attribute_or 1 "data-side" "front" t'
      = attribute_or 1 "data-side" "front" t
      /\ resolve_payload 1 t' = resolve_payload 1 t
      /\ resolve_style 1 t' = resolve_style 1 t
      /\ querySelector 1 sel_img t' = querySelector 1 sel_img t
      /\ querySelectorAll sel_root t' = querySelectorAll sel_root t).
Proof.
  split; [simpl; tauto|].
  apply (draw_leaves_reads sample_env (sample_call "front") stale_page 1).
  simpl; tauto.
Defined.

(** X6. [ensureWrapper] on an image that has a parent and no wrapper
    puts the new [div.aioe-wrap] exactly where the image was: the
    wrapper's parent is the image's former parent, the image's parent is
    the wrapper, the wrapper holds the image with its subtree and nothing
    else, and in tree order the only change is the wrapper right before
    the image. *)
Theorem ensureWrapper_wraps_in_place (img : nat) (p : page) (parent : nat) :
  parentNode img (document p) = Some parent ->
  closest img sel_wrap (document p) = None ->
  let w := new_wrap (document p) in
  exists p1 e d a b,
    ensureWrapper img p = Ok (nid w) p1
    /\ parentNode img (document p1) = Some (nid w)
    /\ parentNode (nid w) (document p1) = Some parent
    /\ view img (document p) = Some (e, d)
    /\ view img (document p1) = Some (e, d)
    /\ view (nid w) (document p1) = Some (w, e :: d)
    /\ flatten (document p) = a ++ e :: b
    /\ flatten (document p1) = a ++ w :: e :: b.
Proof.
  intros Hp Hc. cbv zeta.
  pose proof (fresh_id_absent (document p)) as Hfresh.
  change (fresh_id (document p)) with (nid (new_wrap (document p))) in Hfresh.
  pose proof (ensureWrapper_creates img p) as Hcreate.
  remember (new_wrap (document p)) as w eqn:Ew. clear Ew.
  unfold parentNode in Hp.
  destruct (locate img (document p)) as [[[|f up] n]|] eqn:Hloc;
    try discriminate.
  injection Hp as Hp.
  destruct (locate_sound _ _ _ _ Hloc) as (Hplug & Hid & Hclear).
  assert (Hne : Nat.eqb (nid w) img = false).
  { apply Nat.eqb_neq. intros E. rewrite E in Hfresh.
    apply locate_absent in Hfresh. congruence. }
  assert (Hin : locate img (Node w [n]) = Some ([mk_frame w [] []], n)).
  { simpl. rewrite Hne. now rewrite (locate_here _ n Hid). }
  assert (Himg : locate img (plug (f :: up) (Node w [n]))
                 = Some ([mk_frame w [] []] ++ f :: up, n))
    by apply (locate_into _ _ _ _ _ Hclear Hin).
  assert (Hw : locate (nid w) (plug (f :: up) (Node w [n]))
               = Some ([] ++ f :: up, Node w [n])).
  { apply locate_into; [|now apply locate_here].
    apply (absent_clear _ _ n). now rewrite Hplug. }
  exists (with_document p (plug (f :: up) (Node w [n]))),
    (node_elem n), (descendants n),
    (elems_before (f :: up)),
    (descendants n ++ elems_after (f :: up)).
  split; [apply (Hcreate f up n eq_refl Hc)|].
  simpl document. unfold parentNode. rewrite Himg, Hw.
  split; [reflexivity|]. split; [simpl; now rewrite Hp|].
  rewrite <- !locate_view, Hloc, Himg, Hw. simpl.
  split; [reflexivity|]. split; [reflexivity|].
  split. { unfold descendants at 1. simpl. now rewrite app_nil_r, flatten_head. }
  rewrite <- Hplug at 1. rewrite !flatten_plug. simpl flatten.
  rewrite app_nil_r, !flatten_head.
  split; simpl; rewrite <- ?app_assoc; simpl; rewrite <- ?app_assoc;
    reflexivity.
Qed.

Lemma ensureWrapper_wraps_in_place_witness :
  let w := new_wrap (document one_root_page) in
  exists p1 e d a b,
    ensureWrapper 2 one_root_page = Ok (nid w) p1
    /\ parentNode 2 (document p1) = Some (nid w)
    /\ parentNode (nid w) (document p1) = Some 1
    /\ view 2 (document one_root_page) = Some (e, d)
    /\ view 2 (document p1) = Some (e, d)
    /\ view (nid w) (document p1) = Some (w, e :: d)
    /\ flatten (document one_root_page) = a ++ e :: b
    /\ flatten (document p1) = a ++ w :: e :: b.
Proof.
  apply (ensureWrapper_wraps_in_place 2 one_root_page 1); reflexivity.
Defined.

(** X7. [makeCanvas] on a wrapper of the document that has no
    [canvas.aioe-cv] below it adds the new canvas as the wrapper's last
    child: the wrapper's descendants are the former ones followed by the
    canvas, the canvas has the wrapper as parent and no descendants. *)
Theorem makeCanvas_appends_last (wrap : nat) (p : page) :
  In wrap (map nid (flatten (document p))) ->
  querySelector wrap sel_canvas (document p) = None ->
  let cv := new_canvas (document p) in
  exists p1 e d,
    makeCanvas wrap p = Ok (nid cv) p1
    /\ view wrap (document p) = Some (e, d)
    /\ view wrap (document p1) = Some (e, d ++ [cv])
    /\ parentNode (nid cv) (document p1) = Some wrap
    /\ view (nid cv) (document p1) = Some (cv, []).
Proof.
  intros Hin Hq. cbv zeta.
  pose proof (fresh_id_absent (document p)) as Hfresh.
  change (fresh_id (document p)) with (nid (new_canvas (document p)))
    in Hfresh.
  pose proof (makeCanvas_creates wrap p) as Hcreate.
  remember (new_canvas (document p)) as cv eqn:Ecv. clear Ecv.
  apply locate_present in Hin.
  destruct (locate wrap (document p)) as [[ctx [e ks]]|] eqn:Hloc;
    [clear Hin|contradiction].
  destruct (locate_sound _ _ _ _ Hloc) as (Hplug & Hid & Hclear).
  simpl in Hid.
  assert (Hw : locate wrap (plug ctx (Node e (ks ++ [Node cv []])))
               = Some ([] ++ ctx, Node e (ks ++ [Node cv []])))
    by (apply locate_into; [exact Hclear|now apply locate_here]).
  assert (Hcv : locate (nid cv) (plug (mk_frame e ks [] :: ctx) (Node cv []))
                = Some ([] ++ mk_frame e ks [] :: ctx, Node cv [])).
  { apply locate_into; [|now apply locate_here].
    apply clear_before. intros H. apply Hfresh.
    rewrite <- Hplug, flatten_plug, !map_app. simpl in H.
    rewrite map_app in H. simpl in H. rewrite !in_app_iff in *. simpl.
    tauto. }
  rewrite plug_cons in Hcv. unfold fill in Hcv. simpl in Hcv.
  exists (with_document p (plug ctx (Node e (ks ++ [Node cv []])))),
    e, (flat_map flatten ks).
  split; [apply (Hcreate ctx e ks eq_refl Hq)|].
  simpl document. unfold parentNode.
  rewrite <- !locate_view, Hloc, Hw, Hcv. simpl.
  unfold descendants. simpl. rewrite flat_map_app. simpl.
  now rewrite Hid.
Qed.

Lemma makeCanvas_appends_last_witness :
  let p := page_of (ensureWrapper 2 one_root_page) in
  let cv := new_canvas (document p) in
  exists p1 e d,
    makeCanvas 3 p = Ok (nid cv) p1
    /\ view 3 (document p) = Some (e, d)
    /\ view 3 (document p1) = Some (e, d ++ [cv])
    /\ parentNode (nid cv) (document p1) = Some 3
    /\ view (nid cv) (document p1) = Some (cv, []).
Proof.
  apply (makeCanvas_appends_last 3 (page_of (ensureWrapper 2 one_root_page)));
    [simpl; tauto|reflexivity].
Defined.

(* ================================================================== *)
(** * 18. One canvas per draw                                            *)
(* ================================================================== *)

Lemma find_put_other cv other s l :
  other <> cv -> find_surface other (put_surface cv s l) = find_surface other l.
Proof.
  intros Hne. induction l as [|[k s'] l IH]; simpl.
  - destruct (Nat.eqb cv other) eqn:E; [|reflexivity].
    apply Nat.eqb_eq in E. congruence.
  - destruct (Nat.eqb k cv) eqn:E; simpl.
    + apply Nat.eqb_eq in E. subst k.
      destruct (Nat.eqb cv other) eqn:E'; [|reflexivity].
      apply Nat.eqb_eq in E'. congruence.
    + destruct (Nat.eqb k other); [reflexivity|exact IH].
Qed.

Lemma so_ret {A} cv (a : A) : spares_others cv (ret a).
Proof. now intros p other _. Qed.

Lemma so_throw {A} cv e : spares_others cv (@throw A e).
Proof. now intros p other _. Qed.

Lemma so_lift {A} cv (c : completion A) : spares_others cv (lift c).
Proof. destruct c; [apply so_ret|apply so_throw]. Qed.

Lemma so_update cv f : spares_others cv (update_surface cv f).
Proof.
  intros p other Hne. unfold update_surface, get_surface. simpl.
  now rewrite find_put_other.
Qed.

Lemma so_bind {A B} cv (m : M A) (k : A -> M B) :
  spares_others cv m -> (forall a, spares_others cv (k a)) ->
  spares_others cv (bind m k).
Proof.
  intros Hm Hk p other Hne. unfold bind. specialize (Hm p other Hne).
  destruct (m p) as [a p'|e p']; simpl in Hm.
  - now rewrite (Hk a p' other Hne).
  - exact Hm.
Qed.

Lemma so_forEach_from {A} cv (l : list A) body :
  (forall x i, spares_others cv (body x i)) ->
  forall idx, spares_others cv (forEach_from idx l body).
Proof.
  intros Hb. induction l as [|x l IH]; intros idx; simpl.
  - apply so_ret.
  - apply so_bind; [apply Hb|]. intros _. apply IH.
Qed.

Lemma paint_mask_spares side ai ff fo st lw r cv m idx :
  spares_others cv (paint_mask side ai ff fo st lw r cv m idx).
Proof.
  unfold paint_mask. apply so_bind; [apply so_lift|].
  intros [[[x y] w] h].
  repeat first [apply so_bind; [|intros _] | apply so_update | apply so_ret
               | match goal with |- spares_others _ (if ?b then _ else _) =>
                   destruct b end].
Qed.

Lemma size_and_paint_spares env c r cv :
  spares_others cv (size_and_paint env c r cv).
Proof.
  unfold size_and_paint.
  repeat (apply so_bind; [apply so_update|intros _]).
  apply so_forEach_from. intros x i. apply paint_mask_spares.
Qed.

(** X8. A [draw] on an image that has a parent touches one canvas
    only, the image's own: every other canvas keeps its size and its
    calls, and the load, resize and ResizeObserver registrations are as
    before, whether the draw paints, defers or throws. *)
Theorem draw_spares_the_rest (env : environment) (c : draw_call) (p : page) :
  attached (dc_img c) (document p) ->
  let p' := page_of (draw env c p) in
  exists w cv,
    closest (dc_img c) sel_wrap (document p') = Some w
    /\ querySelector w sel_canvas (document p') = Some cv
    /\ (forall other,
          other <> nid cv -> get_surface other p' = get_surface other p)
    /\ loadOnce p' = loadOnce p
    /\ windowResize p' = windowResize p
    /\ resizeObserved p' = resizeObserved p.
Proof.
  intros Hatt p'.
  destruct (scaffold _ _ Hatt) as (w & p1 & cv & p2 & H1 & H2 & Hw & Hcv & Hp2).
  set (r := getBoundingClientRect env (dc_img c)).
  assert (Hdraw : draw env c p
                  = if too_small r then requestAnimationFrame c p2
                    else size_and_paint env c r (nid cv) p2).
  { rewrite draw_stages, H1, H2. reflexivity. }
  exists w, cv. subst p'. rewrite Hdraw.
  destruct (too_small r).
  - simpl. rewrite Hp2. repeat split; assumption.
  - pose proof (size_and_paint_only_surfaces env c r (nid cv) p2) as Hq.
    pose proof (size_and_paint_spares env c r (nid cv) p2) as Hs.
    set (q := page_of (size_and_paint env c r (nid cv) p2)) in *.
    assert (Hd : document q = document p2) by (rewrite Hq; reflexivity).
    assert (Hl : loadOnce q = loadOnce p) by (rewrite Hq, Hp2; reflexivity).
    assert (Hr : windowResize q = windowResize p)
      by (rewrite Hq, Hp2; reflexivity).
    assert (Ho : resizeObserved q = resizeObserved p)
      by (rewrite Hq, Hp2; reflexivity).
    rewrite Hd. repeat split; try assumption.
    intros other Hne. rewrite (Hs other Hne), Hp2.
    apply get_surface_with_document.
Qed.

Lemma draw_spares_the_rest_witness :
  let p' := page_of (draw sample_env (sample_call "front") one_root_page) in
  exists w cv,
    closest 2 sel_wrap (document p') = Some w
    /\ querySelector w sel_canvas (document p') = Some cv
    /\ (forall other,
          other <> nid cv
          -> get_surface other p' = get_surface other one_root_page)
    /\ loadOnce p' = loadOnce one_root_page
    /\ windowResize p' = windowResize one_root_page
    /\ resizeObserved p' = resizeObserved one_root_page.
Proof.
  apply (draw_spares_the_rest sample_env (sample_call "front") one_root_page).
  now exists 1.
Defined.

Lemma get_member_throws o k e : get_member o k = Abrupt e -> e = TypeError.
Proof.
  destruct o; simpl; try discriminate; try congruence.
  destruct (own_prop (lit k) props); discriminate.
Qed.

Lemma ToString_failure_kind :
  forall v d e, ToString_failure d v = Some e -> e = TypeError \/ e = RangeError.
Proof.
  fix IH 1. intros v d e. destruct v as [| | | | |items|props]; simpl;
    try discriminate.
  - induction items as [|item rest IHl]; [discriminate|].
    pose proof (IH item) as Hitem.
    destruct item as [| | | | |inner|props]; try exact IHl.
    + destruct d as [|d'].
      * intros H. injection H as <-. now right.
      * destruct (ToString_failure d' (VArr inner)) as [e0|] eqn:E; [|exact IHl].
        intros H. injection H as <-. exact (Hitem d' e0 E).
    + destruct (ToString_failure d (VObj props)) as [e0|] eqn:E; [|exact IHl].
      intros H. injection H as <-. exact (Hitem d e0 E).
  - destruct (own_prop (lit "toString") props); [|discriminate].
    intros H. injection H as <-. now left.
Qed.

Lemma ToNumber_throws v e :
  ToNumber v = Abrupt e -> e = TypeError \/ e = RangeError.
Proof.
  unfold ToNumber. destruct (ToString_failure stack_limit v) as [e0|] eqn:E;
    [|discriminate].
  intros H. injection H as <-. exact (ToString_failure_kind v _ _ E).
Qed.

Lemma mask_box_throws m r e :
  mask_box m r = Abrupt e -> e = TypeError \/ e = RangeError.
Proof.
  unfold mask_box.
  repeat match goal with
         | |- context [get_member m ?k] =>
             let H := fresh in
             destruct (get_member m k) eqn:H;
             [|intros H'; injection H' as <-; left;
               now apply (get_member_throws m k)]; cbn [bindC]
         | |- context [ToNumber ?v] =>
             let H := fresh in
             destruct (ToNumber v) eqn:H;
             [|intros H'; injection H' as <-;
               now apply (ToNumber_throws v)]; cbn [bindC]
         end.
  discriminate.
Qed.

(** X9. A mask whose coordinates cannot be read ([null], or a
    coordinate whose coercion throws) stops the painting where it stands:
    the canvas has been sized and cleared, the masks before it have their
    fills and outlines (the calls [paint_mask] makes for them,
    [painted_calls], which are those the specification asks for,
    [claimed_calls]), the mask and those after it have none, and [draw]
    throws what the read threw: a TypeError, or a RangeError when the
    coordinate is an array nested beyond what the engine's stack holds. *)
Theorem draw_stops_at_unreadable_mask (env : environment) (c : draw_call)
  (p : page) (good : list value) (bad : value) (rest : list value)
  (boxes : list box) (e : exn) :
  attached (dc_img c) (document p) ->
  too_small (getBoundingClientRect env (dc_img c)) = false ->
  dc_masks c = good ++ bad :: rest ->
  Forall2
    (fun m b => mask_box m (getBoundingClientRect env (dc_img c)) = Normal b)
    good boxes ->
  mask_box bad (getBoundingClientRect env (dc_img c)) = Abrupt e ->
  (e = TypeError \/ e = RangeError)
  /\ (exists p' w cv,
        draw env c p = Throw e p'
        /\ closest (dc_img c) sel_wrap (document p') = Some w
        /\ querySelector w sel_canvas (document p') = Some cv
        /\ sizing (get_surface (nid cv) p')
           = sizing (sized env (getBoundingClientRect env (dc_img c))
                       (get_surface (nid cv) p))
        /\ calls (get_surface (nid cv) p')
           = calls (get_surface (nid cv) p)
             ++ prologue env (getBoundingClientRect env (dc_img c))
             ++ painted_calls c 0 boxes)
  /\ ((Z.of_nat (List.length good) <= 2 ^ 53)%Z ->
      exists active,
        (forall idx,
           idx < List.length good ->
           (active idx = true <-> index_equals idx (dc_activeIndex c)))
        /\ painted_calls c 0 boxes
           = claimed_calls (dc_side c) active (dc_style c) 0 boxes).
Proof.
  intros Hatt Hbig Hmasks Hgood Hbad.
  split; [exact (mask_box_throws _ _ _ Hbad)|].
  split;
    [|intros Hlen; exists (fun idx => is_active idx (dc_activeIndex c));
      split; [intros idx Hidx; apply is_active_iff; lia|];
      now apply painted_calls_claimed].
  destruct (scaffold _ _ Hatt) as (w & p1 & cv & p2 & H1 & H2 & Hw & Hcv & Hp2).
  set (r := getBoundingClientRect env (dc_img c)) in *.
  set (q := page_of (contexts (nid cv) (prologue env r)
                       (page_of (resize env r (nid cv) p2)))).
  set (q' := page_of (contexts (nid cv) (painted_calls c 0 boxes) q)).
  assert (Hrun : size_and_paint env c r (nid cv) p2 = Throw e q').
  { rewrite size_and_paint_stages, Hmasks, forEach_from_app.
    fold q. rewrite (paint_masks_calls c r (nid cv) good boxes Hgood).
    rewrite contexts_ok. fold q'. simpl.
    unfold bind, paint_mask at 1, bind, lift. now rewrite Hbad. }
  assert (Hq' : q' = with_surfaces p2 (surfaces q')).
  { unfold q', q.
    rewrite (contexts_only_surfaces (nid cv) (painted_calls c 0 boxes)) at 1.
    rewrite (contexts_only_surfaces (nid cv) (prologue env r)) at 1.
    rewrite (resize_only_surfaces env r (nid cv) p2) at 1. reflexivity. }
  exists q', w, cv.
  split; [rewrite draw_stages, H1, H2; fold r; now rewrite Hbig|].
  assert (Hd : document q' = document p2) by (rewrite Hq'; reflexivity).
  rewrite Hd. split; [exact Hw|]. split; [exact Hcv|].
  unfold q', q. rewrite !contexts_surface, resize_surface.
  rewrite Hp2, get_surface_with_document.
  split; [reflexivity|]. simpl. now rewrite <- app_assoc.
Qed.

Lemma draw_stops_at_unreadable_mask_witness :
  exists p' w cv,
    draw sample_env
      {| dc_side := lit "front"; dc_img := 2;
         dc_masks := [mask_value 0.5 0.25 0.25 0.5; VNull;
                      mask_value 0 0 0.5 0.5]%float;
         dc_activeIndex := zero; dc_style := no_style |} one_root_page
    = Throw TypeError p'
    /\ closest 2 sel_wrap (document p') = Some w
    /\ querySelector w sel_canvas (document p') = Some cv
    /\ sizing (get_surface (nid cv) p')
       = (Some (Px 200), Some (Px 100), 400, 200)%float
    /\ calls (get_surface (nid cv) p')
       = [SetTransform 2 0 0 2 0 0; ClearRect 0 0 200 100;
          SetFillStyle (lit "rgba(40,40,40,0.85)"); FillRect 100 25 50 50;
          SetLineWidth 2; SetStrokeStyle (lit "rgba(0,0,0,0.65)");
          StrokeRect 100.5 25.5 50 50]%float.
Proof.
  destruct (draw_stops_at_unreadable_mask sample_env
              {| dc_side := lit "front"; dc_img := 2;
                 dc_masks := [mask_value 0.5 0.25 0.25 0.5; VNull;
                              mask_value 0 0 0.5 0.5]%float;
                 dc_activeIndex := zero; dc_style := no_style |}
              one_root_page [mask_value 0.5 0.25 0.25 0.5]%float VNull
              [mask_value 0 0 0.5 0.5]%float [(100, 25, 50, 50)%float]
              TypeError)
    as (_ & (p' & w & cv & Hd & Hw & Hc & Hs & Hcalls) & _).
  - now exists 1.
  - reflexivity.
  - reflexivity.
  - constructor; [vm_compute; reflexivity|constructor].
  - reflexivity.
  - exists p', w, cv. do 3 (split; [assumption|]).
    rewrite Hs, Hcalls. split; reflexivity.
Defined.

(** A coordinate nested beyond the limit: [depth] arrays around an array
    that holds a value. *)
Lemma ToString_failure_nested (v : value) :
  forall d depth,
    d < depth ->
    ToString_failure d (Nat.iter depth (fun x => VArr [x]) (VArr [v]))
    = Some RangeError.
Proof.
  induction d as [|d IH]; intros [|[|depth]] H; try lia;
    try reflexivity.
  assert (Hn : d < S depth) by lia. specialize (IH (S depth) Hn).
  change (Nat.iter (S (S depth)) (fun x => VArr [x]) (VArr [v]))
    with (VArr [VArr [Nat.iter depth (fun x => VArr [x]) (VArr [v])]]).
  change (Nat.iter (S depth) (fun x => VArr [x]) (VArr [v]))
    with (VArr [Nat.iter depth (fun x => VArr [x]) (VArr [v])]) in IH.
  cbn [ToString_failure]. cbn [ToString_failure] in IH.
  now rewrite IH.
Qed.

(** The RangeError does occur: a coordinate that is an array nested more
    than [stack_limit] deep cannot be read, whatever the limit is. *)
Lemma nested_coordinate_overflows (y w h : number) (r : DOMRect) :
  mask_box
    (VObj [(lit "x", Nat.iter (S stack_limit) (fun x => VArr [x])
                       (VArr [VNum one]));
           (lit "y", VNum y); (lit "w", VNum w); (lit "h", VNum h)]) r
  = Abrupt RangeError.
Proof.
  unfold mask_box.
  change (get_member (VObj _) "x") with
    (Normal (A:=value)
       (Nat.iter (S stack_limit) (fun x => VArr [x]) (VArr [VNum one]))).
  cbn [bindC]. unfold ToNumber at 1.
  rewrite ToString_failure_nested by lia. reflexivity.
Qed.

Lemma painted_calls_inactive c boxes :
  forall idx,
    (forall i, idx <= i < idx + List.length boxes ->
               is_active i (dc_activeIndex c) = false) ->
    painted_calls c idx boxes = flat_map (inactive_calls c) boxes.
Proof.
  induction boxes as [|b boxes IH]; intros idx H; [reflexivity|].
  cbn [painted_calls flat_map]. rewrite IH.
  - rewrite app_assoc. f_equal. destruct b as [[[x y] w] h].
    unfold painted_fill, painted_outline, inactive_calls.
    rewrite (H idx) by (simpl; lia).
    destruct (jsstring_eqb (dc_side c) (lit "front")); reflexivity.
  - intros i Hi. apply H. simpl. lia.
Qed.

(** X10. An active index that is no index of the mask list (negative,
    beyond the last mask, fractional) selects nothing: [draw] fills every
    mask with the other colour and outlines it, and does so on both
    sides alike: the front highlights nothing and the back uncovers
    nothing. *)
Theorem draw_without_active_mask (env : environment) (c : draw_call)
  (p : page) (boxes : list box) :
  attached (dc_img c) (document p) ->
  too_small (getBoundingClientRect env (dc_img c)) = false ->
  Forall2
    (fun m b => mask_box m (getBoundingClientRect env (dc_img c)) = Normal b)
    (dc_masks c) boxes ->
  (forall idx, idx < List.length (dc_masks c) ->
               is_active idx (dc_activeIndex c) = false) ->
  exists p' w cv,
    draw env c p = Ok tt p'
    /\ closest (dc_img c) sel_wrap (document p') = Some w
    /\ querySelector w sel_canvas (document p') = Some cv
    /\ calls (get_surface (nid cv) p')
       = calls (get_surface (nid cv) p)
         ++ prologue env (getBoundingClientRect env (dc_img c))
         ++ flat_map (inactive_calls c) boxes.
Proof.
  intros Hatt Hbig Hboxes Hnone.
  destruct (scaffold _ _ Hatt) as (w & p1 & cv & p2 & H1 & H2 & Hw & Hcv & Hp2).
  destruct (size_and_paint_calls env c _ (nid cv) p2 boxes Hboxes)
    as [Hok Hcalls].
  exists (page_of (size_and_paint env c
                     (getBoundingClientRect env (dc_img c)) (nid cv) p2)),
    w, cv.
  rewrite draw_stages, H1, H2, Hbig.
  rewrite (size_and_paint_only_surfaces env c _ (nid cv) p2) at 2 3.
  simpl document. repeat split; try assumption.
  rewrite Hcalls. rewrite Hp2 at 1.
  rewrite (painted_calls_inactive c boxes 0); [reflexivity|].
  intros i Hi. apply Hnone. pose proof (Forall2_length Hboxes) as Hlen.
  simpl in Hi. rewrite Hlen. apply Hi.
Qed.

Lemma draw_without_active_mask_witness :
  exists p' w cv,
    draw sample_env
      {| dc_side := lit "back"; dc_img := 2;
         dc_masks := [mask_value 0.5 0.25 0.25 0.5; mask_value 0 0 0.5 0.5]%float;
         dc_activeIndex := 2%float; dc_style := no_style |} one_root_page
    = Ok tt p'
    /\ closest 2 sel_wrap (document p') = Some w
    /\ querySelector w sel_canvas (document p') = Some cv
    /\ calls (get_surface (nid cv) p')
       = calls (get_surface (nid cv) one_root_page)
         ++ prologue sample_env (getBoundingClientRect sample_env 2)
         ++ flat_map
              (inactive_calls
                 {| dc_side := lit "back"; dc_img := 2;
                    dc_masks := [mask_value 0.5 0.25 0.25 0.5;
                                 mask_value 0 0 0.5 0.5]%float;
                    dc_activeIndex := 2%float; dc_style := no_style |})
              sample_boxes.
Proof.
  apply (draw_without_active_mask sample_env
           {| dc_side := lit "back"; dc_img := 2;
              dc_masks := [mask_value 0.5 0.25 0.25 0.5;
                           mask_value 0 0 0.5 0.5]%float;
              dc_activeIndex := 2%float; dc_style := no_style |}
           one_root_page sample_boxes).
  - now exists 1.
  - reflexivity.
  - repeat constructor.
  - intros idx Hidx. simpl in Hidx.
    destruct idx as [|[|idx]]; [reflexivity|reflexivity|lia].
Defined.

(* ================================================================== *)
(** * 19. What may be thrown                                             *)
(* ================================================================== *)

(** ** What may be thrown *)

Lemma ensureWrapper_throws img p e p' :
  ensureWrapper img p = Throw e p' ->
  e = TypeError /\ p' = p
  /\ closest img sel_wrap (document p) = None
  /\ parentNode img (document p) = None.
Proof.
  destruct (closest img sel_wrap (document p)) as [w|] eqn:Hc.
  - rewrite (ensureWrapper_finds img p w Hc). discriminate.
  - destruct (locate img (document p)) as [[[|f up] n]|] eqn:Hloc.
    + unfold ensureWrapper, bind, dom_get, parentNode, throw.
      rewrite Hc, Hloc. intros H. injection H as <- <-. now repeat split.
    + rewrite (ensureWrapper_creates img p f up n Hloc Hc). discriminate.
    + unfold ensureWrapper, bind, dom_get, parentNode, throw.
      rewrite Hc, Hloc. intros H. injection H as <- <-. now repeat split.
Qed.

Lemma makeCanvas_after_wrapper img p w p1 :
  ensureWrapper img p = Ok w p1 -> exists cv p2, makeCanvas w p1 = Ok cv p2.
Proof.
  intros H. apply makeCanvas_present.
  apply (closest_present img sel_wrap). now apply (ensureWrapper_result img p).
Qed.

Lemma tr_ret {A} (a : A) : type_or_range_errors_only (ret a).
Proof. intros p e p' H. discriminate. Qed.

Lemma tr_lift {A} (c : completion A) :
  (forall e, c = Abrupt e -> e = TypeError \/ e = RangeError) ->
  type_or_range_errors_only (lift c).
Proof.
  intros Hc p e p' H. destruct c as [a|e0]; [discriminate|].
  injection H as <- _. now apply Hc.
Qed.

Lemma tr_update cv f : type_or_range_errors_only (update_surface cv f).
Proof. intros p e p' H. discriminate. Qed.

Lemma tr_bind {A B} (m : M A) (k : A -> M B) :
  type_or_range_errors_only m ->
  (forall a, type_or_range_errors_only (k a)) ->
  type_or_range_errors_only (bind m k).
Proof.
  intros Hm Hk p e p' H. unfold bind in H.
  destruct (m p) as [a p1|e1 p1] eqn:E.
  - now apply (Hk a p1 e p').
  - injection H as <- _. now apply (Hm p e1 p1).
Qed.

Lemma tr_forEach_from {A} (l : list A) body :
  (forall x i, type_or_range_errors_only (body x i)) ->
  forall idx, type_or_range_errors_only (forEach_from idx l body).
Proof.
  intros Hb. induction l as [|x l IH]; intros idx; simpl.
  - apply tr_ret.
  - apply tr_bind; [apply Hb|]. intros _. apply IH.
Qed.

Lemma paint_mask_errors side ai ff fo st lw r cv m idx :
  type_or_range_errors_only (paint_mask side ai ff fo st lw r cv m idx).
Proof.
  unfold paint_mask. apply tr_bind.
  - apply tr_lift. intros e. apply mask_box_throws.
  - intros [[[x y] w] h].
    repeat first [apply tr_bind; [|intros _] | apply tr_update | apply tr_ret
                 | match goal with
                   | |- type_or_range_errors_only (if ?b then _ else _) =>
                       destruct b
                   end].
Qed.

Lemma size_and_paint_errors env c r cv :
  type_or_range_errors_only (size_and_paint env c r cv).
Proof.
  unfold size_and_paint.
  repeat (apply tr_bind; [apply tr_update|intros _]).
  apply tr_forEach_from. intros x i. apply paint_mask_errors.
Qed.

Lemma draw_errors env c : type_or_range_errors_only (draw env c).
Proof.
  intros p e p' H. rewrite draw_stages in H.
  destruct (ensureWrapper (dc_img c) p) as [w p1|e1 p1] eqn:Hw.
  - destruct (makeCanvas_after_wrapper _ _ _ _ Hw) as (cv & p2 & Hcv).
    rewrite Hcv in H.
    destruct (too_small (getBoundingClientRect env (dc_img c)));
      [discriminate|].
    exact (size_and_paint_errors env c _ cv p2 e p' H).
  - injection H as <- _. left. now apply (ensureWrapper_throws _ _ _ _ Hw).
Qed.

Lemma legacy_masks_type_errors b64 e :
  legacy_masks b64 = Abrupt e -> e = TypeError.
Proof.
  unfold legacy_masks. destruct (parseMasksB64_total b64) as [v ->].
  cbn [bindC]. destruct (get_member v "masks") as [ms|e0] eqn:Hm.
  - discriminate.
  - cbn [bindC]. intros H. injection H as <-.
    now apply (get_member_throws v "masks").
Qed.

Lemma resolve_payload_type_errors root t e :
  resolve_payload root t = Abrupt e -> e = TypeError.
Proof.
  unfold resolve_payload, legacy_payload.
  destruct (aioeParseInternalFromDom root t); [discriminate|].
  destruct (legacy_masks _) as [ms|e0] eqn:Hm; [discriminate|].
  cbn [bindC]. intros H. injection H as <-.
  now apply (legacy_masks_type_errors _ _ Hm).
Qed.

Lemma initOne_errors env root : type_or_range_errors_only (initOne env root).
Proof.
  unfold initOne. apply tr_bind; [intros p e p' H; discriminate|].
  intros side. apply tr_bind.
  - intros p. apply tr_lift. intros e H. left.
    exact (resolve_payload_type_errors _ _ _ H).
  - intros [a masks]. apply tr_bind; [intros p e p' H; discriminate|].
    intros st. apply tr_bind; [intros p e p' H; discriminate|].
    intros [el|]; [|apply tr_ret].
    apply tr_bind.
    { destruct (complete env (nid el)); [apply draw_errors|].
      intros p e p' H. discriminate. }
    intros _. apply tr_bind; [intros p e p' H; discriminate|].
    intros _. apply tr_bind.
    { destruct (hasResizeObserver env); [|apply tr_ret].
      intros p e p' H. discriminate. }
    intros _ p e p' H. discriminate.
Qed.

(** X11. Nothing but a TypeError or a RangeError ever leaves [draw],
    [initOne] or [init], and the resolution of the payload throws nothing
    but a TypeError.  The failures of [atob], [decodeURIComponent] and
    [JSON.parse] are all caught by the decoders, and so is whatever the
    coercions of the structured payload throw; the tree mutations of the
    scaffolding are never refused.  What can escape is the read of
    [parsed.masks] on a [null] payload, the read of a coordinate of an
    unreadable mask, the coercion of a coordinate, and
    [img.parentNode.insertBefore] on an image that has no parent. *)
Theorem init_throws_type_or_range_errors (env : environment) (p : page)
  (e : exn) (p' : page) :
  (forall c, draw env c p = Throw e p' -> e = TypeError \/ e = RangeError)
  /\ (forall root,
        initOne env root p = Throw e p' -> e = TypeError \/ e = RangeError)
  /\ (init env p = Throw e p' -> e = TypeError \/ e = RangeError)
  /\ (forall root t, resolve_payload root t = Abrupt e -> e = TypeError).
Proof.
  split; [|split; [|split]].
  - intros c. apply draw_errors.
  - intros root. apply initOne_errors.
  - unfold init. apply tr_bind; [intros q e0 q' H; discriminate|].
    intros roots. apply tr_forEach_from. intros root _.
    apply initOne_errors.
  - intros root t. apply resolve_payload_type_errors.
Qed.

Lemma init_throws_type_or_range_errors_witness :
  init sample_env two_root_page = Throw TypeError two_root_page.
Proof.
  destruct (init sample_env two_root_page) as [u q|e q] eqn:H.
  - vm_compute in H. discriminate H.
  - assert (He := proj1 (proj2 (proj2 (init_throws_type_or_range_errors
                                         sample_env two_root_page e q))) H).
    vm_compute in H. injection H as <- <-. reflexivity.
Defined.

(** X12. The scaffolding fails in one case only: [ensureWrapper] throws
    exactly when the image has neither a wrapper nor a parent (it is not
    in the document); it then throws a TypeError, [draw] throws with it,
    and the page is as it was: the new [div] is never inserted and no
    retry is requested.  Whenever [ensureWrapper] returns, [makeCanvas]
    returns too: no insertion the script makes is ever refused. *)
Theorem scaffolding_fails_only_detached (env : environment) (c : draw_call)
  (p : page) :
  (closest (dc_img c) sel_wrap (document p) = None ->
   parentNode (dc_img c) (document p) = None ->
   ensureWrapper (dc_img c) p = Throw TypeError p
   /\ draw env c p = Throw TypeError p)
  /\ (forall e p',
        ensureWrapper (dc_img c) p = Throw e p' ->
        e = TypeError /\ p' = p
        /\ closest (dc_img c) sel_wrap (document p) = None
        /\ parentNode (dc_img c) (document p) = None)
  /\ (forall w p1,
        ensureWrapper (dc_img c) p = Ok w p1 ->
        exists cv p2, makeCanvas w p1 = Ok cv p2).
Proof.
  split; [|split].
  - intros Hc Hp.
    assert (H : ensureWrapper (dc_img c) p = Throw TypeError p).
    { unfold ensureWrapper, bind, dom_get, throw. now rewrite Hc, Hp. }
    split; [exact H|]. now rewrite draw_stages, H.
  - intros e p'. apply ensureWrapper_throws.
  - intros w p1. apply makeCanvas_after_wrapper.
Qed.

Lemma scaffolding_fails_only_detached_witness :
  ensureWrapper 9 one_root_page = Throw TypeError one_root_page
  /\ draw sample_env
       {| dc_side := lit "front"; dc_img := 9; dc_masks := [];
          dc_activeIndex := zero; dc_style := no_style |} one_root_page
     = Throw TypeError one_root_page.
Proof.
  apply (proj1 (scaffolding_fails_only_detached sample_env
                  {| dc_side := lit "front"; dc_img := 9; dc_masks := [];
                     dc_activeIndex := zero; dc_style := no_style |}
                  one_root_page)); reflexivity.
Defined.

(* ================================================================== *)
(** * 20. The bootstrap as a whole                                       *)
(* ================================================================== *)

(** ** initOne and init on roots that are ready *)

Lemma Forall_exists_Forall2 {A B} (R : A -> B -> Prop) (l : list A) :
  Forall (fun a => exists b, R a b) l -> exists bs, Forall2 R l bs.
Proof.
  induction 1 as [|a l [b Hb] _ [bs Hbs]].
  - now exists [].
  - exists (b :: bs). now constructor.
Qed.

Lemma draw_cleanly env c p :
  attached (dc_img c) (document p) ->
  draws_cleanly env c ->
  exists p',
    draw env c p = Ok tt p'
    /\ windowResize p' = windowResize p
    /\ resizeObserved p' = resizeObserved p
    /\ loadOnce p' = loadOnce p
    /\ animationFrames p'
       = animationFrames p
         ++ (if too_small (getBoundingClientRect env (dc_img c)) then [c]
             else []).
Proof.
  intros Hatt Hclean.
  destruct (scaffold _ _ Hatt) as (w & p1 & cv & p2 & H1 & H2 & _ & _ & Hp2).
  rewrite draw_stages, H1, H2. unfold draws_cleanly in Hclean.
  destruct (too_small (getBoundingClientRect env (dc_img c))).
  - eexists. split; [reflexivity|]. simpl. rewrite Hp2. repeat split.
  - destruct (Forall_exists_Forall2 _ _ (Hclean eq_refl)) as [boxes Hb].
    destruct (size_and_paint_calls env c _ (nid cv) p2 boxes Hb) as [Hok _].
    eexists. split; [exact Hok|].
    rewrite (size_and_paint_only_surfaces env c _ (nid cv) p2). simpl.
    rewrite Hp2. simpl. rewrite app_nil_r. repeat split.
Qed.

Lemma rerender_of_some root t c :
  rerender_of root t = Some c ->
  exists el,
    querySelector root sel_img t = Some el
    /\ dc_img c = nid el
    /\ resolve_payload root t = Normal (dc_activeIndex c, dc_masks c)
    /\ dc_side c = attribute_or root "data-side" "front" t
    /\ dc_style c = resolve_style root t.
Proof.
  unfold rerender_of.
  destruct (resolve_payload root t) as [[a masks]|]; [|discriminate].
  destruct (querySelector root sel_img t) as [el|]; [|discriminate].
  intros H. injection H as <-. now exists el.
Qed.

Lemma rerender_of_none root t x :
  resolve_payload root t = Normal x ->
  rerender_of root t = None ->
  querySelector root sel_img t = None.
Proof.
  unfold rerender_of. intros ->. destruct x as [a masks].
  destruct (querySelector root sel_img t); [discriminate|reflexivity].
Qed.

(** [initOne] by its two stages, for a root that has a closure. *)
Lemma initOne_stages env root p c :
  rerender_of root (document p) = Some c ->
  initOne env root p
  = match (if complete env (dc_img c) then draw env c p
           else addLoadListenerOnce (dc_img c) c p) with
    | Ok _ p1 =>
        (addResizeListener c ;;
         (if hasResizeObserver env then observeResize (dc_img c) c
          else ret tt) ;;
         requestAnimationFrame c) p1
    | Throw e p1 => Throw e p1
    end.
Proof.
  intros H. destruct (rerender_of_some _ _ _ H) as (el & Hq & Hi & Hp & Hs & Hst).
  unfold initOne, bind at 1 2, dom_get. rewrite Hp. simpl lift.
  unfold ret at 1. cbv iota beta. unfold bind at 1 2. rewrite Hq.
  cbv iota beta.
  replace {| dc_side := attribute_or root "data-side" "front" (document p);
             dc_img := nid el; dc_masks := dc_masks c;
             dc_activeIndex := dc_activeIndex c;
             dc_style := resolve_style root (document p) |} with c
    by (destruct c; simpl in *; congruence).
  rewrite <- Hi. unfold bind at 1.
  destruct (complete env (dc_img c)); reflexivity.
Qed.

Lemma initOne_step env root p c :
  well_formed (document p) ->
  rerender_of root (document p) = Some c ->
  (complete env (dc_img c) = true -> draws_cleanly env c) ->
  exists p',
    initOne env root p = Ok tt p'
    /\ windowResize p' = windowResize p ++ [c]
    /\ resizeObserved p' = resizeObserved p ++ observed_of env c
    /\ loadOnce p' = loadOnce p ++ load_of env c
    /\ animationFrames p' = animationFrames p ++ frames_of env c
    /\ document p'
       = (if complete env (dc_img c) then document (page_of (draw env c p))
          else document p)
    /\ attached (dc_img c) (document p).
Proof.
  intros Hwf Hc Hclean.
  destruct (rerender_of_some _ _ _ Hc) as (el & Hq & Hi & _).
  assert (Hatt : attached (dc_img c) (document p)).
  { rewrite Hi. now apply (queried_attached root sel_img). }
  rewrite (initOne_stages env root p c Hc).
  unfold frames_of, load_of, observed_of.
  destruct (complete env (dc_img c)).
  - destruct (draw_cleanly env c p Hatt (Hclean eq_refl))
      as (p1 & Hd & Hr & Ho & Hl & Hf).
    rewrite Hd. simpl page_of.
    destruct (hasResizeObserver env); eexists; (split; [reflexivity|]);
      simpl; rewrite Hr, Ho, Hl, Hf, ?app_nil_r, <- ?app_assoc;
      repeat split; assumption.
  - destruct (hasResizeObserver env); eexists; (split; [reflexivity|]);
      simpl; rewrite ?app_nil_r; repeat split; assumption.
Qed.

Lemma scaffolds_rerender_of root t t' :
  scaffolds_to t t' -> In root (map nid (flatten t)) ->
  rerender_of root t' = rerender_of root t.
Proof.
  intros H Hin. unfold rerender_of.
  rewrite (scaffolds_payload root t t' H Hin),
    (scaffolds_querySelector root sel_img t t' H Hin scaffolding_not_img),
    (scaffolds_attribute_or root _ _ t t' H Hin),
    (scaffolds_style root t t' H Hin).
  reflexivity.
Qed.

Lemma scaffolds_rerenders roots t t' :
  scaffolds_to t t' ->
  Forall (fun root => In root (map nid (flatten t))) roots ->
  rerenders roots t' = rerenders roots t.
Proof.
  intros H. induction 1 as [|root rest Hin _ IH]; [reflexivity|].
  unfold rerenders in *. simpl.
  now rewrite IH, (scaffolds_rerender_of root t t' H Hin).
Qed.

Lemma querySelectorAll_present s t root :
  In root (querySelectorAll s t) -> In root (map nid (flatten t)).
Proof.
  unfold querySelectorAll. rewrite flatten_head. intros H.
  apply in_map_iff in H. destruct H as (x & <- & Hx).
  apply filter_In in Hx. right. apply in_map. tauto.
Qed.

Lemma init_roots_cons env root rest p :
  init_roots env (root :: rest) p
  = match initOne env root p with
    | Ok _ p1 => init_roots env rest p1
    | Throw e p1 => Throw e p1
    end.
Proof.
  unfold init_roots at 1, forEach. simpl. unfold bind.
  destruct (initOne env root p) as [[] p1|e p1]; [|reflexivity].
  apply init_roots_from.
Qed.

Lemma init_roots_ready env t0 roots :
  Forall (fun root => In root (map nid (flatten t0))
                      /\ root_ready env t0 root) roots ->
  forall p,
    scaffolds_to t0 (document p) -> well_formed (document p) ->
    exists p',
      init_roots env roots p = Ok tt p'
      /\ scaffolds_to (document p) (document p')
      /\ windowResize p' = windowResize p ++ rerenders roots t0
      /\ resizeObserved p'
         = resizeObserved p ++ flat_map (observed_of env) (rerenders roots t0)
      /\ loadOnce p'
         = loadOnce p ++ flat_map (load_of env) (rerenders roots t0)
      /\ animationFrames p'
         = animationFrames p ++ flat_map (frames_of env) (rerenders roots t0)
      /\ (forall j, scaffolded j (document p) -> scaffolded j (document p'))
      /\ Forall (fun c => complete env (dc_img c) = true ->
                          scaffolded (dc_img c) (document p'))
           (rerenders roots t0)
      /\ (Forall (fun c => complete env (dc_img c) = true ->
                           scaffolded (dc_img c) (document p))
            (rerenders roots t0) ->
          document p' = document p).
Proof.
  induction 1 as [|root rest [Hin [[x Hx] Hready]] Hrest IH]; intros p Hs Hwf.
  - exists p. simpl. rewrite !app_nil_r.
    repeat split; auto using scaffolds_refl.
  - rewrite init_roots_cons.
    pose proof (scaffolds_rerender_of root _ _ Hs Hin) as Hre.
    pose proof (scaffolds_payload root _ _ Hs Hin) as Hpay.
    unfold rerenders. simpl flat_map. fold (rerenders rest t0).
    destruct (rerender_of root t0) as [c|] eqn:Hc.
    + destruct (initOne_step env root p c Hwf Hre (Hready c eq_refl))
        as (p1 & Hinit & Hr & Ho & Hl & Hf & Hd & Hatt).
      rewrite Hinit.
      assert (Hs1 : scaffolds_to (document p) (document p1)).
      { rewrite Hd. destruct (complete env (dc_img c));
          [apply draw_scaffolds_to|apply scaffolds_refl]. }
      assert (Hk1 : forall j, scaffolded j (document p) ->
                              scaffolded j (document p1)).
      { intros j Hj. rewrite Hd. destruct (complete env (dc_img c));
          [now apply draw_keeps_scaffolded|exact Hj]. }
      destruct (IH p1 (scaffolds_trans _ _ _ Hs Hs1)
                  (scaffolds_well_formed _ _ Hs1 Hwf))
        as (p' & Hrun & Hs' & Hr' & Ho' & Hl' & Hf' & Hk' & Hall & Hsame).
      exists p'. split; [exact Hrun|].
      split; [exact (scaffolds_trans _ _ _ Hs1 Hs')|].
      rewrite Hr', Ho', Hl', Hf', Hr, Ho, Hl, Hf.
      simpl. rewrite <- !app_assoc. simpl.
      repeat split; try reflexivity.
      * intros j Hj. auto.
      * constructor; [|exact Hall]. intros Hcomp. apply Hk'.
        rewrite Hd, Hcomp. now apply draw_scaffolds.
      * intros Hpre. inversion Hpre as [|? ? Hc0 Hrest0]; subst.
        assert (Hd1 : document p1 = document p).
        { rewrite Hd. destruct (complete env (dc_img c)); [|reflexivity].
          apply draw_scaffolded_document. now apply Hc0. }
        rewrite <- Hd1. apply Hsame. now rewrite Hd1.
    + rewrite (initOne_inert env root p x); cycle 1.
      * apply (rerender_of_none root _ x); congruence.
      * congruence.
      * simpl. now apply IH.
Qed.

Lemma init_as_init_roots env p :
  init env p = init_roots env (querySelectorAll sel_root (document p)) p.
Proof. reflexivity. Qed.

(** X13. What [initOne] registers for a root of a well-formed document
    whose payload resolves and that holds an image, [c] being the closure
    [rerender] it builds, provided that the immediate draw can read every
    mask: either the image has not loaded, or its box is below the
    threshold, or the four coordinates of every mask can be read
    ([draws_cleanly]).  Then [initOne] returns and registers one window
    resize listener; one ResizeObserver on the image exactly when the
    browser has one; a one-shot load listener exactly when the image has
    not loaded, in which case nothing is drawn and the document and the
    canvases are untouched; and one animation frame request, after the
    retry of the immediate draw when there is one.  An image that has
    loaded is drawn at once and has its wrapper and canvas when [initOne]
    returns. *)
Theorem initOne_registers (env : environment) (root : nat) (p : page)
  (c : draw_call) :
  well_formed (document p) ->
  rerender_of root (document p) = Some c ->
  (complete env (dc_img c) = true -> draws_cleanly env c) ->
  exists p',
    initOne env root p = Ok tt p'
    /\ windowResize p' = windowResize p ++ [c]
    /\ resizeObserved p'
       = resizeObserved p
         ++ (if hasResizeObserver env then [(dc_img c, c)] else [])
    /\ loadOnce p'
       = loadOnce p ++ (if complete env (dc_img c) then []
                        else [(dc_img c, c)])
    /\ animationFrames p'
       = animationFrames p
         ++ (if complete env (dc_img c)
                && too_small (getBoundingClientRect env (dc_img c))
             then [c] else [])
         ++ [c]
    /\ (complete env (dc_img c) = true ->
        scaffolded (dc_img c) (document p'))
    /\ (complete env (dc_img c) = false ->
        document p' = document p /\ surfaces p' = surfaces p).
Proof.
  intros Hwf Hc Hclean.
  destruct (initOne_step env root p c Hwf Hc Hclean)
    as (p' & Hinit & Hr & Ho & Hl & Hf & Hd & Hatt).
  exists p'. do 5 (split; [assumption|]). split.
  - intros Hcomp. rewrite Hd, Hcomp. now apply draw_scaffolds.
  - intros Hcomp. split; [now rewrite Hd, Hcomp|].
    rewrite (initOne_stages env root p c Hc), Hcomp in Hinit.
    destruct (hasResizeObserver env); injection Hinit as <-; reflexivity.
Qed.

Lemma initOne_registers_witness :
  exists p',
    initOne unrendered_env 1 accepted_page = Ok tt p'
    /\ List.length (windowResize p') = 1
    /\ List.length (resizeObserved p') = 1
    /\ loadOnce p' = []
    /\ List.length (animationFrames p') = 2
    /\ scaffolded 2 (document p').
Proof.
  destruct (initOne_registers unrendered_env 1 accepted_page
              {| dc_side := lit "front"; dc_img := 2;
                 dc_masks := [mask_value 0.5 0.25 0.25 0.5]%float;
                 dc_activeIndex := one; dc_style := no_style |})
    as (p' & H & Hr & Ho & Hl & Hf & Hs & _).
  - unfold well_formed. vm_compute.
    repeat constructor; simpl; intuition discriminate.
  - vm_compute. reflexivity.
  - intros _ Hbig. discriminate Hbig.
  - exists p'. rewrite Hr, Ho, Hl, Hf. repeat split; try assumption.
    now apply Hs.
Defined.

(** X14. When every overlay root is ready (its payload resolves and, if
    its image has loaded, the masks can be read), [init] returns normally
    and has initialised every root: the resize listeners, observers, load
    listeners and frame requests it adds are those of the roots that hold
    an image, in document order, each with the payload and style its
    root had in the document [init] started from.  The scaffolding of one
    root changes neither the list of roots nor what the others resolve
    to, and every loaded image ends with its wrapper and canvas. *)
Theorem init_initialises_every_root (env : environment) (p : page) :
  well_formed (document p) ->
  Forall (root_ready env (document p))
    (querySelectorAll sel_root (document p)) ->
  let cs := rerenders (querySelectorAll sel_root (document p)) (document p) in
  exists p',
    init env p = Ok tt p'
    /\ windowResize p' = windowResize p ++ cs
    /\ resizeObserved p' = resizeObserved p ++ flat_map (observed_of env) cs
    /\ loadOnce p' = loadOnce p ++ flat_map (load_of env) cs
    /\ animationFrames p' = animationFrames p ++ flat_map (frames_of env) cs
    /\ Forall (fun c => complete env (dc_img c) = true ->
                        scaffolded (dc_img c) (document p')) cs
    /\ well_formed (document p')
    /\ querySelectorAll sel_root (document p')
       = querySelectorAll sel_root (document p)
    /\ rerenders (querySelectorAll sel_root (document p')) (document p') = cs.
Proof.
  intros Hwf Hready cs.
  assert (Hroots : Forall (fun root =>
                             In root (map nid (flatten (document p)))
                             /\ root_ready env (document p) root)
                     (querySelectorAll sel_root (document p))).
  { rewrite Forall_forall in *. intros root Hin.
    split; [now apply (querySelectorAll_present sel_root)|now apply Hready]. }
  destruct (init_roots_ready env (document p) _ Hroots p
              (scaffolds_refl _) Hwf)
    as (p' & Hrun & Hs & Hr & Ho & Hl & Hf & _ & Hall & _).
  exists p'. rewrite init_as_init_roots.
  pose proof (scaffolds_querySelectorAll sel_root _ _ Hs scaffolding_not_root)
    as Hq.
  repeat split; try assumption.
  - now apply (scaffolds_well_formed (document p)).
  - rewrite Hq. apply (scaffolds_rerenders _ _ _ Hs).
    rewrite Forall_forall. intros root.
    apply (querySelectorAll_present sel_root).
Qed.

Lemma init_initialises_every_root_witness :
  let cs := rerenders (querySelectorAll sel_root (document absorbing_page))
              (document absorbing_page) in
  exists p',
    init sample_env absorbing_page = Ok tt p'
    /\ windowResize p' = windowResize absorbing_page ++ cs
    /\ resizeObserved p'
       = resizeObserved absorbing_page ++ flat_map (observed_of sample_env) cs
    /\ loadOnce p' = loadOnce absorbing_page ++ flat_map (load_of sample_env) cs
    /\ animationFrames p'
       = animationFrames absorbing_page ++ flat_map (frames_of sample_env) cs
    /\ Forall (fun c => complete sample_env (dc_img c) = true ->
                        scaffolded (dc_img c) (document p')) cs
    /\ well_formed (document p')
    /\ querySelectorAll sel_root (document p')
       = querySelectorAll sel_root (document absorbing_page)
    /\ rerenders (querySelectorAll sel_root (document p')) (document p') = cs.
Proof.
  apply (init_initialises_every_root sample_env absorbing_page).
  - unfold well_formed. vm_compute.
    repeat constructor; simpl; intuition discriminate.
  - assert (E : querySelectorAll sel_root (document absorbing_page)
                = [1; 3; 4]) by (vm_compute; reflexivity).
    rewrite E.
    repeat (constructor;
            [split;
             [eexists; vm_compute; reflexivity
             |intros c Hc _ _; vm_compute in Hc;
              first [discriminate
                    |injection Hc as <-; simpl;
                     repeat (constructor;
                             [eexists; vm_compute; reflexivity|]);
                     constructor]]
            |]).
    constructor.
Defined.

(** X15. The last lines run [init] twice, at once and on the timer when
    the document has been parsed, on DOMContentLoaded and on the timer
    otherwise.  On a page whose roots are ready the second pass registers
    every resize listener, observer, load listener and frame request a
    second time.  What it does not do is add an element, unless an image
    has finished loading between the two passes: otherwise the document
    is the one the first pass left. *)
Theorem load_initialises_twice (loading : bool) (now later : environment)
  (p : page) :
  well_formed (document p) ->
  Forall (root_ready now (document p))
    (querySelectorAll sel_root (document p)) ->
  Forall (root_ready later (document p))
    (querySelectorAll sel_root (document p)) ->
  let cs := rerenders (querySelectorAll sel_root (document p)) (document p) in
  let p1 := page_of (init now p) in
  let p2 := after_load loading now later p in
  windowResize p1 = windowResize p ++ cs
  /\ windowResize p2 = windowResize p ++ cs ++ cs
  /\ resizeObserved p2
     = resizeObserved p ++ flat_map (observed_of now) cs
       ++ flat_map (observed_of later) cs
  /\ loadOnce p2
     = loadOnce p ++ flat_map (load_of now) cs ++ flat_map (load_of later) cs
  /\ animationFrames p2
     = animationFrames p ++ flat_map (frames_of now) cs
       ++ flat_map (frames_of later) cs
  /\ (Forall (fun c => complete later (dc_img c) = true ->
                       complete now (dc_img c) = true) cs ->
      document p2 = document p1).
Proof.
  intros Hwf Hnow Hlater cs p1 p2.
  assert (Hroots : forall env,
             Forall (root_ready env (document p))
               (querySelectorAll sel_root (document p)) ->
             Forall (fun root =>
                       In root (map nid (flatten (document p)))
                       /\ root_ready env (document p) root)
               (querySelectorAll sel_root (document p))).
  { intros env H. rewrite Forall_forall in *. intros root Hin.
    split; [now apply (querySelectorAll_present sel_root)|now apply H]. }
  destruct (init_roots_ready now (document p) _ (Hroots now Hnow) p
              (scaffolds_refl _) Hwf)
    as (q1 & Hrun & Hs & Hr & Ho & Hl & Hf & _ & Hall & _).
  fold cs in Hr, Ho, Hl, Hf, Hall.
  pose proof (scaffolds_querySelectorAll sel_root _ _ Hs scaffolding_not_root)
    as Hq.
  destruct (init_roots_ready later (document p) _ (Hroots later Hlater) q1 Hs
              (scaffolds_well_formed _ _ Hs Hwf))
    as (q2 & Hrun2 & _ & Hr2 & Ho2 & Hl2 & Hf2 & _ & _ & Hsame).
  fold cs in Hr2, Ho2, Hl2, Hf2, Hsame.
  assert (H1 : init now p = Ok tt q1)
    by (rewrite init_as_init_roots; exact Hrun).
  assert (H2 : init later q1 = Ok tt q2)
    by (rewrite init_as_init_roots, Hq; exact Hrun2).
  assert (Hp1 : p1 = q1) by (unfold p1; now rewrite H1).
  assert (Hp2 : p2 = q2).
  { unfold p2, after_load, main. destruct loading.
    - change (fire later (fire now p) = q2). unfold fire.
      rewrite H1. simpl page_of. now rewrite H2.
    - rewrite H1. change (fire later q1 = q2). unfold fire. now rewrite H2. }
  rewrite Hp1, Hp2, Hr2, Ho2, Hl2, Hf2, Hr, Ho, Hl, Hf, <- !app_assoc.
  do 5 (split; [reflexivity|]).
  intros Hmono. apply Hsame.
  rewrite Forall_forall in *. intros c Hin Hcomp.
  apply (Hall c Hin). now apply (Hmono c Hin).
Qed.

Lemma load_initialises_twice_witness :
  let cs := rerenders (querySelectorAll sel_root (document absorbing_page))
              (document absorbing_page) in
  let p1 := page_of (init unrendered_env absorbing_page) in
  let p2 := after_load false unrendered_env sample_env absorbing_page in
  windowResize p1 = windowResize absorbing_page ++ cs
  /\ windowResize p2 = windowResize absorbing_page ++ cs ++ cs
  /\ resizeObserved p2
     = resizeObserved absorbing_page ++ flat_map (observed_of unrendered_env) cs
       ++ flat_map (observed_of sample_env) cs
  /\ loadOnce p2
     = loadOnce absorbing_page ++ flat_map (load_of unrendered_env) cs
       ++ flat_map (load_of sample_env) cs
  /\ animationFrames p2
     = animationFrames absorbing_page ++ flat_map (frames_of unrendered_env) cs
       ++ flat_map (frames_of sample_env) cs
  /\ (Forall (fun c => complete sample_env (dc_img c) = true ->
                       complete unrendered_env (dc_img c) = true) cs ->
      document p2 = document p1).
Proof.
  assert (E : querySelectorAll sel_root (document absorbing_page)
              = [1; 3; 4]) by (vm_compute; reflexivity).
  apply (load_initialises_twice false unrendered_env sample_env
           absorbing_page).
  - unfold well_formed. vm_compute.
    repeat constructor; simpl; intuition discriminate.
  - rewrite E.
    repeat (constructor;
            [split;
             [eexists; vm_compute; reflexivity
             |intros c Hc _ Hbig; vm_compute in Hbig; discriminate Hbig]
            |]).
    constructor.
  - rewrite E.
    repeat (constructor;
            [split;
             [eexists; vm_compute; reflexivity
             |intros c Hc _ _; vm_compute in Hc;
              first [discriminate
                    |injection Hc as <-; simpl;
                     repeat (constructor;
                             [eexists; vm_compute; reflexivity|]);
                     constructor]]
            |]).
    constructor.
Defined.

(* ================================================================== *)
(** * 21. Animation frames                                               *)
(* ================================================================== *)

(** ** Animation frames *)

Lemma draws_in_a_frame env l :
  forall q,
    Forall (fun c => attached (dc_img c) (document q)
                     /\ draws_cleanly env c) l ->
    let q' := fold_left (fun q c => page_of (draw env c q)) l q in
    animationFrames q'
    = animationFrames q
      ++ filter (fun c => too_small (getBoundingClientRect env (dc_img c))) l
    /\ windowResize q' = windowResize q
    /\ resizeObserved q' = resizeObserved q
    /\ loadOnce q' = loadOnce q
    /\ scaffolds_to (document q) (document q')
    /\ Forall (fun c => scaffolded (dc_img c) (document q')) l.
Proof.
  induction l as [|c l IH]; intros q Hall; simpl.
  - rewrite app_nil_r. repeat split; auto using scaffolds_refl.
  - inversion Hall as [|? ? [Hatt Hclean] Hrest]; subst.
    destruct (draw_cleanly env c q Hatt Hclean)
      as (q1 & Hd & Hr & Ho & Hl & Hf).
    pose proof (draw_scaffolds_to env c q) as Hs.
    pose proof (draw_scaffolds env c q Hatt) as Hsc.
    rewrite Hd in Hs, Hsc |- *. simpl page_of in *.
    assert (Hall1 : Forall (fun c0 => attached (dc_img c0) (document q1)
                                      /\ draws_cleanly env c0) l).
    { rewrite Forall_forall in *. intros c0 Hin.
      destruct (Hrest c0 Hin) as [Ha Hc0]. split; [|exact Hc0].
      now apply (scaffolds_attached _ (document q)). }
    destruct (IH q1 Hall1) as (Hf' & Hr' & Ho' & Hl' & Hs' & Hsc').
    rewrite Hf', Hr', Ho', Hl', Hf, Hr, Ho, Hl.
    split.
    { destruct (too_small (getBoundingClientRect env (dc_img c)));
        simpl; now rewrite <- app_assoc. }
    do 3 (split; [reflexivity|]).
    split; [exact (scaffolds_trans _ _ _ Hs Hs')|].
    constructor; [|exact Hsc'].
    clear - Hsc. revert q1 Hsc.
    induction l as [|c1 l IHl]; intros q1 Hsc; simpl; [exact Hsc|].
    apply IHl. now apply draw_keeps_scaffolded.
Qed.

(** X16. One animation frame over draws whose images have a parent and
    whose masks can be read: each queued draw runs once, the draws whose
    image is still below the threshold are the requests left for the next
    frame, in the same order, and all others are gone from the queue.  So
    the retry neither multiplies nor stops while an image has no box, and
    ends with the first frame in which it has one.  The listeners are
    untouched and every queued image has its wrapper and canvas. *)
Theorem frame_keeps_the_unrendered (env : environment) (p : page) :
  Forall (fun c => attached (dc_img c) (document p) /\ draws_cleanly env c)
    (animationFrames p) ->
  let p' := run_frame env p in
  animationFrames p'
  = filter (fun c => too_small (getBoundingClientRect env (dc_img c)))
      (animationFrames p)
  /\ windowResize p' = windowResize p
  /\ resizeObserved p' = resizeObserved p
  /\ loadOnce p' = loadOnce p
  /\ Forall (fun c => scaffolded (dc_img c) (document p')) (animationFrames p).
Proof.
  intros Hall p'.
  destruct (draws_in_a_frame env (animationFrames p)
              {| document := document p; surfaces := surfaces p;
                 animationFrames := []; loadOnce := loadOnce p;
                 windowResize := windowResize p;
                 resizeObserved := resizeObserved p |} Hall)
    as (Hf & Hr & Ho & Hl & _ & Hsc).
  repeat split; assumption.
Qed.

Lemma frame_keeps_the_unrendered_witness :
  let p := page_of (initOne unrendered_env 1 accepted_page) in
  let p' := run_frame sample_env p in
  animationFrames p'
  = filter (fun c => too_small (getBoundingClientRect sample_env (dc_img c)))
      (animationFrames p)
  /\ windowResize p' = windowResize p
  /\ resizeObserved p' = resizeObserved p
  /\ loadOnce p' = loadOnce p
  /\ Forall (fun c => scaffolded (dc_img c) (document p')) (animationFrames p).
Proof.
  apply (frame_keeps_the_unrendered sample_env
           (page_of (initOne unrendered_env 1 accepted_page))).
  assert (E : animationFrames (page_of (initOne unrendered_env 1 accepted_page))
              = [ {| dc_side := lit "front"; dc_img := 2;
                     dc_masks := [mask_value 0.5 0.25 0.25 0.5]%float;
                     dc_activeIndex := one; dc_style := no_style |};
                  {| dc_side := lit "front"; dc_img := 2;
                     dc_masks := [mask_value 0.5 0.25 0.25 0.5]%float;
                     dc_activeIndex := one; dc_style := no_style |} ])
    by (vm_compute; reflexivity).
  rewrite E.
  repeat (constructor;
          [split;
           [eexists; vm_compute; reflexivity
           |intros _; simpl;
            repeat (constructor; [eexists; vm_compute; reflexivity|]);
            constructor]
          |]).
  constructor.
Defined.

(* ================================================================== *)
(** * 22. The legacy attribute, there and back                           *)
(* ================================================================== *)

Local Open Scope N_scope.

Ltac Zify.zify_post_hook ::= Z.to_euclidean_division_equations.

Lemma triples_ind (P : list N -> Prop) :
  P [] -> (forall a, P [a]) -> (forall a b, P [a; b]) ->
  (forall a b c rest, P rest -> P (a :: b :: c :: rest)) ->
  forall l, P l.
Proof.
  intros H0 H1 H2 H3. fix IH 1.
  intros [|a [|b [|c rest]]];
    [exact H0|exact (H1 a)|exact (H2 a b)|exact (H3 a b c rest (IH rest))].
Qed.

Lemma base64_encode_split bytes :
  base64_encode bytes = map b64_char (sextets bytes) ++ padding bytes.
Proof.
  induction bytes as [|a|a b|a b c rest IH] using triples_ind;
    try reflexivity.
  cbn [base64_encode sextets padding map app]. now rewrite IH.
Qed.

(** Every comparison of the goal that arithmetic decides. *)
Ltac decide_comparisons :=
  repeat (match goal with
          | |- context [N.ltb ?a ?b] => destruct (N.ltb_spec a b); try lia
          | |- context [N.leb ?a ?b] => destruct (N.leb_spec a b); try lia
          | |- context [N.eqb ?a ?b] => destruct (N.eqb_spec a b); try lia
          end; cbn [andb orb negb]).

Lemma b64_char_cases v :
  v < 64 ->
  b64_value (b64_char v) = Some v
  /\ b64_char v <> 61
  /\ is_ascii_space (b64_char v) = false.
Proof.
  intros Hv. unfold b64_value, is_ascii_space, is_digit, b64_char.
  decide_comparisons; repeat split; try lia; try reflexivity;
    try (f_equal; lia).
Qed.

Lemma sextets_small bytes :
  Forall (fun b => b < 256) bytes -> Forall (fun v => v < 64) (sextets bytes).
Proof.
  induction bytes as [|a|a b|a b c rest IH] using triples_ind; intros H;
    cbn [sextets].
  - constructor.
  - inversion H as [|? ? Ha _]; subst. repeat constructor; lia.
  - inversion H as [|? ? Ha H1]; subst. inversion H1 as [|? ? Hb _]; subst.
    repeat constructor; lia.
  - inversion H as [|? ? Ha H1]; subst. inversion H1 as [|? ? Hb H2]; subst.
    inversion H2 as [|? ? Hc H3]; subst.
    repeat (constructor; [lia|]). now apply IH.
Qed.

Lemma b64_bytes_sextets bytes :
  Forall (fun b => b < 256) bytes -> b64_bytes (sextets bytes) = bytes.
Proof.
  induction bytes as [|a|a b|a b c rest IH] using triples_ind; intros H;
    cbn [sextets b64_bytes].
  - reflexivity.
  - inversion H as [|? ? Ha _]; subst.
    repeat (apply (f_equal2 (@cons N)); [lia|]). reflexivity.
  - inversion H as [|? ? Ha H1]; subst. inversion H1 as [|? ? Hb _]; subst.
    repeat (apply (f_equal2 (@cons N)); [lia|]). reflexivity.
  - inversion H as [|? ? Ha H1]; subst. inversion H1 as [|? ? Hb H2]; subst.
    inversion H2 as [|? ? Hc H3]; subst.
    rewrite (IH H3).
    repeat (apply (f_equal2 (@cons N)); [lia|]). reflexivity.
Qed.

Lemma sextets_length bytes :
  exists k,
    (List.length (sextets bytes) = 4 * k
     \/ List.length (sextets bytes) = 4 * k + 2
     \/ List.length (sextets bytes) = 4 * k + 3)%nat
    /\ (List.length (sextets bytes) + List.length (padding bytes)
        = 4 * (k + match padding bytes with [] => 0 | _ => 1 end))%nat.
Proof.
  induction bytes as [|a|a b|a b c rest [k [Hk Hp]]] using triples_ind.
  - exists 0%nat. simpl. lia.
  - exists 0%nat. simpl. lia.
  - exists 0%nat. simpl. lia.
  - exists (S k). cbn [sextets padding List.length]. lia.
Qed.

Lemma unpadded_head (x : N) (l s : jsstring) :
  x <> 61 ->
  match x :: l with
  | 61 :: 61 :: r => rev r
  | 61 :: r => rev r
  | _ => s
  end = s.
Proof.
  intros Hx. destruct x as [|p]; [reflexivity|].
  do 6 (destruct p as [p|p|]; try reflexivity). now elim Hx.
Qed.

Lemma padded_once (y : N) (l s : jsstring) :
  y <> 61 ->
  match 61 :: y :: l with
  | 61 :: 61 :: r => rev r
  | 61 :: r => rev r
  | _ => s
  end = rev (y :: l).
Proof.
  intros Hy. destruct y as [|p]; [reflexivity|].
  do 6 (destruct p as [p|p|]; try reflexivity). now elim Hy.
Qed.

Lemma strip_padding_encoded (cs pad : jsstring) :
  Forall (fun c => c <> 61) cs ->
  pad = [] \/ ((pad = [61] \/ pad = [61; 61])
               /\ Nat.modulo (List.length (cs ++ pad)) 4 = 0%nat) ->
  strip_padding (cs ++ pad) = cs.
Proof.
  intros Hcs Hpad. unfold strip_padding. rewrite Forall_forall in Hcs.
  assert (Hlast : forall s, match rev cs with
                            | 61 :: 61 :: r => rev r
                            | 61 :: r => rev r
                            | _ => s
                            end = s).
  { intros s. destruct (rev cs) as [|x l] eqn:E; [reflexivity|].
    apply unpadded_head. apply Hcs. apply in_rev. rewrite E. now left. }
  destruct Hpad as [->|[[->| ->] Hlen]].
  - rewrite app_nil_r.
    destruct (Nat.eqb (Nat.modulo (List.length cs) 4) 0); [|reflexivity].
    apply Hlast.
  - rewrite Hlen. cbn [Nat.eqb]. rewrite rev_app_distr.
    change (rev [61] ++ rev cs) with (61 :: rev cs).
    destruct (rev cs) as [|y l] eqn:E.
    + apply (f_equal (@rev N)) in E. rewrite rev_involutive in E.
      now rewrite E.
    + rewrite (padded_once y l (cs ++ [61])).
      * rewrite <- E. apply rev_involutive.
      * apply Hcs. apply in_rev. rewrite E. now left.
  - rewrite Hlen. cbn [Nat.eqb]. rewrite rev_app_distr. cbn [rev app].
    apply rev_involutive.
Qed.

Lemma b64_values_encoded vs :
  Forall (fun v => v < 64) vs -> b64_values (map b64_char vs) = Some vs.
Proof.
  induction 1 as [|v vs Hv _ IH]; [reflexivity|].
  cbn [map b64_values]. rewrite IH.
  now destruct (b64_char_cases v Hv) as (-> & _ & _).
Qed.

Lemma filter_all {A} (f : A -> bool) (l : list A) :
  Forall (fun x => f x = true) l -> filter f l = l.
Proof.
  induction 1 as [|x l Hx _ IH]; [reflexivity|].
  simpl. now rewrite Hx, IH.
Qed.

(** [atob] undoes [base64_encode] on octets. *)
Lemma atob_base64_encode bytes :
  Forall (fun b => b < 256) bytes ->
  atob (base64_encode bytes) = Normal bytes.
Proof.
  intros Hb. pose proof (sextets_small bytes Hb) as Hv.
  destruct (sextets_length bytes) as (k & Hk & Hp).
  assert (Hchars : Forall (fun c => c <> 61 /\ is_ascii_space c = false)
                     (map b64_char (sextets bytes))).
  { apply Forall_map. rewrite Forall_forall in *. intros v Hin.
    destruct (b64_char_cases v (Hv v Hin)) as (_ & H1 & H2). now split. }
  assert (Hpads : padding bytes = []
                  \/ padding bytes = [61] \/ padding bytes = [61; 61]).
  { clear. induction bytes as [|a|a b|a b c rest IH] using triples_ind;
      simpl; auto. }
  unfold atob. rewrite base64_encode_split.
  rewrite filter_all.
  2:{ apply Forall_app. split.
      - rewrite Forall_forall in *. intros c Hin.
        destruct (Hchars c Hin) as [_ ->]. reflexivity.
      - destruct Hpads as [->|[->| ->]]; repeat constructor. }
  rewrite strip_padding_encoded.
  - rewrite length_map.
    replace (Nat.eqb (Nat.modulo (List.length (sextets bytes)) 4) 1)
      with false.
    + rewrite (b64_values_encoded _ Hv). now rewrite b64_bytes_sextets.
    + symmetry. apply Nat.eqb_neq.
      destruct Hk as [E|[E|E]]; rewrite E; intros H.
      * rewrite Nat.mul_comm, Nat.Div0.mod_mul in H. discriminate.
      * rewrite Nat.add_comm, Nat.mul_comm, Nat.Div0.mod_add in H.
        discriminate.
      * rewrite Nat.add_comm, Nat.mul_comm, Nat.Div0.mod_add in H.
        discriminate.
  - rewrite Forall_forall in *. intros c Hin. now destruct (Hchars c Hin).
  - destruct Hpads as [E|E]; [now left|right]. split; [exact E|].
    rewrite length_app, length_map, Hp.
    rewrite Nat.mul_comm. apply Nat.Div0.mod_mul.
Qed.

Lemma radix_digit_hex h : h < 16 -> radix_digit 16 (hex_char h) = Some h.
Proof.
  intros Hh. unfold radix_digit, hex_char, is_digit.
  decide_comparisons; try (f_equal; lia).
Qed.

Lemma unreserved_ascii c : escape_unreserved c = true -> c < 128 /\ c <> 37.
Proof.
  unfold escape_unreserved, is_alnum, is_digit.
  decide_comparisons; intros H; try discriminate; lia.
Qed.

Lemma escaped_item_high b : 128 <= b -> escaped_item b = Octet b.
Proof.
  intros Hb. unfold escaped_item.
  destruct (escape_unreserved b) eqn:E; [|reflexivity].
  apply unreserved_ascii in E. lia.
Qed.

(** [escape] and the first pass of [decodeURIComponent] cancel out on
    octets. *)
Lemma uri_items_escape bin :
  Forall (fun b => b < 256) bin ->
  uri_items (escape bin) = Normal (map escaped_item bin).
Proof.
  induction 1 as [|c rest Hc _ IH]; [reflexivity|].
  unfold escape in *. cbn [flat_map map].
  unfold escape_unit at 1, escaped_item at 1.
  destruct (escape_unreserved c) eqn:E.
  - apply unreserved_ascii in E. cbn [app uri_items].
    replace (N.eqb c 37) with false by (symmetry; apply N.eqb_neq; lia).
    now rewrite IH.
  - replace (N.ltb c 256) with true by (symmetry; apply N.ltb_lt; lia).
    cbn [app uri_items]. cbn [N.eqb Pos.eqb].
    rewrite !radix_digit_hex by lia. rewrite IH.
    do 2 f_equal. f_equal. lia.
Qed.

Lemma utf8_items_ascii c rest :
  c < 128 ->
  utf8_items None (escaped_item c :: rest)
  = match utf8_items None rest with
    | Normal s => Normal (c :: s)
    | Abrupt e => Abrupt e
    end.
Proof.
  intros Hc. unfold escaped_item.
  destruct (escape_unreserved c); cbn [utf8_items]; [reflexivity|].
  now replace (N.ltb c 128) with true by (symmetry; apply N.ltb_lt; lia).
Qed.

(** The octets of one code point, as numbers without division. *)
Lemma two_octets c :
  c < 2048 ->
  exists q r, c / 64 = q /\ c mod 64 = r /\ q < 32 /\ r < 64
              /\ c = q * 64 + r.
Proof. intros H. exists (c / 64), (c mod 64). repeat split; lia. Qed.

Lemma three_octets c :
  c < 65536 ->
  exists q1 q2 q3,
    c / 4096 = q1 /\ (c / 64) mod 64 = q2 /\ c mod 64 = q3
    /\ q1 < 16 /\ q2 < 64 /\ q3 < 64 /\ c = (q1 * 64 + q2) * 64 + q3.
Proof.
  intros H. exists (c / 4096), ((c / 64) mod 64), (c mod 64).
  repeat split; lia.
Qed.

Lemma four_octets u :
  u < 2097152 ->
  exists q1 q2 q3 q4,
    u / 262144 = q1 /\ (u / 4096) mod 64 = q2 /\ (u / 64) mod 64 = q3
    /\ u mod 64 = q4
    /\ q1 < 8 /\ q2 < 64 /\ q3 < 64 /\ q4 < 64
    /\ u = ((q1 * 64 + q2) * 64 + q3) * 64 + q4.
Proof.
  intros H.
  exists (u / 262144), ((u / 4096) mod 64), ((u / 64) mod 64), (u mod 64).
  repeat split; lia.
Qed.

Lemma surrogate_pair c d :
  55296 <= c -> c <= 56319 -> 56320 <= d -> d <= 57343 ->
  let u := 65536 + (c - 55296) * 1024 + (d - 56320) in
  65536 <= u /\ u <= 1114111
  /\ 55296 + (u - 65536) / 1024 = c
  /\ 56320 + (u - 65536) mod 1024 = d.
Proof. intros H1 H2 H3 H4 u. subst u. repeat split; lia. Qed.

Ltac drop_offsets :=
  repeat match goal with
         | |- context [?a + ?q - ?a] =>
             replace (a + q - a) with q by lia
         end.

Lemma utf8_items_encoded n :
  forall s,
    (List.length s <= n)%nat -> well_formed_utf16 s = true ->
    utf8_items None (map escaped_item (utf8_encode s)) = Normal s.
Proof.
  induction n as [|n IH]; intros s Hlen Hwf.
  - destruct s; [reflexivity|simpl in Hlen; lia].
  - destruct s as [|c rest]; [reflexivity|].
    cbn [List.length] in Hlen. cbn [well_formed_utf16] in Hwf.
    destruct (N.ltb_spec c 128) as [Hc|Hc].
    + replace (c <? 55296) with true in Hwf
        by (symmetry; apply N.ltb_lt; lia).
      cbn [orb] in Hwf. cbn [utf8_encode].
      replace (c <? 128) with true by (symmetry; apply N.ltb_lt; lia).
      cbn [map]. rewrite utf8_items_ascii by exact Hc.
      rewrite IH; [reflexivity|lia|exact Hwf].
    + destruct (N.ltb_spec c 2048) as [Hc2|Hc2].
      * replace (c <? 55296) with true in Hwf
          by (symmetry; apply N.ltb_lt; lia).
        cbn [orb] in Hwf. cbn [utf8_encode].
        replace (c <? 128) with false by (symmetry; apply N.ltb_ge; lia).
        replace (c <? 2048) with true by (symmetry; apply N.ltb_lt; lia).
        destruct (two_octets c Hc2) as (q & r & -> & -> & Hq & Hr & Ec).
        cbn [map]. rewrite !escaped_item_high by lia.
        repeat (cbn [utf8_items]; decide_comparisons).
        drop_offsets. rewrite <- Ec.
        rewrite IH; [|lia|exact Hwf].
        unfold valid_scalar, utf16_encode; decide_comparisons; reflexivity.
      * cbn [utf8_encode].
        replace (c <? 128) with false by (symmetry; apply N.ltb_ge; lia).
        replace (c <? 2048) with false by (symmetry; apply N.ltb_ge; lia).
        destruct (N.ltb c 55296 || (N.ltb 57343 c && N.ltb c 65536)) eqn:Hplain.
        -- assert (Hrange : c < 65536 /\ (c < 55296 \/ 57343 < c)).
           { revert Hplain. decide_comparisons; intros; try discriminate; lia. }
           clear Hplain. destruct Hrange as [Hc3 Hc4].
           replace (N.leb 55296 c && N.leb c 56319) with false
             by (symmetry; decide_comparisons; reflexivity).
           destruct (three_octets c Hc3)
             as (q1 & q2 & q3 & -> & -> & -> & Hq1 & Hq2 & Hq3 & Ec).
           cbn [map app]. rewrite !escaped_item_high by lia.
           repeat (cbn [utf8_items]; decide_comparisons).
           drop_offsets. rewrite <- Ec.
           rewrite IH; [|lia|exact Hwf].
           unfold valid_scalar, utf16_encode; decide_comparisons; reflexivity.
        -- destruct (N.leb_spec c 56319) as [Hhigh|Hhigh]; [|discriminate].
           destruct rest as [|d rest']; [discriminate|].
           apply andb_prop in Hwf. destruct Hwf as [Hd Hwf].
           apply andb_prop in Hd. destruct Hd as [Hd1 Hd2].
           apply N.leb_le in Hd1, Hd2.
           assert (Hc3 : 55296 <= c).
           { revert Hplain. decide_comparisons; intros; try discriminate; lia. }
           clear Hplain. decide_comparisons.
           destruct (surrogate_pair c d Hc3 Hhigh Hd1 Hd2)
             as (Hu1 & Hu2 & Hhi & Hlo).
           remember (65536 + (c - 55296) * 1024 + (d - 56320)) as u eqn:Eu.
           clear Eu.
           destruct (four_octets u ltac:(lia))
             as (q1 & q2 & q3 & q4 & -> & -> & -> & -> & Hq1 & Hq2 & Hq3 & Hq4
                 & Ec).
           cbn [map app]. rewrite !escaped_item_high by lia.
           repeat (cbn [utf8_items]; decide_comparisons).
           drop_offsets. rewrite <- Ec.
           cbn [List.length] in Hlen.
           rewrite IH; [|lia|exact Hwf].
           unfold valid_scalar, utf16_encode; decide_comparisons.
           cbn [app]. now rewrite Hhi, Hlo.
Qed.

(** [decodeURIComponent(escape(...))] reads the UTF-8 octets of a
    well-formed text back as that text. *)
Lemma utf8_encode_octets s :
  well_formed_utf16 s = true -> Forall (fun b => b < 256) (utf8_encode s).
Proof.
  remember (List.length s) as n eqn:En.
  assert (Hlen : (List.length s <= n)%nat) by lia. clear En.
  revert s Hlen. induction n as [|n IH]; intros s Hlen Hwf.
  - destruct s; [constructor|simpl in Hlen; lia].
  - destruct s as [|c rest]; [constructor|].
    cbn [List.length] in Hlen. cbn [well_formed_utf16] in Hwf.
    cbn [utf8_encode].
    destruct (N.ltb_spec c 128) as [Hc|Hc].
    + replace (c <? 55296) with true in Hwf
        by (symmetry; apply N.ltb_lt; lia).
      constructor; [lia|]. apply IH; [lia|exact Hwf].
    + destruct (N.ltb_spec c 2048) as [Hc2|Hc2].
      * replace (c <? 55296) with true in Hwf
          by (symmetry; apply N.ltb_lt; lia).
        destruct (two_octets c Hc2) as (q & r & -> & -> & Hq & Hr & Ec).
        repeat (constructor; [lia|]). apply IH; [lia|exact Hwf].
      * destruct (N.ltb c 55296 || (N.ltb 57343 c && N.ltb c 65536)) eqn:Hplain.
        -- assert (Hrange : c < 65536 /\ (c < 55296 \/ 57343 < c)).
           { revert Hplain. decide_comparisons; intros; try discriminate; lia. }
           clear Hplain. destruct Hrange as [Hc3 Hc4].
           replace (N.leb 55296 c && N.leb c 56319) with false
             by (symmetry; decide_comparisons; reflexivity).
           destruct (three_octets c Hc3)
             as (q1 & q2 & q3 & -> & -> & -> & Hq1 & Hq2 & Hq3 & Ec).
           cbn [app]. repeat (constructor; [lia|]).
           apply IH; [lia|exact Hwf].
        -- destruct (N.leb_spec c 56319) as [Hhigh|Hhigh]; [|discriminate].
           destruct rest as [|d rest']; [discriminate|].
           apply andb_prop in Hwf. destruct Hwf as [Hd Hwf].
           apply andb_prop in Hd. destruct Hd as [Hd1 Hd2].
           apply N.leb_le in Hd1, Hd2.
           assert (Hc3 : 55296 <= c).
           { revert Hplain. decide_comparisons; intros; try discriminate; lia. }
           clear Hplain. decide_comparisons.
           destruct (surrogate_pair c d Hc3 Hhigh Hd1 Hd2)
             as (Hu1 & Hu2 & _ & _).
           remember (65536 + (c - 55296) * 1024 + (d - 56320)) as u eqn:Eu.
           clear Eu.
           destruct (four_octets u ltac:(lia))
             as (q1 & q2 & q3 & q4 & -> & -> & -> & -> & Hq1 & Hq2 & Hq3 & Hq4
                 & Ec).
           cbn [List.length] in Hlen. repeat (constructor; [lia|]).
           apply IH; [lia|exact Hwf].
Qed.

Lemma or_str_empty s : or_str s (lit "") = s.
Proof. now destruct s. Qed.

(** X17. The legacy attribute round trip, for every text.  If [s] is a
    well-formed text (no unpaired surrogate) and the attribute holds the
    padded base64 of its UTF-8 octets, [b64ToUtf8] returns [s] itself,
    whatever characters it contains, and [parseMasksB64] returns what
    [JSON.parse] makes of [s], the empty payload [{v: 1, masks: []}] when
    [s] is no JSON. *)
Theorem b64ToUtf8_round_trip (s : jsstring) :
  well_formed_utf16 s = true ->
  b64ToUtf8 (base64_encode (utf8_encode s)) = Normal s
  /\ parseMasksB64 (base64_encode (utf8_encode s))
     = try_catch (JSON_parse s) (Normal empty_payload).
Proof.
  intros Hwf.
  assert (H : b64ToUtf8 (base64_encode (utf8_encode s)) = Normal s).
  { pose proof (utf8_encode_octets s Hwf) as Hb.
    unfold b64ToUtf8. rewrite or_str_empty, (atob_base64_encode _ Hb).
    cbn [bindC]. unfold decodeURIComponent.
    rewrite (uri_items_escape _ Hb). cbn [bindC].
    now rewrite (utf8_items_encoded (List.length s) s (Nat.le_refl _) Hwf). }
  split; [exact H|]. unfold parseMasksB64. now rewrite H.
Qed.

Lemma b64ToUtf8_round_trip_witness :
  b64ToUtf8 (base64_encode (utf8_encode [104; 233; 8364; 55357; 56832]))
  = Normal [104; 233; 8364; 55357; 56832]
  /\ parseMasksB64
       (base64_encode (utf8_encode [104; 233; 8364; 55357; 56832]))
     = try_catch (JSON_parse [104; 233; 8364; 55357; 56832])
         (Normal empty_payload).
Proof.
  apply (b64ToUtf8_round_trip [104; 233; 8364; 55357; 56832]). reflexivity.
Defined.
